(** * SPHinXsys: mesh iterators, simulation entities, level-set schedules
      and slender-structure dynamics

    A shallow embedding of
    - [src/for_3D_build/meshes/mesh_iterators.hpp],
    - [src/shared/common/sphinxsys_entity.h],
    - [src/shared/geometries/level_set.h],
    - [src/for_3D_build/particle_dynamics/solid_dynamics/slender_structure_dynamics.cpp].

    C++ [int] is modelled by [Z] (signed overflow is undefined behaviour in
    C++, so the model covers the runs without overflow), [Real] by the
    rationals [Q], pointers by an inductive type with a null constructor,
    [std::string] by [string], [std::vector] by [list]. *)

From Stdlib Require Import ZArith QArith Lia Lqa.
From stdpp Require Import base option list list_numbers sorting strings.

(* ===================================================================== *)
(** * Part I: definitions                                                 *)
(* ===================================================================== *)

(** ** Mesh iterators ([mesh_iterators.hpp]) *)

Module MeshIterators.
Local Open Scope Z_scope.

(** [Array3i(i, j, k)]: an Eigen array of three [int]s. *)
Record Array3i : Type := mkArray3i { idx0 : Z; idx1 : Z; idx2 : Z }.

(** [MeshRange] is [std::pair<Arrayi, Arrayi>]: [first] is the lower corner,
    [second] the (excluded) upper corner. *)
Record MeshRange : Type := mkMeshRange { first : Array3i; second : Array3i }.

(** A C [for (init; cond; step) body] loop over an [int] counter, threading
    the state the body mutates.  [fuel] bounds the number of evaluations of
    the condition; [None] means that the loop is still running when the fuel
    is used up. *)
Fixpoint for_loop {St : Type} (fuel : nat) (cond : Z → bool) (step : Z → Z)
    (i : Z) (body : Z → St → option St) (st : St) : option St :=
  match fuel with
  | O => None
  | S fuel' =>
      if cond i
      then st' ← body i st; for_loop fuel' cond step (step i) body st'
      else Some st
  end.

(** [mesh_for], lines 67-76: three nested [!=] loops with [++]. *)
Definition mesh_for {St : Type} (fuel : nat) (mesh_range : MeshRange)
    (local_function : Array3i → St → St) : St → option St :=
  for_loop fuel (λ i, negb (i =? idx0 (second mesh_range))) Z.succ
    (idx0 (first mesh_range)) (λ i,
  for_loop fuel (λ j, negb (j =? idx1 (second mesh_range))) Z.succ
    (idx1 (first mesh_range)) (λ j,
  for_loop fuel (λ k, negb (k =? idx2 (second mesh_range))) Z.succ
    (idx2 (first mesh_range)) (λ k st,
  Some (local_function (mkArray3i i j k) st)))).

(** [mesh_stride_forward_for], lines 97-109: the offsets [m], [n], [p] count
    up from [0] below the stride; the cell loops start at [first + offset],
    test [<] and advance by the stride.  The counters are [int]s: the loops
    over [Z] are the run of the code as long as [first + offset] and
    [counter + stride] stay within [int], see [no_overflow] below. *)
Definition mesh_stride_forward_for {St : Type} (fuel : nat)
    (mesh_range : MeshRange) (stride : Array3i)
    (local_function : Array3i → St → St) : St → option St :=
  for_loop fuel (λ m, m <? idx0 stride) Z.succ 0 (λ m,
  for_loop fuel (λ n, n <? idx1 stride) Z.succ 0 (λ n,
  for_loop fuel (λ p, p <? idx2 stride) Z.succ 0 (λ p,
  for_loop fuel (λ i, i <? idx0 (second mesh_range)) (λ i, i + idx0 stride)
    (idx0 (first mesh_range) + m) (λ i,
  for_loop fuel (λ j, j <? idx1 (second mesh_range)) (λ j, j + idx1 stride)
    (idx1 (first mesh_range) + n) (λ j,
  for_loop fuel (λ k, k <? idx2 (second mesh_range)) (λ k, k + idx2 stride)
    (idx2 (first mesh_range) + p) (λ k st,
  Some (local_function (mkArray3i i j k) st))))))).

(** [mesh_stride_backward_for], lines 126-138: the offsets count down from
    the stride to [1] and the cell loops start at [first + offset - 1]; the
    counters are [int]s as in the forward iterator. *)
Definition mesh_stride_backward_for {St : Type} (fuel : nat)
    (mesh_range : MeshRange) (stride : Array3i)
    (local_function : Array3i → St → St) : St → option St :=
  for_loop fuel (λ m, 0 <? m) Z.pred (idx0 stride) (λ m,
  for_loop fuel (λ n, 0 <? n) Z.pred (idx1 stride) (λ n,
  for_loop fuel (λ p, 0 <? p) Z.pred (idx2 stride) (λ p,
  for_loop fuel (λ i, i <? idx0 (second mesh_range)) (λ i, i + idx0 stride)
    (idx0 (first mesh_range) + m - 1) (λ i,
  for_loop fuel (λ j, j <? idx1 (second mesh_range)) (λ j, j + idx1 stride)
    (idx1 (first mesh_range) + n - 1) (λ j,
  for_loop fuel (λ k, k <? idx2 (second mesh_range)) (λ k, k + idx2 stride)
    (idx2 (first mesh_range) + p - 1) (λ k st,
  Some (local_function (mkArray3i i j k) st))))))).

(** *** Reference enumerations the loops are compared with *)

(** Applying a local function to a list of cells in order. *)
Definition apply_in_order {St : Type} (local_function : Array3i → St → St)
    (cells : list Array3i) (st : St) : St :=
  foldl (λ s c, local_function c s) st cells.

(** The local function that records the cells it is called on. *)
Definition record_cell (c : Array3i) (trace : list Array3i) : list Array3i :=
  trace ++ [c].

(** The counter values [a, a + s, a + 2 s, ...] below [hi]. *)
Definition strided (a hi s : Z) : list Z :=
  (λ t, a + t * s) <$> seqZ 0 ((hi - a + s - 1) `div` s).

(** All cells of the box [first <= c < second], in row-major order. *)
Definition range_cells (r : MeshRange) : list Array3i :=
  i ← seqZ (idx0 (first r)) (idx0 (second r) - idx0 (first r));
  j ← seqZ (idx1 (first r)) (idx1 (second r) - idx1 (first r));
  k ← seqZ (idx2 (first r)) (idx2 (second r) - idx2 (first r));
  [mkArray3i i j k].

(** The cells of the range that lie at stride offset [off] from [first]. *)
Definition offset_cells (r : MeshRange) (stride off : Array3i) : list Array3i :=
  i ← strided (idx0 (first r) + idx0 off) (idx0 (second r)) (idx0 stride);
  j ← strided (idx1 (first r) + idx1 off) (idx1 (second r)) (idx1 stride);
  k ← strided (idx2 (first r) + idx2 off) (idx2 (second r)) (idx2 stride);
  [mkArray3i i j k].

(** The offsets [(m, n, p)] of [[0, stride)^3] in ascending lexicographic
    order. *)
Definition offsets (stride : Array3i) : list Array3i :=
  m ← seqZ 0 (idx0 stride);
  n ← seqZ 0 (idx1 stride);
  p ← seqZ 0 (idx2 stride);
  [mkArray3i m n p].

Definition range_ordered (r : MeshRange) : Prop :=
  idx0 (first r) ≤ idx0 (second r) ∧
  idx1 (first r) ≤ idx1 (second r) ∧
  idx2 (first r) ≤ idx2 (second r).

Definition stride_positive (stride : Array3i) : Prop :=
  0 < idx0 stride ∧ 0 < idx1 stride ∧ 0 < idx2 stride.

(** The range of a 32-bit [int]. *)
Definition INT_MIN : Z := -2147483648.
Definition INT_MAX : Z := 2147483647.
Definition in_int (z : Z) : Prop := INT_MIN ≤ z ≤ INT_MAX.

(** No [int] counter of the strided iterators overflows: the corners and
    the stride are [int]s, and so is [second + stride], which bounds
    [first + m] and the value [i += stride] leaves in a counter that was
    below [second]. *)
Definition no_overflow (r : MeshRange) (stride : Array3i) : Prop :=
  (in_int (idx0 (first r)) ∧ in_int (idx1 (first r)) ∧ in_int (idx2 (first r))) ∧
  (in_int (idx0 (second r)) ∧ in_int (idx1 (second r)) ∧ in_int (idx2 (second r))) ∧
  (in_int (idx0 stride) ∧ in_int (idx1 stride) ∧ in_int (idx2 stride)) ∧
  (in_int (idx0 (second r) + idx0 stride) ∧ in_int (idx1 (second r) + idx1 stride) ∧
   in_int (idx2 (second r) + idx2 stride)).

(** The start values of the cell loops at offset [off] are [int]s:
    [first + m] with [m = off] in the forward iterator, and [first + m] and
    [first + m - 1] with [m = off + 1] in the backward one. *)
Definition start_in_int (r : MeshRange) (off : Array3i) : Prop :=
  (in_int (idx0 (first r) + idx0 off) ∧ in_int (idx0 (first r) + idx0 off + 1)) ∧
  (in_int (idx1 (first r) + idx1 off) ∧ in_int (idx1 (first r) + idx1 off + 1)) ∧
  (in_int (idx2 (first r) + idx2 off) ∧ in_int (idx2 (first r) + idx2 off + 1)).

(** The counters of a cell loop are still [int]s after [+= stride] from the
    cell [c]. *)
Definition step_in_int (stride c : Array3i) : Prop :=
  in_int (idx0 c + idx0 stride) ∧ in_int (idx1 c + idx1 stride) ∧
  in_int (idx2 c + idx2 stride).

(** Fuel that lets every loop of the three iterators run to its end. *)
Definition enough_fuel (fuel : nat) (r : MeshRange) (stride : Array3i) : Prop :=
  idx0 (second r) - idx0 (first r) < Z.of_nat fuel ∧
  idx1 (second r) - idx1 (first r) < Z.of_nat fuel ∧
  idx2 (second r) - idx2 (first r) < Z.of_nat fuel ∧
  idx0 stride < Z.of_nat fuel ∧
  idx1 stride < Z.of_nat fuel ∧
  idx2 stride < Z.of_nat fuel.

(** A cell [c] sits at offset [off]: componentwise, [c - first] is [off]
    modulo the stride. *)
Definition at_offset (r : MeshRange) (stride off c : Array3i) : Prop :=
  (idx0 c - idx0 (first r)) `mod` idx0 stride = idx0 off ∧
  (idx1 c - idx1 (first r)) `mod` idx1 stride = idx1 off ∧
  (idx2 c - idx2 (first r)) `mod` idx2 stride = idx2 off.

(** The lexicographic order on offsets [(m, n, p)]. *)
Definition offset_lt (a b : Array3i) : Prop :=
  idx0 a < idx0 b ∨
  (idx0 a = idx0 b ∧
   (idx1 a < idx1 b ∨ (idx1 a = idx1 b ∧ idx2 a < idx2 b))).

(** [counter_values cond step i l]: [l] lists, in order, the values the
    counter of [for (c = i; cond c; c = step c)] takes in the loop body. *)
Fixpoint counter_values (cond : Z → bool) (step : Z → Z) (i : Z)
    (l : list Z) : Prop :=
  match l with
  | [] => cond i = false
  | x :: l' => x = i ∧ cond i = true ∧ counter_values cond step (step i) l'
  end.

(** *** The search iterators and the plain iterators with two bounds *)

(** A [for] loop whose body may [return]: the body yields [Some (Some r)]
    to return [r] from the function and [Some None] to go on; the loop
    yields [Some None] when its condition fails.  [None] means that the
    fuel is used up. *)
Fixpoint for_loop_return {R : Type} (fuel : nat) (cond : Z → bool)
    (step : Z → Z) (i : Z) (body : Z → option (option R))
    : option (option R) :=
  match fuel with
  | O => None
  | S fuel' =>
      if cond i
      then match body i with
           | None => None
           | Some (Some r) => Some (Some r)
           | Some None => for_loop_return fuel' cond step (step i) body
           end
      else Some None
  end.

(** [mesh_find_if], lines 53-64: the first cell on which [function] holds
    is returned from inside the loops, [upper] after them. *)
Definition mesh_find_if (fuel : nat) (lower upper : Array3i)
    (function : Z → Z → Z → bool) : option Array3i :=
  found ← for_loop_return fuel (λ l, negb (l =? idx0 upper)) Z.succ (idx0 lower) (λ l,
           for_loop_return fuel (λ m, negb (m =? idx1 upper)) Z.succ (idx1 lower) (λ m,
           for_loop_return fuel (λ n, negb (n =? idx2 upper)) Z.succ (idx2 lower) (λ n,
           Some (if function l m n then Some (mkArray3i l m n) else None))));
  Some (default upper found).

(** [mesh_find_if3d], lines 27-40: the bounds are template arguments and
    [Array3i(upper0, upper1, upper2)] is returned after the loops. *)
Definition mesh_find_if3d (fuel : nat) (lower0 upper0 lower1 upper1 lower2 upper2 : Z)
    (function : Z → Z → Z → bool) : option Array3i :=
  found ← for_loop_return fuel (λ l, negb (l =? upper0)) Z.succ lower0 (λ l,
           for_loop_return fuel (λ m, negb (m =? upper1)) Z.succ lower1 (λ m,
           for_loop_return fuel (λ n, negb (n =? upper2)) Z.succ lower2 (λ n,
           Some (if function l m n then Some (mkArray3i l m n) else None))));
  Some (default (mkArray3i upper0 upper1 upper2) found).

(** [mesh_for_each], lines 42-51. *)
Definition mesh_for_each {St : Type} (fuel : nat) (lower upper : Array3i)
    (function : Array3i → St → St) : St → option St :=
  for_loop fuel (λ l, negb (l =? idx0 upper)) Z.succ (idx0 lower) (λ l,
  for_loop fuel (λ m, negb (m =? idx1 upper)) Z.succ (idx1 lower) (λ m,
  for_loop fuel (λ n, negb (n =? idx2 upper)) Z.succ (idx2 lower) (λ n st,
  Some (function (mkArray3i l m n) st)))).

(** [mesh_for_each3d], lines 14-25: [function] takes the three indices. *)
Definition mesh_for_each3d {St : Type} (fuel : nat)
    (lower0 upper0 lower1 upper1 lower2 upper2 : Z)
    (function : Z → Z → Z → St → St) : St → option St :=
  for_loop fuel (λ l, negb (l =? upper0)) Z.succ lower0 (λ l,
  for_loop fuel (λ m, negb (m =? upper1)) Z.succ lower1 (λ m,
  for_loop fuel (λ n, negb (n =? upper2)) Z.succ lower2 (λ n st,
  Some (function l m n st)))).

(** Fuel that lets the three [!=] loops over [lower .. upper] run to their
    end. *)
Definition range_fuel (fuel : nat) (lower upper : Array3i) : Prop :=
  idx0 upper - idx0 lower < Z.of_nat fuel ∧
  idx1 upper - idx1 lower < Z.of_nat fuel ∧
  idx2 upper - idx2 lower < Z.of_nat fuel.

(** The check of a search, on a cell. *)
Definition on_cell (function : Z → Z → Z → bool) (c : Array3i) : bool :=
  function (idx0 c) (idx1 c) (idx2 c).

(** The first value of [l] on which [g] returns. *)
Fixpoint first_return {R : Type} (g : Z → option R) (l : list Z) : option R :=
  match l with
  | [] => None
  | x :: l' => match g x with
               | Some r => Some r
               | None => first_return g l'
               end
  end.

End MeshIterators.

(** ** Simulation entities ([sphinxsys_entity.h]) *)

Module Entity.

(** A [DataType *]: the null pointer or the address of an object. *)
Inductive pointer : Type :=
| nullptr
| addr (a : N).

Definition pointer_eqb (p q : pointer) : bool :=
  match p, q with
  | nullptr, nullptr => true
  | addr a, addr b => N.eqb a b
  | _, _ => false
  end.

(** What a call writes to [std::cout]: text, [std::endl], and the
    [__FILE__] and [__LINE__] macros (the file path depends on the build). *)
Inductive cout_item : Type :=
| Text (s : string)
| Endl
| FileMacro
| LineMacro (line : Z).

(** A call either returns or ends the process with [exit(code)] after
    writing to [std::cout]. *)
Inductive outcome (A : Type) : Type :=
| Ret (a : A)
| Exit (code : Z) (cout : list cout_item).
Arguments Ret {A} a.
Arguments Exit {A} code cout.

(** [class ConstantEntity], lines 80-109; [name_] is the [BaseEntity]
    member. *)
Record ConstantEntity : Type := mkConstantEntity {
  name_ : string;
  value_ : pointer;
  device_value_ : pointer
}.

(** The constructor, lines 84-85: [value_(new DataType(value))] is the
    address [new] returns, [device_value_(nullptr)]. *)
Definition ConstantEntity_new (name : string) (allocated : N) : ConstantEntity :=
  {| name_ := name; value_ := addr allocated; device_value_ := nullptr |}.

Definition Name (e : ConstantEntity) : string := name_ e.

(** Line 88. *)
Definition existDeviceData (e : ConstantEntity) : bool :=
  negb (pointer_eqb (device_value_ e) nullptr).

(** Line 89. *)
Definition setDeviceData (e : ConstantEntity) (data : pointer) : ConstantEntity :=
  {| name_ := name_ e; value_ := value_ e; device_value_ := data |}.

(** The two lines written before [exit(1)], lines 94-95. *)
Definition not_allocated_message (name : string) : list cout_item :=
  [Text "
 Error: the constant entity '"; Text name;
   Text "' not allocated on device yet!"; Endl;
   FileMacro; Text ":"; LineMacro 95; Endl].

(** Lines 90-99. *)
Definition DeviceDataAddress (e : ConstantEntity) : outcome pointer :=
  if negb (existDeviceData e)
  then Exit 1 (not_allocated_message (name_ e))
  else Ret (device_value_ e).

(** Line 101. *)
Definition DataAddress (e : ConstantEntity) : pointer := value_ e.

(** The execution policy tags: [execution::ParallelDevicePolicy] selects
    the overload of line 104, every other policy type the template of
    lines 102-103. *)
Inductive ExecutionPolicy : Type :=
| ParallelDevicePolicy
| OtherPolicy (type_name : string).

Definition DataAddress_policy (e : ConstantEntity) (policy : ExecutionPolicy)
    : outcome pointer :=
  match policy with
  | ParallelDevicePolicy => DeviceDataAddress e
  | OtherPolicy _ => Ret (DataAddress e)
  end.

(** A variable object held in an assemble: its [BaseEntity] name and the
    address the stored pointer refers to. *)
Record VariableType : Type := mkVariable {
  variable_name : string;
  variable_address : N
}.

(** [DataContainerAddressAssemble<VariableType>]: one vector of variable
    pointers per data type, selected by [DataTypeIndex<DataType>::value]. *)
Definition DataContainerAddressAssemble : Type := nat → list VariableType.

(** [findVariableByName], lines 179-190: [std::find_if] over the vector of
    the data type; [None] is the returned [nullptr]. *)
Definition findVariableByName (assemble : DataContainerAddressAssemble)
    (type_index : nat) (name : string) : option VariableType :=
  let variables := assemble type_index in
  List.find (λ variable, String.eqb (variable_name variable) name) variables.

(** A call of [findVariableByName] as its caller sees it: the body has no
    [exit] and throws nothing; line 189 returns the found pointer or
    [nullptr] in every case. *)
Definition findVariableByName_call (assemble : DataContainerAddressAssemble)
    (type_index : nat) (name : string) : outcome (option VariableType) :=
  Ret (findVariableByName assemble type_index name).

(** [addVariableToAssemble], lines 191-201: the new variable is pushed to
    the back of the vector of its data type. *)
Definition addVariableToAssemble (assemble : DataContainerAddressAssemble)
    (type_index : nat) (new_variable : VariableType) : DataContainerAddressAssemble :=
  λ index, if Nat.eqb index type_index
           then assemble index ++ [new_variable]
           else assemble index.

End Entity.

(** *** The other entity classes of [sphinxsys_entity.h] *)

(** The free store as far as [new[]] and [delete[]] of the entity classes
    use it: the live blocks (address and element count) and the next fresh
    address. *)
Module FreeStore.
Import Entity.

Record heap : Type := mkHeap {
  live : list (N * N);
  next_address : N
}.

(** Every live block was handed out before: its address is below the next
    fresh one. *)
Definition heap_wf (h : heap) : Prop :=
  ∀ block, block ∈ live h → (block.1 < next_address h)%N.

(** [new DataType[size]]. *)
Definition new_array (size : N) (h : heap) : N * heap :=
  (next_address h,
   {| live := (next_address h, size) :: live h;
      next_address := N.succ (next_address h) |}).

(** [delete[] p]; deleting the null pointer does nothing. *)
Definition delete_array (p : pointer) (h : heap) : heap :=
  match p with
  | nullptr => h
  | addr a =>
      {| live := filter (λ block, block.1 ≠ a) (live h);
         next_address := next_address h |}
  end.

End FreeStore.

Module Singular.
Import Entity.

(** [class SingularVariable], lines 51-66. *)
Record SingularVariable : Type := mkSingularVariable {
  name_ : string;
  value_ : pointer;
  delegated_ : pointer
}.

(** The constructor, lines 55-56: [value_(new DataType(value))],
    [delegated_(value_)]. *)
Definition SingularVariable_new (name : string) (allocated : N) : SingularVariable :=
  {| name_ := name; value_ := addr allocated; delegated_ := addr allocated |}.

(** Line 59. *)
Definition ValueAddress (v : SingularVariable) : pointer := delegated_ v.

(** Line 60: [value_ == delegated_]. *)
Definition isValueDelegated (v : SingularVariable) : bool :=
  pointer_eqb (value_ v) (delegated_ v).

(** Line 61. *)
Definition setDelegateValueAddress (v : SingularVariable) (new_delegated : pointer)
    : SingularVariable :=
  {| name_ := name_ v; value_ := value_ v; delegated_ := new_delegated |}.

End Singular.

Module Discrete.
Import Entity.

(** [class DiscreteVariable], lines 123-146. *)
Record DiscreteVariable : Type := mkDiscreteVariable {
  name_ : string;
  data_size_ : N;
  data_field_ : pointer;
  device_data_field_ : pointer
}.

(** The constructor, lines 127-132: [data_field_ = new DataType[data_size]]
    is the address [new[]] returns. *)
Definition DiscreteVariable_new (name : string) (data_size : N) (allocated : N)
    : DiscreteVariable :=
  {| name_ := name; data_size_ := data_size;
     data_field_ := addr allocated; device_data_field_ := nullptr |}.

(** Lines 134-135. *)
Definition DataField (v : DiscreteVariable) : pointer := data_field_ v.
Definition DeviceDataField (v : DiscreteVariable) : pointer := device_data_field_ v.

(** Lines 137-139. *)
Definition existDeviceDataField (v : DiscreteVariable) : bool :=
  negb (pointer_eqb (device_data_field_ v) nullptr).
Definition getDataSize (v : DiscreteVariable) : N := data_size_ v.
Definition setDeviceDataField (v : DiscreteVariable) (data_field : pointer)
    : DiscreteVariable :=
  {| name_ := name_ v; data_size_ := data_size_ v;
     data_field_ := data_field_ v; device_data_field_ := data_field |}.

End Discrete.

Module Mesh.
Import Entity FreeStore.

(** [class MeshVariable], lines 159-177. *)
Record MeshVariable : Type := mkMeshVariable {
  name_ : string;
  data_field_ : pointer
}.

(** The constructor, lines 164-165: [data_size] is not used and nothing is
    allocated. *)
Definition MeshVariable_new (name : string) (data_size : N) : MeshVariable :=
  {| name_ := name; data_field_ := nullptr |}.

(** Line 169. *)
Definition DataField (v : MeshVariable) : pointer := data_field_ v.

(** [allocateAllMeshVariableData], lines 170-173:
    [data_field_ = new PackageData[size]]. *)
Definition allocateAllMeshVariableData (v : MeshVariable) (size : N) (h : heap)
    : MeshVariable * heap :=
  let (a, h') := new_array size h in
  ({| name_ := name_ v; data_field_ := addr a |}, h').

(** The destructor, line 166: [delete[] data_field_]. *)
Definition MeshVariable_delete (v : MeshVariable) (h : heap) : heap :=
  delete_array (data_field_ v) h.

End Mesh.

(** ** The level set ([level_set.h]) *)

Module LevelSet.

(** The sweep classes instantiated by the members of [class LevelSet],
    lines 106-113 ([FinishDataPackages] is not a sweep of the pipeline). *)
Inductive Sweep : Type :=
| InitializeDataInACell
| UpdateLevelSetGradient
| DiffuseLevelSetSign
| ReinitializeLevelSet
| MarkNearInterface
| RedistanceInterface
| UpdateKernelIntegrals.

(** The scope each member is declared with: [MeshAllDynamics],
    [MeshInnerDynamics] or [MeshCoreDynamics], lines 107-113. *)
Inductive Scope : Type := AllPackages | InnerPackages | CorePackages.

Definition sweep_scope (s : Sweep) : Scope :=
  match s with
  | InitializeDataInACell => AllPackages
  | UpdateLevelSetGradient => InnerPackages
  | UpdateKernelIntegrals => InnerPackages
  | DiffuseLevelSetSign => InnerPackages
  | ReinitializeLevelSet => InnerPackages
  | MarkNearInterface => InnerPackages
  | RedistanceInterface => CorePackages
  end.

(** Modelled from the spec: the numbering of the sweeps in the construction
    pipeline (section 4.3, items 1 to 7); [level_set.h] declares the sweeps
    but the pipeline order is only in the spec. *)
Definition sweep_of_number (n : nat) : option Sweep :=
  match n with
  | 1%nat => Some InitializeDataInACell
  | 2%nat => Some UpdateLevelSetGradient
  | 3%nat => Some DiffuseLevelSetSign
  | 4%nat => Some ReinitializeLevelSet
  | 5%nat => Some MarkNearInterface
  | 6%nat => Some RedistanceInterface
  | 7%nat => Some UpdateKernelIntegrals
  | _ => None
  end.

(** Modelled from the spec: running a composite schedule, given by sweep
    numbers, on the mesh data; [exec s small_shift_factor] is the effect of
    sweep [s], whose body is not in the sources, and the same parameter is
    handed to every sweep.  [None] when a number names no sweep. *)
Definition run_schedule {MeshData : Type} (exec : Sweep → Q → MeshData → MeshData)
    (schedule : list nat) (small_shift_factor : Q) (data : MeshData)
    : option MeshData :=
  foldl (λ acc n, d ← acc; s ← sweep_of_number n;
                  Some (exec s small_shift_factor d))
        (Some data) schedule.

(** Modelled from the spec: the body of [LevelSet::cleanInterface] is not in
    the sources (only its declaration, line 86); the spec gives it as the
    schedule 5, 4, 2, 7. *)
Definition cleanInterface {MeshData : Type} (exec : Sweep → Q → MeshData → MeshData)
    (small_shift_factor : Q) : MeshData → option MeshData :=
  run_schedule exec [5; 4; 2; 7]%nat small_shift_factor.

(** Modelled from the spec: the body of [LevelSet::correctTopology] is not
    in the sources (only its declaration, line 87); the spec gives it as the
    schedule 3, 2, 4, 2, 5, 6, 7. *)
Definition correctTopology {MeshData : Type} (exec : Sweep → Q → MeshData → MeshData)
    (small_shift_factor : Q) : MeshData → option MeshData :=
  run_schedule exec [3; 2; 4; 2; 5; 6; 7]%nat small_shift_factor.

(** The sweep that only logs its name and parameter. *)
Definition log_sweep (s : Sweep) (small_shift_factor : Q)
    (log : list (Sweep * Q)) : list (Sweep * Q) :=
  log ++ [(s, small_shift_factor)].

(** Strict comparison of two [Real]s. *)
Definition Qltb (x y : Q) : bool := negb (Qle_bool y x).

(** Modelled from the spec: the body of [LevelSet::upwindDifference] is not
    in the sources (only its declaration, line 116); this is the three-way
    rule of section 4.3, item 4, read as an if / else-if / else chain. *)
Definition upwindDifference (sign df_p df_n : Q) : Q :=
  if Qltb (sign * df_p) 0 && Qltb (sign * df_n) (- (sign * df_p)) then df_n
  else if Qltb 0 (sign * df_n) && Qltb (- (sign * df_n)) (sign * df_p) then df_p
  else 0.

(** [Vecd] in the 3D build and [BoundingBox]. *)
Record Vecd : Type := mkVecd { vx : Q; vy : Q; vz : Q }.
Record BoundingBox : Type := mkBoundingBox { lower : Vecd; upper : Vecd }.

(** The bounding-box test, axis by axis. *)
Definition within_box (b : BoundingBox) (p : Vecd) : bool :=
  Qle_bool (vx (lower b)) (vx p) && Qle_bool (vx p) (vx (upper b)) &&
  Qle_bool (vy (lower b)) (vy p) && Qle_bool (vy p) (vy (upper b)) &&
  Qle_bool (vz (lower b)) (vz p) && Qle_bool (vz p) (vz (upper b)).

(** A position is outside a box when some coordinate is outside its
    interval. *)
Definition outside_box (b : BoundingBox) (p : Vecd) : Prop :=
  (vx p < vx (lower b) ∨ vx (upper b) < vx p ∨
   vy p < vy (lower b) ∨ vy (upper b) < vy p ∨
   vz p < vz (lower b) ∨ vz (upper b) < vz p)%Q.

(** The input geometry of section 6, as far as the probes use it. *)
Record Shape : Type := mkShape {
  isInside : Vecd → bool;
  boundingBox : BoundingBox
}.

Inductive Sign : Type := Positive | Negative.

(** A probed level-set value: a finite signed distance, or the sentinel of
    infinite magnitude carrying a sign. *)
Inductive SignedDistance : Type :=
| Finite (phi : Q)
| Sentinel (s : Sign).

(** Modelled from the spec: the state of a constructed [LevelSet] that the
    signed-distance probe reads: the shape, the tentative bounds and the
    multilinear interpolation of [phi] inside the bounds (the mesh storage
    and the interpolation are not in the sources). *)
Record LevelSetField : Type := mkLevelSetField {
  shape_ : Shape;
  tentative_bounds : BoundingBox;
  interpolate_phi : Vecd → Q
}.

(** Modelled from the spec: the far-field sign, sampled from the shape's
    inside predicate (section 4.1; negative inside the body). *)
Definition far_sign (sh : Shape) (p : Vecd) : Sign :=
  if isInside sh p then Negative else Positive.

(** Modelled from the spec: [probeIsWithinMeshBound] is the bounding-box
    test of section 4.4 (its body is not in the sources). *)
Definition probeIsWithinMeshBound (ls : LevelSetField) (p : Vecd) : bool :=
  within_box (tentative_bounds ls) p.

(** Modelled from the spec: [probeSignedDistance] interpolates [phi] inside
    the bounds and returns the sentinel with the far sign outside
    (sections 4.1 and 4.4; its body is not in the sources). *)
Definition probeSignedDistance (ls : LevelSetField) (p : Vecd) : SignedDistance :=
  if probeIsWithinMeshBound ls p
  then Finite (interpolate_phi ls p)
  else Sentinel (far_sign (shape_ ls) p).

(** The body lies inside the tentative bounds (they are the geometry bounds
    plus a buffer). *)
Definition shape_within_bounds (ls : LevelSetField) : Prop :=
  ∀ p, isInside (shape_ ls) p = true → within_box (tentative_bounds ls) p = true.

(** The unit sphere in the bounds [[-1.5, 1.5]^3], with a constant
    interpolant standing for the field inside the bounds. *)
Definition unit_sphere_level_set : LevelSetField :=
  mkLevelSetField
    (mkShape (λ p, Qltb (vx p * vx p + vy p * vy p + vz p * vz p) 1)
             (mkBoundingBox (mkVecd (-1) (-1) (-1)) (mkVecd 1 1 1)))
    (mkBoundingBox (mkVecd (-3 # 2) (-3 # 2) (-3 # 2))
                   (mkVecd (3 # 2) (3 # 2) (3 # 2)))
    (λ _, (-1)%Q).

End LevelSet.

(** ** Slender structure dynamics ([slender_structure_dynamics.cpp]) *)

Module SlenderStructure.

(** The two per-particle [Real] arrays of the bar particles that the
    operations below refer to: [particles_->thickness_] and
    [particles_->width_]. *)
Inductive BarParticleArray : Type := particles_thickness_ | particles_width_.

(** The particle container as far as these arrays go. *)
Record BarParticles : Type := mkBarParticles {
  thickness_data : list Q;
  width_data : list Q
}.

(** A [StdLargeVec<Real> &] member names the array it was bound to; reading
    through it reads the container's current array. *)
Definition array_of (particles : BarParticles) (ref : BarParticleArray) : list Q :=
  match ref with
  | particles_thickness_ => thickness_data particles
  | particles_width_ => width_data particles
  end.

Definition read (particles : BarParticles) (ref : BarParticleArray) (index_i : nat)
    : option Q :=
  array_of particles ref !! index_i.

(** The reference members [thickness_] and [width_] of an operation on bar
    particles, with the [CFL_] number where the operation has one. *)
Record BarArrayMembers : Type := mkBarArrayMembers {
  CFL_ : Q;
  thickness_ : BarParticleArray;
  width_ : BarParticleArray
}.

(** The constructor of [BarAcousticTimeStepSize], lines 8-24: line 16 is
    [thickness_(particles_->thickness_)] and line 24 is
    [width_(particles_->thickness_)]. *)
Definition BarAcousticTimeStepSize_new (CFL : Q) : BarArrayMembers :=
  {| CFL_ := CFL;
     thickness_ := particles_thickness_;
     width_ := particles_thickness_ |}.

(** The constructor of [BaseBarRelaxation], lines 58-83: line 61 is
    [thickness_(particles_->thickness_)] and line 74 is
    [width_(particles_->width_)]. *)
Definition BaseBarRelaxation_new : BarArrayMembers :=
  {| CFL_ := 0;
     thickness_ := particles_thickness_;
     width_ := particles_width_ |}.

(** The Eigen matrix and vector operations and the material functions the
    Gaussian-point loop calls; none of them is defined in the sources. *)
Class BarAlgebra (Matd Vecd : Type) : Type := {
  Mat_Identity : Matd;
  Mat_Zero : Matd;
  Vec_Zero : Vecd;
  Mat_add : Matd → Matd → Matd;
  Mat_sub : Matd → Matd → Matd;
  Mat_mul : Matd → Matd → Matd;
  Mat_scale_l : Q → Matd → Matd;
  Mat_scale_r : Matd → Q → Matd;
  Mat_div : Matd → Q → Matd;
  Mat_transpose : Matd → Matd;
  Mat_inverse : Matd → Matd;
  Mat_determinant : Matd → Q;
  Mat_get : Matd → nat → nat → Q;
  Mat_set : nat → nat → Q → Matd → Matd;
  Mat_row_scale : nat → Q → Matd → Matd;
  Mat_col_scale : nat → Q → Matd → Matd;
  Mat_row_zero : nat → Matd → Matd;
  Mat_col_zero : nat → Matd → Matd;
  Mat_col : Matd → nat → Vecd;
  Vec_sub : Vecd → Vecd → Vecd;
  Vec_scale_l : Q → Vecd → Vecd;
  Vec_set : nat → Q → Vecd → Vecd;
  getCorrectedAlmansiStrain : Matd → Q → Matd;
  StressCauchy : Matd → nat → Matd;
  NumericalDampingRightCauchy : Matd → Matd → Matd → nat → Matd
}.

Section gaussian_loop.
Context {Matd Vecd : Type} `{BarAlgebra Matd Vecd}.

(** The members of [BarStressRelaxationFirstHalf] the loop reads, apart
    from [thickness_] and [width_]; the matrix-valued particle arrays are
    only read at [index_i] and are modelled as functions of the index, the
    quadrature tables as functions of the Gaussian point.  A read past the
    end of one of these is therefore no failure of the loop below: [None]
    is a read past the end of [thickness_] or [width_] only. *)
Record BarRelaxationData : Type := mkBarRelaxationData {
  F_ : nat → Matd;
  F_bending_ : nat → Matd;
  F_b_bending_ : nat → Matd;
  dF_dt_ : nat → Matd;
  dF_bending_dt_ : nat → Matd;
  dF_b_bending_dt_ : nat → Matd;
  transformation_matrix0_ : nat → Matd;
  smoothing_length_ : Q;
  nu_ : Q;
  shear_correction_factor_ : Q;
  number_of_gaussian_points_ : nat;
  gaussian_point_x : nat → Q;
  gaussian_point_y : nat → Q;
  gaussian_weight_ : nat → Q
}.

(** What the loop writes: the member [numerical_damping_scaling_matrix_],
    [mid_surface_cauchy_stress_[index_i]] and the five local resultants. *)
Record GaussianLoopState : Type := mkGaussianLoopState {
  numerical_damping_scaling_matrix_ : Matd;
  mid_surface_cauchy_stress_i : Matd;
  resultant_stress : Matd;
  resultant_moment : Matd;
  resultant_shear_stress : Vecd;
  resultant_b_moment : Matd;
  resultant_b_shear_stress : Vecd
}.

(** The C expression [a < b ? a : b]. *)
Definition smaller_of (a b : Q) : Q := if LevelSet.Qltb a b then a else b.

(** One pass of the loop body of [BarStressRelaxationFirstHalf::
    initialization], lines 165-223, for particle [index_i] and Gaussian
    point [i].  [thickness_] and [width_] are the arrays the members refer
    to; a read past the end of an array gives [None]. *)
Definition gaussian_point_body (d : BarRelaxationData)
    (thickness_ width_ : list Q) (current_transformation_matrix : Matd)
    (index_i i : nat) (s : GaussianLoopState) : option GaussianLoopState :=
  (* lines 165-168 *)
  thickness_index_i ← thickness_ !! index_i;
  width_index_i ← width_ !! index_i;
  let F_gaussian_point :=
    Mat_add (Mat_add (F_ d index_i)
      (Mat_scale_r (Mat_scale_r (Mat_scale_l (gaussian_point_y d i)
         (F_bending_ d index_i)) thickness_index_i) (1 # 2)))
      (Mat_scale_r (Mat_scale_r (Mat_scale_l (gaussian_point_x d i)
         (F_b_bending_ d index_i)) width_index_i) (1 # 2)) in
  let dF_gaussian_point_dt :=
    Mat_add (Mat_add (dF_dt_ d index_i)
      (Mat_scale_r (Mat_scale_r (Mat_scale_l (gaussian_point_y d i)
         (dF_bending_dt_ d index_i)) thickness_index_i) (1 # 2)))
      (Mat_scale_r (Mat_scale_r (Mat_scale_l (gaussian_point_x d i)
         (dF_b_bending_dt_ d index_i)) width_index_i) (1 # 2)) in
  (* lines 169-175 *)
  let inverse_F_gaussian_point := Mat_inverse F_gaussian_point in
  let current_local_almansi_strain :=
    Mat_mul (Mat_mul (Mat_mul (Mat_scale_r
      (Mat_mul current_transformation_matrix
         (Mat_transpose (transformation_matrix0_ d index_i))) (1 # 2))
      (Mat_sub Mat_Identity
         (Mat_mul (Mat_transpose inverse_F_gaussian_point)
                  inverse_F_gaussian_point)))
      (transformation_matrix0_ d index_i))
      (Mat_transpose current_transformation_matrix) in
  let current_local_almansi_strain :=
    getCorrectedAlmansiStrain current_local_almansi_strain (nu_ d) in
  (* lines 178-179 *)
  width_i ← width_ !! i;
  thickness_i ← thickness_ !! i;
  let scaling_matrix :=
    Mat_set 1 1 (smaller_of width_i (smoothing_length_ d))
      (numerical_damping_scaling_matrix_ s) in
  let scaling_matrix :=
    Mat_set 2 2 (smaller_of thickness_i (smoothing_length_ d)) scaling_matrix in
  (* lines 180-183 *)
  let cauchy_stress :=
    Mat_add (StressCauchy current_local_almansi_strain index_i)
      (Mat_div
        (Mat_mul (Mat_mul (Mat_mul (Mat_mul (Mat_mul (Mat_mul
           current_transformation_matrix
           (Mat_transpose (transformation_matrix0_ d index_i)))
           F_gaussian_point)
           (NumericalDampingRightCauchy F_gaussian_point dF_gaussian_point_dt
              scaling_matrix index_i))
           (Mat_transpose F_gaussian_point))
           (transformation_matrix0_ d index_i))
           (Mat_transpose current_transformation_matrix))
        (Mat_determinant F_gaussian_point)) in
  (* lines 186-192 *)
  let cauchy_stress := Mat_row_scale 2 (shear_correction_factor_ d) cauchy_stress in
  let cauchy_stress := Mat_col_scale 2 (shear_correction_factor_ d) cauchy_stress in
  let cauchy_stress := Mat_row_scale 1 (shear_correction_factor_ d) cauchy_stress in
  let cauchy_stress := Mat_col_scale 1 (shear_correction_factor_ d) cauchy_stress in
  let cauchy_stress := Mat_set 2 2 0 cauchy_stress in
  let cauchy_stress := Mat_set 1 1 0 cauchy_stress in
  (* lines 193-196 *)
  let mid_surface_cauchy_stress :=
    if Nat.eqb i 0 then cauchy_stress else mid_surface_cauchy_stress_i s in
  (* lines 199-208 *)
  let weight :=
    ((1 # 2) * width_index_i * (1 # 2) * thickness_index_i
       * gaussian_weight_ d i)%Q in
  let stress := Mat_add (resultant_stress s) (Mat_scale_l weight cauchy_stress) in
  let moment :=
    Mat_add (resultant_moment s)
      (Mat_scale_l weight
         (Mat_scale_r (Mat_scale_r (Mat_scale_r cauchy_stress
            (gaussian_point_y d i)) thickness_index_i) (1 # 2))) in
  let b_moment :=
    Mat_add (resultant_b_moment s)
      (Mat_scale_l weight
         (Mat_scale_r (Mat_scale_r (Mat_scale_r cauchy_stress
            (gaussian_point_x d i)) width_index_i) (1 # 2))) in
  let shear_stress :=
    Vec_sub (resultant_shear_stress s)
      (Vec_scale_l weight (Mat_col cauchy_stress 2)) in
  let b_shear_stress :=
    Vec_sub (resultant_b_shear_stress s)
      (Vec_scale_l weight (Mat_col cauchy_stress 1)) in
  (* lines 210-223 *)
  Some {|
    numerical_damping_scaling_matrix_ := scaling_matrix;
    mid_surface_cauchy_stress_i := mid_surface_cauchy_stress;
    resultant_stress :=
      Mat_col_zero 1 (Mat_row_zero 1 (Mat_col_zero 2 (Mat_row_zero 2 stress)));
    resultant_moment := Mat_col_zero 2 (Mat_row_zero 2 moment);
    resultant_shear_stress := Vec_set 1 0 shear_stress;
    resultant_b_moment := Mat_col_zero 1 (Mat_row_zero 1 b_moment);
    resultant_b_shear_stress := Vec_set 2 0 b_shear_stress
  |}.

(** The state at loop entry: the resultants of lines 157-161 are zero; the
    scaling matrix is the member as the constructor left it, line 91, or as
    the previous call left it. *)
Definition loop_entry (scaling_matrix mid_surface_cauchy_stress : Matd)
    : GaussianLoopState :=
  {| numerical_damping_scaling_matrix_ := scaling_matrix;
     mid_surface_cauchy_stress_i := mid_surface_cauchy_stress;
     resultant_stress := Mat_Zero;
     resultant_moment := Mat_Zero;
     resultant_shear_stress := Vec_Zero;
     resultant_b_moment := Mat_Zero;
     resultant_b_shear_stress := Vec_Zero |}.

(** The loop of line 163, [for (int i = 0; i != number_of_gaussian_points_;
    ++i)], for a non-negative number of points. *)
Definition gaussian_loop (d : BarRelaxationData) (thickness_ width_ : list Q)
    (current_transformation_matrix : Matd) (index_i : nat)
    (s : GaussianLoopState) : option GaussianLoopState :=
  foldl (λ acc i, s' ← acc;
           gaussian_point_body d thickness_ width_
             current_transformation_matrix index_i i s')
        (Some s) (seq 0 (number_of_gaussian_points_ d)).

(** Every read of [thickness_] and [width_] in the loop is inside the
    arrays. *)
Definition loop_in_bounds (d : BarRelaxationData) (thickness_ width_ : list Q)
    (index_i : nat) : Prop :=
  (index_i < length thickness_)%nat ∧ (index_i < length width_)%nat ∧
  (number_of_gaussian_points_ d ≤ length thickness_)%nat ∧
  (number_of_gaussian_points_ d ≤ length width_)%nat.

End gaussian_loop.

Section gaussian_point_stress.
Context {Matd Vecd : Type} `{BarAlgebra Matd Vecd}.

(** The [cauchy_stress] of one pass of the loop, lines 165-175 and 180-192,
    for particle [index_i] and Gaussian point [i]: from [thickness_[index_i]]
    and [width_[index_i]] and from [numerical_damping_scaling_matrix_] as
    lines 178-179 of the same pass leave it. *)
Definition gaussian_point_cauchy_stress (d : BarRelaxationData)
    (thickness_index_i width_index_i : Q) (current_transformation_matrix : Matd)
    (index_i i : nat) (scaling_matrix : Matd) : Matd :=
  (* lines 165-168 *)
  let F_gaussian_point :=
    Mat_add (Mat_add (F_ d index_i)
      (Mat_scale_r (Mat_scale_r (Mat_scale_l (gaussian_point_y d i)
         (F_bending_ d index_i)) thickness_index_i) (1 # 2)))
      (Mat_scale_r (Mat_scale_r (Mat_scale_l (gaussian_point_x d i)
         (F_b_bending_ d index_i)) width_index_i) (1 # 2)) in
  let dF_gaussian_point_dt :=
    Mat_add (Mat_add (dF_dt_ d index_i)
      (Mat_scale_r (Mat_scale_r (Mat_scale_l (gaussian_point_y d i)
         (dF_bending_dt_ d index_i)) thickness_index_i) (1 # 2)))
      (Mat_scale_r (Mat_scale_r (Mat_scale_l (gaussian_point_x d i)
         (dF_b_bending_dt_ d index_i)) width_index_i) (1 # 2)) in
  (* lines 169-175 *)
  let inverse_F_gaussian_point := Mat_inverse F_gaussian_point in
  let current_local_almansi_strain :=
    Mat_mul (Mat_mul (Mat_mul (Mat_scale_r
      (Mat_mul current_transformation_matrix
         (Mat_transpose (transformation_matrix0_ d index_i))) (1 # 2))
      (Mat_sub Mat_Identity
         (Mat_mul (Mat_transpose inverse_F_gaussian_point)
                  inverse_F_gaussian_point)))
      (transformation_matrix0_ d index_i))
      (Mat_transpose current_transformation_matrix) in
  let current_local_almansi_strain :=
    getCorrectedAlmansiStrain current_local_almansi_strain (nu_ d) in
  (* lines 180-183 *)
  let cauchy_stress :=
    Mat_add (StressCauchy current_local_almansi_strain index_i)
      (Mat_div
        (Mat_mul (Mat_mul (Mat_mul (Mat_mul (Mat_mul (Mat_mul
           current_transformation_matrix
           (Mat_transpose (transformation_matrix0_ d index_i)))
           F_gaussian_point)
           (NumericalDampingRightCauchy F_gaussian_point dF_gaussian_point_dt
              scaling_matrix index_i))
           (Mat_transpose F_gaussian_point))
           (transformation_matrix0_ d index_i))
           (Mat_transpose current_transformation_matrix))
        (Mat_determinant F_gaussian_point)) in
  (* lines 186-192 *)
  let cauchy_stress := Mat_row_scale 2 (shear_correction_factor_ d) cauchy_stress in
  let cauchy_stress := Mat_col_scale 2 (shear_correction_factor_ d) cauchy_stress in
  let cauchy_stress := Mat_row_scale 1 (shear_correction_factor_ d) cauchy_stress in
  let cauchy_stress := Mat_col_scale 1 (shear_correction_factor_ d) cauchy_stress in
  let cauchy_stress := Mat_set 2 2 0 cauchy_stress in
  Mat_set 1 1 0 cauchy_stress.

End gaussian_point_stress.

(** *** A concrete algebra for the examples: 3 x 3 rational matrices in
    row-major order, with a sample linear material. *)

Definition tabulate3x3 (f : nat → nat → Q) : list Q :=
  [f 0 0; f 0 1; f 0 2; f 1 0; f 1 1; f 1 2; f 2 0; f 2 1; f 2 2]%nat.

Definition tabulate3 (f : nat → Q) : list Q := [f 0; f 1; f 2]%nat.

Definition entry (A : list Q) (r c : nat) : Q := nth (3 * r + c) A 0%Q.

Definition adjugate (A : list Q) (r c : nat) : Q :=
  (entry A ((c + 1) mod 3) ((r + 1) mod 3) * entry A ((c + 2) mod 3) ((r + 2) mod 3)
   - entry A ((c + 1) mod 3) ((r + 2) mod 3) * entry A ((c + 2) mod 3) ((r + 1) mod 3))%Q.

Definition determinant3x3 (A : list Q) : Q :=
  (entry A 0 0 * adjugate A 0 0 + entry A 0 1 * adjugate A 1 0
   + entry A 0 2 * adjugate A 2 0)%Q.

Definition product3x3 (A B : list Q) : list Q :=
  tabulate3x3 (λ r c, entry A r 0 * entry B 0 c + entry A r 1 * entry B 1 c
                      + entry A r 2 * entry B 2 c)%Q.

Definition transpose3x3 (A : list Q) : list Q := tabulate3x3 (λ r c, entry A c r).

#[export] Instance sample_algebra : BarAlgebra (list Q) (list Q) := {|
  Mat_Identity := tabulate3x3 (λ r c, if Nat.eqb r c then 1 else 0)%Q;
  Mat_Zero := tabulate3x3 (λ _ _, 0%Q);
  Vec_Zero := tabulate3 (λ _, 0%Q);
  Mat_add A B := tabulate3x3 (λ r c, entry A r c + entry B r c)%Q;
  Mat_sub A B := tabulate3x3 (λ r c, entry A r c - entry B r c)%Q;
  Mat_mul := product3x3;
  Mat_scale_l q A := tabulate3x3 (λ r c, q * entry A r c)%Q;
  Mat_scale_r A q := tabulate3x3 (λ r c, entry A r c * q)%Q;
  Mat_div A q := tabulate3x3 (λ r c, entry A r c / q)%Q;
  Mat_transpose := transpose3x3;
  Mat_inverse A := tabulate3x3 (λ r c, adjugate A r c / determinant3x3 A)%Q;
  Mat_determinant := determinant3x3;
  Mat_get := entry;
  Mat_set r c v A :=
    tabulate3x3 (λ r' c', if Nat.eqb r r' && Nat.eqb c c' then v else entry A r' c');
  Mat_row_scale r q A :=
    tabulate3x3 (λ r' c', if Nat.eqb r r' then entry A r' c' * q else entry A r' c')%Q;
  Mat_col_scale c q A :=
    tabulate3x3 (λ r' c', if Nat.eqb c c' then entry A r' c' * q else entry A r' c')%Q;
  Mat_row_zero r A :=
    tabulate3x3 (λ r' c', if Nat.eqb r r' then 0 else entry A r' c')%Q;
  Mat_col_zero c A :=
    tabulate3x3 (λ r' c', if Nat.eqb c c' then 0 else entry A r' c')%Q;
  Mat_col A c := tabulate3 (λ r, entry A r c);
  Vec_sub u v := tabulate3 (λ r, nth r u 0 - nth r v 0)%Q;
  Vec_scale_l q v := tabulate3 (λ r, q * nth r v 0)%Q;
  Vec_set r q v := tabulate3 (λ r', if Nat.eqb r r' then q else nth r' v 0%Q);
  getCorrectedAlmansiStrain strain _ := strain;
  StressCauchy strain _ := tabulate3x3 (λ r c, 2 * entry strain r c)%Q;
  NumericalDampingRightCauchy F dF_dt scaling _ :=
    product3x3
      (tabulate3x3 (λ r c,
         (1 # 2) * (entry (product3x3 (transpose3x3 dF_dt) F) r c
                    + entry (product3x3 (transpose3x3 F) dF_dt) r c))%Q)
      scaling
|}.

(** An undeformed bar at rest, with the four-point quadrature weights all
    one. *)
Definition sample_bar (smoothing_length : Q) (number_of_gaussian_points : nat)
    : BarRelaxationData :=
  {| F_ := λ _, Mat_Identity;
     F_bending_ := λ _, Mat_Zero;
     F_b_bending_ := λ _, Mat_Zero;
     dF_dt_ := λ _, Mat_Zero;
     dF_bending_dt_ := λ _, Mat_Zero;
     dF_b_bending_dt_ := λ _, Mat_Zero;
     transformation_matrix0_ := λ _, Mat_Identity;
     smoothing_length_ := smoothing_length;
     nu_ := (3 # 10)%Q;
     shear_correction_factor_ := (4 # 5)%Q;
     number_of_gaussian_points_ := number_of_gaussian_points;
     gaussian_point_x := λ _, (1 # 2)%Q;
     gaussian_point_y := λ _, (1 # 2)%Q;
     gaussian_weight_ := λ _, 1%Q |}.

(** *** Constraints on bar body regions *)

(** [array[index] = value] on a particle array; a write past the end of the
    array gives [None]. *)
Definition write {A : Type} (array : list A) (index : nat) (value : A)
    : option (list A) :=
  if decide (index < length array)%nat
  then Some (<[index:=value]> array) else None.

(** [Vecd::Zero()] in the 3D build. *)
Definition Vecd_Zero : LevelSet.Vecd := LevelSet.mkVecd 0 0 0.

(** The velocity arrays of the bar particles the constraints write. *)
Record BarVelocities : Type := mkBarVelocities {
  vel_ : list LevelSet.Vecd;
  angular_vel_ : list LevelSet.Vecd;
  angular_b_vel_ : list LevelSet.Vecd
}.

(** [ConstrainBarBodyRegion::update], lines 286-291. *)
Definition ConstrainBarBodyRegion_update (index_i : nat) (dt : Q)
    (particles : BarVelocities) : option BarVelocities :=
  vel ← write (vel_ particles) index_i Vecd_Zero;
  angular_vel ← write (angular_vel_ particles) index_i Vecd_Zero;
  angular_b_vel ← write (angular_b_vel_ particles) index_i Vecd_Zero;
  Some (mkBarVelocities vel angular_vel angular_b_vel).

(** [ConstrainBarBodyRegionAlongAxis::update], lines 303-306, of an object
    constructed with [axis_(axis)], line 295. *)
Definition ConstrainBarBodyRegionAlongAxis_update (axis_ : Z) (index_i : nat)
    (dt : Q) (particles : BarVelocities) : option BarVelocities :=
  vel ← write (vel_ particles) index_i Vecd_Zero;
  Some (mkBarVelocities vel (angular_vel_ particles) (angular_b_vel_ particles)).

(** The particle [index] has an entry in each of the three arrays. *)
Definition velocities_in_bounds (index : nat) (particles : BarVelocities) : Prop :=
  (index < length (vel_ particles))%nat ∧
  (index < length (angular_vel_ particles))%nat ∧
  (index < length (angular_b_vel_ particles))%nat.

(** *** Point forces distributed to the bar *)


(** The sum of a row of weights. *)
Definition Qsum (row : list Q) : Q := foldr Qplus 0%Q row.

Definition Vecd_add (u v : LevelSet.Vecd) : LevelSet.Vecd :=
  LevelSet.mkVecd (LevelSet.vx u + LevelSet.vx v) (LevelSet.vy u + LevelSet.vy v)
                  (LevelSet.vz u + LevelSet.vz v).

Definition Vecd_sub (u v : LevelSet.Vecd) : LevelSet.Vecd :=
  LevelSet.mkVecd (LevelSet.vx u - LevelSet.vx v) (LevelSet.vy u - LevelSet.vy v)
                  (LevelSet.vz u - LevelSet.vz v).

(** [q * v] and [v / q].  The division is that of the rationals, where
    [x / 0] is [0]; the properties proved of a quotient are stated for a
    divisor that is not zero. *)
Definition Vecd_scale (q : Q) (v : LevelSet.Vecd) : LevelSet.Vecd :=
  LevelSet.mkVecd (q * LevelSet.vx v) (q * LevelSet.vy v) (q * LevelSet.vz v).


Definition squaredNorm (v : LevelSet.Vecd) : Q :=
  (LevelSet.vx v * LevelSet.vx v + LevelSet.vy v * LevelSet.vy v
   + LevelSet.vz v * LevelSet.vz v)%Q.

(** Equality of vectors up to the representation of their rational
    components. *)
Definition Vecd_equiv (u v : LevelSet.Vecd) : Prop :=
  LevelSet.vx u == LevelSet.vx v ∧ LevelSet.vy u == LevelSet.vy v ∧
  LevelSet.vz u == LevelSet.vz v.



(** The weight [getWeight] gives a particle at [position] for the point
    force at [reference_position], lines 344-348.
    [kernel_W h_ratio displacement] stands for
    [kernel_->W(h_ratio, displacement.norm(), displacement)]. *)
Definition weight_of_particle (kernel_W : Q → LevelSet.Vecd → Q)
    (h_ratio cutoff_radius_sqr : Q) (reference_position position : LevelSet.Vecd)
    : Q :=
  let displacement := Vecd_sub reference_position position in
  if Qle_bool (squaredNorm displacement) cutoff_radius_sqr
  then kernel_W h_ratio displacement
  else 0%Q.

(** One pass of the inner loop of [getWeight], lines 342-349, for the point
    force [i] and the particle [index], on the members [weight_] and
    [sum_of_weight_]: [weight_[i][index] = 0.0], then the displacement from
    [reference_positions_[i]] and [pos0_[index]], then, within the cut-off,
    the kernel value written to [weight_[i][index]] and added to
    [sum_of_weight_[i]].  [None] is an access past the end of an array. *)
Definition getWeight_particle (kernel_W : Q → LevelSet.Vecd → Q)
    (h_ratio cutoff_radius_sqr : Q)
    (reference_positions_ pos0_ : list LevelSet.Vecd) (i : nat)
    (members : list (list Q) * list Q) (index : nat)
    : option (list (list Q) * list Q) :=
  weight_i ← members.1 !! i;
  weight_i ← write weight_i index 0%Q;
  reference_position ← reference_positions_ !! i;
  position ← pos0_ !! index;
  let displacement := Vecd_sub reference_position position in
  if Qle_bool (squaredNorm displacement) cutoff_radius_sqr
  then let weight := kernel_W h_ratio displacement in
       weight_i ← write weight_i index weight;
       sum ← members.2 !! i;
       sum_of_weight_ ← write members.2 i (sum + weight)%Q;
       Some (<[i:=weight_i]> members.1, sum_of_weight_)
  else Some (<[i:=weight_i]> members.1, members.2).

(** The body of the outer loop of [getWeight], lines 339-350, for the point
    force [i]: [sum_of_weight_[i] = 0.0], then the inner loop over the
    particles below [total_real_particles_]. *)
Definition getWeight_row (kernel_W : Q → LevelSet.Vecd → Q)
    (h_ratio cutoff_radius_sqr : Q)
    (reference_positions_ pos0_ : list LevelSet.Vecd) (total_real_particles_ : nat)
    (members : list (list Q) * list Q) (i : nat)
    : option (list (list Q) * list Q) :=
  sum_of_weight_ ← write members.2 i 0%Q;
  foldl (λ acc index,
           members ← acc;
           getWeight_particle kernel_W h_ratio cutoff_radius_sqr
             reference_positions_ pos0_ i members index)
        (Some (members.1, sum_of_weight_)) (seq 0 total_real_particles_).

(** [DistributingPointForcesToBar::getWeight], lines 331-352, on the
    members [weight_] and [sum_of_weight_]: one pass of the outer loop for
    every index of [point_forces_]. *)
Definition getWeight (kernel_W : Q → LevelSet.Vecd → Q)
    (reference_smoothing_length h_spacing_ratio_ particle_spacing_ref_ : Q)
    (point_forces_ reference_positions_ pos0_ : list LevelSet.Vecd)
    (total_real_particles_ : nat) (members : list (list Q) * list Q)
    : option (list (list Q) * list Q) :=
  let smoothing_length := (h_spacing_ratio_ * particle_spacing_ref_)%Q in
  let h_ratio := (reference_smoothing_length / smoothing_length)%Q in
  let cutoff_radius_sqr := ((2 * smoothing_length) ^ 2)%Q in
  foldl (λ acc i,
           members ← acc;
           getWeight_row kernel_W h_ratio cutoff_radius_sqr
             reference_positions_ pos0_ total_real_particles_ members i)
        (Some members) (seq 0 (length point_forces_)).

(** The arrays [getWeight] works on have room for it: an entry of
    [weight_], [sum_of_weight_] and [reference_positions_] for every point
    force, a position for every real particle, and room for every real
    particle in each row of [weight_]. *)
Definition weights_allocated (number_of_point_forces total_real_particles_ : nat)
    (reference_positions_ pos0_ : list LevelSet.Vecd)
    (members : list (list Q) * list Q) : Prop :=
  (number_of_point_forces ≤ length members.1)%nat ∧
  (number_of_point_forces ≤ length members.2)%nat ∧
  (number_of_point_forces ≤ length reference_positions_)%nat ∧
  (total_real_particles_ ≤ length pos0_)%nat ∧
  ∀ i weight_i, (i < number_of_point_forces)%nat →
    members.1 !! i = Some weight_i →
    (total_real_particles_ ≤ length weight_i)%nat.

(** One pass of the loop of [update], lines 370-371, for the point force
    [i]: the force from the stored weight and sum, added to
    [force_prior_[index_i]].  Over the rationals [sum + TinyReal] is above
    [sum]; in [double] it may round to [sum]. *)
Definition update_point_force (TinyReal : Q) (members : list (list Q) * list Q)
    (time_dependent_point_forces_ : list LevelSet.Vecd) (index_i : nat)
    (force_prior_ : list LevelSet.Vecd) (i : nat) : option (list LevelSet.Vecd) :=
  weight_i ← members.1 !! i;
  weight ← weight_i !! index_i;
  sum ← members.2 !! i;
  point_force ← time_dependent_point_forces_ !! i;
  let force := Vecd_scale (weight / (sum + TinyReal))%Q point_force in
  current ← force_prior_ !! index_i;
  write force_prior_ index_i (Vecd_add current force).

(** [DistributingPointForcesToBar::update], lines 365-373, on the array
    [force_prior_]; [TinyReal] is the constant of the base data types and
    [number_of_point_forces] is [point_forces_.size()]. *)
Definition DistributingPointForcesToBar_update (TinyReal : Q)
    (members : list (list Q) * list Q)
    (time_dependent_point_forces_ : list LevelSet.Vecd)
    (number_of_point_forces index_i : nat) (force_prior_ : list LevelSet.Vecd)
    : option (list LevelSet.Vecd) :=
  force_prior_ ← write force_prior_ index_i Vecd_Zero;
  foldl (λ acc i,
           force_prior_ ← acc;
           update_point_force TinyReal members time_dependent_point_forces_
             index_i force_prior_ i)
        (Some force_prior_) (seq 0 number_of_point_forces).

(** [c_0 * F_0 + c_1 * F_1 + ...], accumulated from [Vecd::Zero()] in the
    order of the list, as the loop of [update] accumulates
    [force_prior_[index_i]]. *)
Definition weighted_sum (terms : list (Q * LevelSet.Vecd)) : LevelSet.Vecd :=
  foldl (λ acc term, Vecd_add acc (Vecd_scale term.1 term.2)) Vecd_Zero terms.

(** *** Members bound by the constructors of the deformation operations *)

(** The normal and binormal arrays of the bar particles. *)
Inductive BarParticleVecdArray : Type :=
| particles_n0_
| particles_b_n0_
| particles_pseudo_n_
| particles_pseudo_b_n_.

Record BarDirections : Type := mkBarDirections {
  n0_data : list LevelSet.Vecd;
  b_n0_data : list LevelSet.Vecd;
  pseudo_n_data : list LevelSet.Vecd;
  pseudo_b_n_data : list LevelSet.Vecd
}.

Definition directions_of (particles : BarDirections) (ref : BarParticleVecdArray)
    : list LevelSet.Vecd :=
  match ref with
  | particles_n0_ => n0_data particles
  | particles_b_n0_ => b_n0_data particles
  | particles_pseudo_n_ => pseudo_n_data particles
  | particles_pseudo_b_n_ => pseudo_b_n_data particles
  end.

(** The reference members [n0_], [pseudo_n_], [b_n0_] and [pseudo_b_n_]. *)
Record BarDirectionMembers : Type := mkBarDirectionMembers {
  n0_ : BarParticleVecdArray;
  pseudo_n_ : BarParticleVecdArray;
  b_n0_ : BarParticleVecdArray;
  pseudo_b_n_ : BarParticleVecdArray
}.

(** The constructor of [BarDeformationGradientTensor], lines 49-56: line 53
    binds [pseudo_n_(particles_->pseudo_n_)] and [n0_(particles_->n0_)],
    line 56 binds [pseudo_b_n_(particles_->pseudo_n_)] and
    [b_n0_(particles_->n0_)]. *)
Definition BarDeformationGradientTensor_new : BarDirectionMembers :=
  {| n0_ := particles_n0_; pseudo_n_ := particles_pseudo_n_;
     b_n0_ := particles_n0_; pseudo_b_n_ := particles_pseudo_n_ |}.

(** The same members in the constructor of [BaseBarRelaxation], lines 68
    and 75. *)
Definition BaseBarRelaxation_directions : BarDirectionMembers :=
  {| n0_ := particles_n0_; pseudo_n_ := particles_pseudo_n_;
     b_n0_ := particles_b_n0_; pseudo_b_n_ := particles_pseudo_b_n_ |}.

(** *** The quadrature rule chosen by [BarStressRelaxationFirstHalf] *)

(** The three tables of a quadrature rule: the arrays
    [..._gaussian_points_2d_vector_x], [..._vector_y] and
    [..._gaussian_weights_2d_]. *)
Record QuadratureRule : Type := mkQuadratureRule {
  points_x : list Q;
  points_y : list Q;
  weights : list Q
}.

(** A rule with [n] points. *)
Definition rule_of_size (n : nat) (rule : QuadratureRule) : Prop :=
  length (points_x rule) = n ∧ length (points_y rule) = n ∧
  length (weights rule) = n.

(** The [switch] of the constructor, lines 112-124: the nine-point tables
    for [9], the four-point tables for every other value; the member
    [number_of_gaussian_points_] keeps the value given, line 104. *)
Definition BarStressRelaxationFirstHalf_quadrature (number_of_gaussian_points : Z)
    (four_points nine_points : QuadratureRule) : Z * QuadratureRule :=
  (number_of_gaussian_points,
   if (number_of_gaussian_points =? 9)%Z then nine_points else four_points).

(** For a non-negative [number_of_gaussian_points_] the loop of line 163
    reads the three tables at every index below it. *)
Definition quadrature_reads_in_bounds (selected : Z * QuadratureRule) : Prop :=
  ∀ i : Z, (0 ≤ i < selected.1)%Z →
    is_Some (points_x selected.2 !! Z.to_nat i) ∧
    is_Some (points_y selected.2 !! Z.to_nat i) ∧
    is_Some (weights selected.2 !! Z.to_nat i).

End SlenderStructure.

(** ** Slender structure dynamics: the second half of the time step *)

Module BarTimeIntegration.
Import SlenderStructure.






Section second_half.
Context {Matd : Type}.

(** [rotated_direction transformation_matrix0 local rotation] stands for
    [transformation_matrix0.transpose() *
     getVectorAfterThinStructureRotation(local, rotation)]; neither the
    matrix product nor the rotation is defined in the sources. *)
Context (rotated_direction : Matd → LevelSet.Vecd → LevelSet.Vecd → LevelSet.Vecd).


End second_half.

End BarTimeIntegration.

(* ===================================================================== *)
(** * Part II: properties                                                 *)
(* ===================================================================== *)

(** ** Mesh iterators *)

Section mesh_iterators_facts.
Import MeshIterators.
Local Open Scope Z_scope.

Lemma foldl_bind {A B C} (h : A → C → A) (k : B → list C) (l : list B) (a : A) :
  foldl h a (l ≫= k) = foldl (λ s x, foldl h s (k x)) a l.
Proof.
  revert a. induction l as [|x l IH]; intros a; [done|].
  rewrite bind_cons, foldl_app. simpl. apply IH.
Qed.

Lemma for_loop_unroll {St} (fuel : nat) cond step i (l : list Z)
    (body : Z → St → option St) (g : Z → St → St) (st : St) :
  counter_values cond step i l →
  (length l < fuel)%nat →
  (∀ x s, x ∈ l → body x s = Some (g x s)) →
  for_loop fuel cond step i body st = Some (foldl (λ s x, g x s) st l).
Proof.
  revert fuel i st. induction l as [|x l IH]; intros fuel i st Hl Hfuel Hbody.
  - destruct fuel as [|fuel]; [simpl in Hfuel; lia|].
    simpl in *. by rewrite Hl.
  - destruct fuel as [|fuel]; [simpl in Hfuel; lia|].
    destruct Hl as (-> & Hc & Hl). simpl. rewrite Hc.
    rewrite Hbody by left. simpl.
    apply IH; [done|simpl in Hfuel; lia|].
    intros y s Hy. apply Hbody. by right.
Qed.

Lemma for_loop_cells {St} (fuel : nat) cond step i (l : list Z)
    (body : Z → St → option St) (cells : Z → list Array3i)
    (f : Array3i → St → St) (st : St) :
  counter_values cond step i l →
  (length l < fuel)%nat →
  (∀ x s, x ∈ l → body x s = Some (apply_in_order f (cells x) s)) →
  for_loop fuel cond step i body st = Some (apply_in_order f (l ≫= cells) st).
Proof.
  intros Hl Hfuel Hbody. unfold apply_in_order at 1. rewrite foldl_bind.
  by apply for_loop_unroll.
Qed.

Lemma counter_values_ne lo hi :
  lo ≤ hi →
  counter_values (λ i, negb (i =? hi)) Z.succ lo (seqZ lo (hi - lo)).
Proof.
  intros Hle. remember (Z.to_nat (hi - lo)) as n eqn:Hn.
  revert lo Hle Hn. induction n as [|n IH]; intros lo Hle Hn.
  - assert (lo = hi) as -> by lia. rewrite Z.sub_diag. simpl.
    by rewrite Z.eqb_refl.
  - rewrite seqZ_cons by lia. simpl. split; [done|]. split.
    + apply negb_true_iff, Z.eqb_neq. lia.
    + replace (Z.pred (hi - lo)) with (hi - Z.succ lo) by lia.
      apply IH; lia.
Qed.

Lemma counter_values_lt lo hi :
  counter_values (λ i, i <? hi) Z.succ lo (seqZ lo (hi - lo)).
Proof.
  remember (Z.to_nat (hi - lo)) as n eqn:Hn.
  revert lo Hn. induction n as [|n IH]; intros lo Hn.
  - rewrite seqZ_nil by lia. simpl. apply Z.ltb_ge. lia.
  - rewrite seqZ_cons by lia. simpl. split; [done|]. split.
    + apply Z.ltb_lt. lia.
    + replace (Z.pred (hi - lo)) with (hi - Z.succ lo) by lia.
      apply IH; lia.
Qed.

Lemma counter_values_down s :
  counter_values (λ m, 0 <? m) Z.pred s (reverse (seqZ 1 s)).
Proof.
  remember (Z.to_nat s) as n eqn:Hn.
  revert s Hn. induction n as [|n IH]; intros s Hn.
  - rewrite seqZ_nil by lia. simpl. apply Z.ltb_ge. lia.
  - replace s with (Z.of_nat (S n)) at 2 by lia.
    rewrite seqZ_S, reverse_snoc. simpl. split; [lia|]. split.
    + apply Z.ltb_lt. lia.
    + replace (Z.of_nat n) with (Z.pred s) by lia. apply IH. lia.
Qed.

Lemma strided_unfold a hi s :
  0 < s →
  strided a hi s = if a <? hi then a :: strided (a + s) hi s else [].
Proof.
  intros Hs. unfold strided. destruct (Z.ltb_spec a hi) as [Hlt|Hge].
  - replace (hi - a + s - 1) with ((hi - (a + s) + s - 1) + 1 * s) by lia.
    rewrite Z.div_add by lia.
    set (n := (hi - (a + s) + s - 1) `div` s).
    assert (0 ≤ n) by (apply Z.div_pos; lia).
    rewrite seqZ_cons by lia. rewrite fmap_cons. f_equal; [lia|].
    replace (Z.pred (n + 1)) with n by lia.
    replace (Z.succ 0) with (1 + 0) by lia.
    rewrite <- fmap_add_seqZ, <- list_fmap_compose.
    apply list_fmap_ext. intros _ t _. simpl. lia.
  - rewrite seqZ_nil; [done|].
    assert ((hi - a + s - 1) `div` s < 1); [|lia].
    apply Z.div_lt_upper_bound; lia.
Qed.

Lemma counter_values_stride a hi s :
  0 < s →
  counter_values (λ i, i <? hi) (λ i, i + s) a (strided a hi s).
Proof.
  intros Hs. remember (Z.to_nat (hi - a)) as n eqn:Hn.
  revert a Hn. induction n as [n IH] using lt_wf_ind; intros a Hn.
  rewrite strided_unfold by done. destruct (Z.ltb_spec a hi) as [Hlt|Hge].
  - simpl. split; [done|]. split; [by apply Z.ltb_lt|].
    apply (IH (Z.to_nat (hi - (a + s)))); lia.
  - simpl. apply Z.ltb_ge. lia.
Qed.

Lemma strided_length a hi s :
  0 < s → Z.of_nat (length (strided a hi s)) ≤ Z.max 0 (hi - a).
Proof.
  intros Hs. unfold strided. rewrite length_fmap, length_seqZ.
  destruct (Z.le_gt_cases hi a).
  - assert ((hi - a + s - 1) `div` s < 1) by (apply Z.div_lt_upper_bound; lia).
    lia.
  - assert ((hi - a + s - 1) `div` s < hi - a + 1); [|lia].
    apply Z.div_lt_upper_bound; nia.
Qed.

Lemma strided_elem a hi s x :
  0 < s → x ∈ strided a hi s ↔ a ≤ x < hi ∧ (x - a) `mod` s = 0.
Proof.
  intros Hs. unfold strided. rewrite list_elem_of_fmap. split.
  - intros (t & -> & Ht). apply elem_of_seqZ in Ht.
    assert (t * s + s ≤ hi - a + s - 1).
    { assert (t + 1 ≤ (hi - a + s - 1) `div` s) as Hd by lia.
      apply (Z.mul_le_mono_nonneg_r _ _ s) in Hd; [|lia].
      pose proof (Z.mul_div_le (hi - a + s - 1) s Hs). lia. }
    split; [nia|].
    replace (a + t * s - a) with (t * s) by lia. by apply Z.mod_mul; lia.
  - intros ([Hlo Hhi] & Hmod). exists ((x - a) `div` s). split.
    + pose proof (Z.div_mod (x - a) s). lia.
    + apply elem_of_seqZ. split; [apply Z.div_pos; lia|].
      rewrite Z.add_0_l. apply Z.div_lt_upper_bound; [lia|].
      pose proof (Z.div_mod (x - a) s).
      pose proof (Z.mul_div_le (hi - a + s - 1) s Hs).
      pose proof (Z.mod_pos_bound (hi - a + s - 1) s Hs).
      pose proof (Z.div_mod (hi - a + s - 1) s). lia.
Qed.

Lemma list_bind_assoc {A B C} (f : A → list B) (g : B → list C) (l : list A) :
  (l ≫= f) ≫= g = l ≫= (λ x, f x ≫= g).
Proof.
  induction l as [|x l IH]; [done|].
  by rewrite !bind_cons, bind_app, IH.
Qed.

Lemma reverse_bind {A B} (f : A → list B) (l : list A) :
  reverse (l ≫= f) = reverse l ≫= (λ x, reverse (f x)).
Proof.
  induction l as [|x l IH]; [done|].
  by rewrite bind_cons, reverse_app, reverse_cons, bind_app, bind_singleton, IH.
Qed.

Lemma mesh_for_run {St} fuel r stride (f : Array3i → St → St) st :
  range_ordered r → enough_fuel fuel r stride →
  mesh_for fuel r f st = Some (apply_in_order f (range_cells r) st).
Proof.
  intros (H0 & H1 & H2) (F0 & F1 & F2 & _). unfold mesh_for, range_cells.
  apply for_loop_cells;
    [by apply counter_values_ne|rewrite length_seqZ; lia|intros i s0 _].
  apply for_loop_cells;
    [by apply counter_values_ne|rewrite length_seqZ; lia|intros j s1 _].
  apply for_loop_cells;
    [by apply counter_values_ne|rewrite length_seqZ; lia|intros k s2 _].
  done.
Qed.

Lemma offsets_bind {B} stride (g : Array3i → list B) :
  offsets stride ≫= g =
  m ← seqZ 0 (idx0 stride); n ← seqZ 0 (idx1 stride);
  p ← seqZ 0 (idx2 stride); g (mkArray3i m n p).
Proof.
  unfold offsets. rewrite list_bind_assoc. apply list_bind_ext; [|done].
  intros m. rewrite list_bind_assoc. apply list_bind_ext; [|done].
  intros n. rewrite list_bind_assoc. apply list_bind_ext; [|done].
  intros p. by rewrite bind_singleton.
Qed.

Lemma offset_cells_run {St} fuel r stride (f : Array3i → St → St) a b c st :
  stride_positive stride → enough_fuel fuel r stride →
  0 ≤ a → 0 ≤ b → 0 ≤ c →
  for_loop fuel (λ i, i <? idx0 (second r)) (λ i, i + idx0 stride)
    (idx0 (first r) + a) (λ i,
  for_loop fuel (λ j, j <? idx1 (second r)) (λ j, j + idx1 stride)
    (idx1 (first r) + b) (λ j,
  for_loop fuel (λ k, k <? idx2 (second r)) (λ k, k + idx2 stride)
    (idx2 (first r) + c) (λ k st,
  Some (f (mkArray3i i j k) st)))) st =
  Some (apply_in_order f (offset_cells r stride (mkArray3i a b c)) st).
Proof.
  intros (S0 & S1 & S2) (F0 & F1 & F2 & G0 & G1 & G2) Ha Hb Hc.
  unfold offset_cells. simpl.
  pose proof (strided_length (idx0 (first r) + a) (idx0 (second r)) _ S0).
  pose proof (strided_length (idx1 (first r) + b) (idx1 (second r)) _ S1).
  pose proof (strided_length (idx2 (first r) + c) (idx2 (second r)) _ S2).
  apply for_loop_cells; [by apply counter_values_stride|lia|intros i s0 _].
  apply for_loop_cells; [by apply counter_values_stride|lia|intros j s1 _].
  apply for_loop_cells; [by apply counter_values_stride|lia|intros k s2 _].
  done.
Qed.

Lemma forward_run {St} fuel r stride (f : Array3i → St → St) st :
  stride_positive stride → enough_fuel fuel r stride →
  mesh_stride_forward_for fuel r stride f st =
  Some (apply_in_order f (offsets stride ≫= offset_cells r stride) st).
Proof.
  intros Hs Hf. rewrite offsets_bind. unfold mesh_stride_forward_for.
  pose proof Hf as (F0 & F1 & F2 & G0 & G1 & G2).
  pose proof Hs as (S0 & S1 & S2).
  pose proof (counter_values_lt 0 (idx0 stride)) as C0.
  pose proof (counter_values_lt 0 (idx1 stride)) as C1.
  pose proof (counter_values_lt 0 (idx2 stride)) as C2.
  rewrite Z.sub_0_r in C0, C1, C2.
  apply for_loop_cells; [done|rewrite length_seqZ; lia|intros m s0 Hm].
  apply for_loop_cells; [done|rewrite length_seqZ; lia|intros n s1 Hn].
  apply for_loop_cells; [done|rewrite length_seqZ; lia|intros p s2 Hp].
  apply elem_of_seqZ in Hm, Hn, Hp.
  apply offset_cells_run; [done|done|lia..].
Qed.

Lemma reverse_offsets stride :
  reverse (offsets stride) =
  m ← reverse (seqZ 0 (idx0 stride)); n ← reverse (seqZ 0 (idx1 stride));
  p ← reverse (seqZ 0 (idx2 stride)); [mkArray3i m n p].
Proof.
  unfold offsets. rewrite reverse_bind. apply list_bind_ext; [|done].
  intros m. rewrite reverse_bind. apply list_bind_ext; [|done].
  intros n. rewrite reverse_bind. by apply list_bind_ext.
Qed.

Lemma backward_run {St} fuel r stride (f : Array3i → St → St) st :
  stride_positive stride → enough_fuel fuel r stride →
  mesh_stride_backward_for fuel r stride f st =
  Some (apply_in_order f (reverse (offsets stride) ≫= offset_cells r stride) st).
Proof.
  intros Hs Hf.
  assert (reverse (offsets stride) ≫= offset_cells r stride =
    m ← reverse (seqZ 1 (idx0 stride)); n ← reverse (seqZ 1 (idx1 stride));
    p ← reverse (seqZ 1 (idx2 stride));
    offset_cells r stride (mkArray3i (m - 1) (n - 1) (p - 1))) as ->.
  { assert (∀ s, reverse (seqZ 0 s) = Z.pred <$> reverse (seqZ 1 s)) as Hrev.
    { intros s. rewrite fmap_reverse. f_equal.
      replace 1 with (1 + 0) by lia.
      rewrite <- fmap_add_seqZ, <- list_fmap_compose.
      rewrite <- (list_fmap_id (seqZ 0 s)) at 1.
      apply list_fmap_ext. intros _ t _. simpl. lia. }
    rewrite reverse_offsets, list_bind_assoc, (Hrev (idx0 stride)), list_fmap_bind.
    apply list_bind_ext; [|done]. intros m. simpl.
    rewrite list_bind_assoc, (Hrev (idx1 stride)), list_fmap_bind.
    apply list_bind_ext; [|done]. intros n. simpl.
    rewrite list_bind_assoc, (Hrev (idx2 stride)), list_fmap_bind.
    apply list_bind_ext; [|done]. intros p. simpl.
    rewrite app_nil_r.
    by replace (Z.pred m) with (m - 1) by lia;
       replace (Z.pred n) with (n - 1) by lia;
       replace (Z.pred p) with (p - 1) by lia. }
  unfold mesh_stride_backward_for.
  pose proof Hf as (F0 & F1 & F2 & G0 & G1 & G2).
  pose proof Hs as (S0 & S1 & S2).
  apply for_loop_cells;
    [apply counter_values_down
    |rewrite length_reverse, length_seqZ; lia|intros m s0 Hm].
  apply for_loop_cells;
    [apply counter_values_down
    |rewrite length_reverse, length_seqZ; lia|intros n s1 Hn].
  apply for_loop_cells;
    [apply counter_values_down
    |rewrite length_reverse, length_seqZ; lia|intros p s2 Hp].
  apply elem_of_reverse, elem_of_seqZ in Hm, Hn, Hp.
  replace (idx0 (first r) + m - 1) with (idx0 (first r) + (m - 1)) by lia.
  replace (idx1 (first r) + n - 1) with (idx1 (first r) + (n - 1)) by lia.
  replace (idx2 (first r) + p - 1) with (idx2 (first r) + (p - 1)) by lia.
  apply offset_cells_run; [done|done|lia..].
Qed.

Lemma mod_of_offset x m s :
  0 ≤ m < s → (x - m) `mod` s = 0 → x `mod` s = m.
Proof.
  intros Hm Hx. pose proof (Z.div_mod (x - m) s).
  replace x with (m + (x - m) `div` s * s) by lia.
  rewrite Z.mod_add by lia. apply Z.mod_small. lia.
Qed.

Lemma strided_NoDup a hi s : 0 < s → NoDup (strided a hi s).
Proof.
  intros Hs. unfold strided. apply NoDup_fmap_2_strong; [|apply NoDup_seqZ].
  intros t1 t2 _ _ Heq. nia.
Qed.

(** One axis: the strided sub-sequences of the [s] offsets cover the plain
    counting sequence, each value once. *)
Lemma strided_cover lo hi s :
  0 < s →
  (m ← seqZ 0 s; strided (lo + m) hi s) ≡ₚ seqZ lo (hi - lo).
Proof.
  intros Hs. apply NoDup_Permutation.
  - apply NoDup_bind; [|intros; by apply strided_NoDup|apply NoDup_seqZ].
    intros m1 m2 y Hm1 Hm2 Hy1 Hy2.
    apply elem_of_seqZ in Hm1, Hm2. apply strided_elem in Hy1, Hy2; [|done..].
    destruct Hy1 as [_ Hy1], Hy2 as [_ Hy2].
    replace (y - (lo + m1)) with (y - lo - m1) in Hy1 by lia.
    replace (y - (lo + m2)) with (y - lo - m2) in Hy2 by lia.
    apply mod_of_offset in Hy1, Hy2; lia.
  - apply NoDup_seqZ.
  - intros x. rewrite list_elem_of_bind, elem_of_seqZ. split.
    + intros (m & Hx & Hm). apply elem_of_seqZ in Hm.
      apply strided_elem in Hx; [|done]. lia.
    + intros Hx. exists ((x - lo) `mod` s).
      pose proof (Z.mod_pos_bound (x - lo) s Hs).
      pose proof (Z.mod_le (x - lo) s).
      split; [|apply elem_of_seqZ; lia].
      apply strided_elem; [done|]. split; [lia|].
      replace (x - (lo + (x - lo) `mod` s)) with ((x - lo) - (x - lo) `mod` s) by lia.
      rewrite Zminus_mod_idemp_r, Z.sub_diag. by apply Z.mod_0_l; lia.
Qed.

Lemma bind_perm_ext {A B} (f g : A → list B) (l : list A) :
  (∀ x, x ∈ l → f x ≡ₚ g x) → l ≫= f ≡ₚ l ≫= g.
Proof.
  induction l as [|x l IH]; intros Hfg; [done|].
  rewrite !bind_cons. f_equiv; [apply Hfg; left|].
  apply IH. intros y Hy. apply Hfg. by right.
Qed.

Lemma bind_app_perm {A B} (g h : A → list B) (l : list A) :
  (x ← l; g x ++ h x) ≡ₚ (l ≫= g) ++ (l ≫= h).
Proof.
  induction l as [|x l IH]; [done|].
  rewrite !bind_cons, IH.
  rewrite <- !(assoc_L (++)). f_equiv.
  rewrite !(assoc_L (++)). f_equiv. apply (comm (++)).
Qed.

Lemma bind_swap {A B C} (f : A → B → list C) (la : list A) (lb : list B) :
  (a ← la; b ← lb; f a b) ≡ₚ (b ← lb; a ← la; f a b).
Proof.
  induction la as [|x la IH].
  - simpl. induction lb as [|y lb IHb]; [done|]. by rewrite bind_cons.
  - rewrite bind_cons, IH.
    rewrite <- (bind_app_perm (f x) (λ b, la ≫= (λ a, f a b)) lb).
    apply bind_perm_ext. intros b _. by rewrite bind_cons.
Qed.

(** Moving the choice of the offset [m] next to the strided loop it feeds. *)
Lemma bind_regroup {A B C D} (S : A → list C) (X : B → C → list D)
    (M : list A) (N : list B) :
  (m ← M; n ← N; i ← S m; X n i) ≡ₚ (i ← (M ≫= S); n ← N; X n i).
Proof.
  rewrite list_bind_assoc. apply bind_perm_ext. intros m _.
  apply (bind_swap (λ n i, X n i) N (S m)).
Qed.

Lemma offset_cells_cover r stride :
  stride_positive stride →
  offsets stride ≫= offset_cells r stride ≡ₚ range_cells r.
Proof.
  intros (S0 & S1 & S2). rewrite offsets_bind. unfold offset_cells, range_cells.
  simpl.
  set (M := seqZ 0 (idx0 stride)). set (N := seqZ 0 (idx1 stride)).
  set (P := seqZ 0 (idx2 stride)).
  set (T0 := λ m, strided (idx0 (first r) + m) (idx0 (second r)) (idx0 stride)).
  set (T1 := λ n, strided (idx1 (first r) + n) (idx1 (second r)) (idx1 stride)).
  set (T2 := λ p, strided (idx2 (first r) + p) (idx2 (second r)) (idx2 stride)).
  trans (i ← (M ≫= T0); j ← (N ≫= T1); k ← (P ≫= T2); [mkArray3i i j k]).
  - trans (i ← (M ≫= T0); n ← N; p ← P; j ← T1 n; k ← T2 p; [mkArray3i i j k]).
    + rewrite list_bind_assoc. apply bind_perm_ext. intros m _.
      trans (n ← N; i ← T0 m; p ← P; j ← T1 n; k ← T2 p; [mkArray3i i j k]).
      * apply bind_perm_ext. intros n _.
        apply (bind_swap (λ p i, j ← T1 n; k ← T2 p; [mkArray3i i j k]) P (T0 m)).
      * apply (bind_swap
          (λ n i, p ← P; j ← T1 n; k ← T2 p; [mkArray3i i j k]) N (T0 m)).
    + apply bind_perm_ext. intros i _.
      trans (j ← (N ≫= T1); p ← P; k ← T2 p; [mkArray3i i j k]).
      * apply (bind_regroup T1 (λ p j, k ← T2 p; [mkArray3i i j k]) N P).
      * apply bind_perm_ext. intros j _. by rewrite list_bind_assoc.
  - unfold M, N, P, T0, T1, T2.
    rewrite (strided_cover (idx0 (first r)) (idx0 (second r)) _ S0).
    apply bind_perm_ext. intros i _.
    rewrite (strided_cover (idx1 (first r)) (idx1 (second r)) _ S1).
    apply bind_perm_ext. intros j _.
    by rewrite (strided_cover (idx2 (first r)) (idx2 (second r)) _ S2).
Qed.

Lemma range_cells_elem r c :
  c ∈ range_cells r ↔
  idx0 (first r) ≤ idx0 c < idx0 (second r) ∧
  idx1 (first r) ≤ idx1 c < idx1 (second r) ∧
  idx2 (first r) ≤ idx2 c < idx2 (second r).
Proof.
  unfold range_cells. rewrite list_elem_of_bind. split.
  - intros (i & (j & (k & Hc & Hk)%list_elem_of_bind & Hj)%list_elem_of_bind & Hi).
    apply list_elem_of_singleton in Hc as ->. simpl.
    apply elem_of_seqZ in Hi, Hj, Hk. lia.
  - intros (Hi & Hj & Hk). exists (idx0 c). split; [|apply elem_of_seqZ; lia].
    apply list_elem_of_bind. exists (idx1 c). split; [|apply elem_of_seqZ; lia].
    apply list_elem_of_bind. exists (idx2 c). split; [|apply elem_of_seqZ; lia].
    destruct c. simpl. by left.
Qed.

Lemma range_cells_NoDup r : NoDup (range_cells r).
Proof.
  unfold range_cells.
  apply NoDup_bind; [|intros i _|apply NoDup_seqZ].
  - intros i1 i2 c _ _
      (j1 & (k1 & ->%list_elem_of_singleton & _)%list_elem_of_bind & _)%list_elem_of_bind
      (j2 & (k2 & Hc%list_elem_of_singleton & _)%list_elem_of_bind & _)%list_elem_of_bind.
    by inversion Hc.
  - apply NoDup_bind; [|intros j _|apply NoDup_seqZ].
    + intros j1 j2 c _ _
        (k1 & ->%list_elem_of_singleton & _)%list_elem_of_bind
        (k2 & Hc%list_elem_of_singleton & _)%list_elem_of_bind.
      by inversion Hc.
    + apply NoDup_bind; [|intros k _; apply NoDup_singleton|apply NoDup_seqZ].
      intros k1 k2 c _ _ ->%list_elem_of_singleton Hc%list_elem_of_singleton.
      by inversion Hc.
Qed.

Lemma offset_cells_at_offset r stride off c :
  stride_positive stride →
  off ∈ offsets stride → c ∈ offset_cells r stride off →
  at_offset r stride off c.
Proof.
  intros (S0 & S1 & S2) Hoff Hc. unfold offsets in Hoff.
  apply list_elem_of_bind in Hoff as (m & Hoff & Hm).
  apply list_elem_of_bind in Hoff as (n & Hoff & Hn).
  apply list_elem_of_bind in Hoff as (p & Hoff & Hp).
  apply list_elem_of_singleton in Hoff as ->.
  apply elem_of_seqZ in Hm, Hn, Hp.
  unfold offset_cells in Hc. simpl in Hc.
  apply list_elem_of_bind in Hc as (i & Hc & Hi).
  apply list_elem_of_bind in Hc as (j & Hc & Hj).
  apply list_elem_of_bind in Hc as (k & Hc & Hk).
  apply list_elem_of_singleton in Hc as ->.
  apply strided_elem in Hi as [_ Hi], Hj as [_ Hj], Hk as [_ Hk]; [|done..].
  unfold at_offset. simpl.
  replace (i - (idx0 (first r) + m)) with (i - idx0 (first r) - m) in Hi by lia.
  replace (j - (idx1 (first r) + n)) with (j - idx1 (first r) - n) in Hj by lia.
  replace (k - (idx2 (first r) + p)) with (k - idx2 (first r) - p) in Hk by lia.
  split_and!; apply mod_of_offset; done || lia.
Qed.

Lemma offsets_elem stride off :
  off ∈ offsets stride ↔
  0 ≤ idx0 off < idx0 stride ∧ 0 ≤ idx1 off < idx1 stride ∧
  0 ≤ idx2 off < idx2 stride.
Proof.
  unfold offsets. rewrite list_elem_of_bind. split.
  - intros (m & (n & (p & Ho & Hp)%list_elem_of_bind & Hn)%list_elem_of_bind & Hm).
    apply list_elem_of_singleton in Ho as ->. simpl.
    apply elem_of_seqZ in Hm, Hn, Hp. lia.
  - intros (Hm & Hn & Hp). exists (idx0 off). split; [|apply elem_of_seqZ; lia].
    apply list_elem_of_bind. exists (idx1 off). split; [|apply elem_of_seqZ; lia].
    apply list_elem_of_bind. exists (idx2 off). split; [|apply elem_of_seqZ; lia].
    destruct off. simpl. by left.
Qed.

Lemma seqZ_sorted a n : StronglySorted Z.lt (seqZ a n).
Proof.
  remember (Z.to_nat n) as k eqn:Hk. revert a n Hk.
  induction k as [|k IH]; intros a n Hk.
  - rewrite seqZ_nil by lia. constructor.
  - rewrite seqZ_cons by lia. apply StronglySorted_cons. split.
    + apply Forall_forall. intros x Hx. apply elem_of_seqZ in Hx. lia.
    + apply IH. lia.
Qed.

Lemma sorted_bind {B} (R : relation B) (f : Z → list B) (l : list Z) :
  StronglySorted Z.lt l →
  (∀ x, x ∈ l → StronglySorted R (f x)) →
  (∀ x y a b, x ∈ l → y ∈ l → x < y → a ∈ f x → b ∈ f y → R a b) →
  StronglySorted R (l ≫= f).
Proof.
  induction 1 as [|x l Hl IH Hx]; intros Hf HR; [constructor|].
  rewrite bind_cons. apply StronglySorted_app. split_and!.
  - intros a b Ha (y & Hb & Hy)%list_elem_of_bind.
    apply (HR x y); [left|by right| |done|done].
    rewrite Forall_forall in Hx. by apply Hx.
  - apply Hf. left.
  - apply IH.
    + intros y Hy. apply Hf. by right.
    + intros y z a b Hy Hz. apply HR; by right.
Qed.

Lemma sorted_reverse {B} (R : relation B) (l : list B) :
  StronglySorted R l → StronglySorted (flip R) (reverse l).
Proof.
  induction 1 as [|x l Hl IH Hx]; [constructor|].
  rewrite reverse_cons. apply StronglySorted_app. split_and!.
  - intros a b Ha ->%list_elem_of_singleton. rewrite elem_of_reverse in Ha.
    rewrite Forall_forall in Hx. unfold flip. by apply Hx.
  - done.
  - repeat constructor.
Qed.

(** The forward offsets ascend, the backward offsets descend. *)
Lemma offsets_sorted stride :
  StronglySorted offset_lt (offsets stride) ∧
  StronglySorted (flip offset_lt) (reverse (offsets stride)).
Proof.
  assert (StronglySorted offset_lt (offsets stride)) as Hs;
    [|split; [done|by apply sorted_reverse]].
  unfold offsets. apply sorted_bind; [apply seqZ_sorted| |].
  - intros m _. apply sorted_bind; [apply seqZ_sorted| |].
    + intros n _. apply sorted_bind; [apply seqZ_sorted| |].
      * intros p _. repeat constructor.
      * intros p p' a b _ _ Hlt ->%list_elem_of_singleton
          ->%list_elem_of_singleton.
        unfold offset_lt. simpl. lia.
    + intros n n' a b _ _ Hlt
        (p & ->%list_elem_of_singleton & _)%list_elem_of_bind
        (p' & ->%list_elem_of_singleton & _)%list_elem_of_bind.
      unfold offset_lt. simpl. lia.
  - intros m m' a b _ _ Hlt
      (n & (p & ->%list_elem_of_singleton & _)%list_elem_of_bind & _)%list_elem_of_bind
      (n' & (p' & ->%list_elem_of_singleton & _)%list_elem_of_bind & _)%list_elem_of_bind.
    unfold offset_lt. simpl. lia.
Qed.

Lemma apply_record_cell cells trace :
  apply_in_order record_cell cells trace = trace ++ cells.
Proof.
  revert trace. induction cells as [|c cells IH]; intros trace.
  - simpl. by rewrite app_nil_r.
  - change (apply_in_order record_cell cells (record_cell c trace) =
            trace ++ c :: cells).
    rewrite IH. unfold record_cell. by rewrite <- (assoc_L (++)).
Qed.

Lemma enough_fuel_exists r stride : ∃ fuel, enough_fuel fuel r stride.
Proof.
  exists (S (Z.to_nat (
    Z.max (idx0 (second r) - idx0 (first r))
   (Z.max (idx1 (second r) - idx1 (first r))
   (Z.max (idx2 (second r) - idx2 (first r))
   (Z.max (idx0 stride) (Z.max (idx1 stride) (idx2 stride)))))))).
  unfold enough_fuel. lia.
Qed.

(** An [!=] loop entered above its bound never meets it. *)
Lemma for_loop_ne_above {St} fuel hi i (body : Z → St → option St) st :
  hi < i →
  for_loop fuel (λ k, negb (k =? hi)) Z.succ i body st = None.
Proof.
  revert i st. induction fuel as [|fuel IH]; intros i st Hi; [done|].
  simpl. destruct (Z.eqb_spec i hi) as [->|_]; [lia|]. simpl.
  destruct (body i st) as [st'|]; [|done]. simpl. apply IH. lia.
Qed.

(** C7 (as amended): for every mesh range whose lower corner does not exceed
    its upper corner, every positive stride with which no [int] counter
    overflows and every local function, once the fuel lets the loops
    finish, [mesh_for] applies the function to the cells of the range in
    row-major order, [mesh_stride_forward_for] applies it block by block
    along the ascending offsets and [mesh_stride_backward_for] along the
    descending offsets; both strided orders are permutations of the
    duplicate-free plain order, the offsets ascend lexicographically
    (descend for the backward sweep), and every cell of a block sits at
    that block's offset modulo the stride.  Every start value of a cell
    loop and every counter after [+= stride] from a visited cell is an
    [int], so that the loops over [Z] are the loops of the code. *)
Theorem mesh_stride_for_visits_range_once {St} (fuel : nat) (r : MeshRange)
    (stride : Array3i) (local_function : Array3i → St → St) (st : St) :
  range_ordered r → stride_positive stride → no_overflow r stride →
  enough_fuel fuel r stride →
  mesh_for fuel r local_function st =
    Some (apply_in_order local_function (range_cells r) st) ∧
  mesh_stride_forward_for fuel r stride local_function st =
    Some (apply_in_order local_function
            (offsets stride ≫= offset_cells r stride) st) ∧
  mesh_stride_backward_for fuel r stride local_function st =
    Some (apply_in_order local_function
            (reverse (offsets stride) ≫= offset_cells r stride) st) ∧
  offsets stride ≫= offset_cells r stride ≡ₚ range_cells r ∧
  reverse (offsets stride) ≫= offset_cells r stride ≡ₚ range_cells r ∧
  NoDup (range_cells r) ∧
  StronglySorted offset_lt (offsets stride) ∧
  StronglySorted (flip offset_lt) (reverse (offsets stride)) ∧
  (∀ off c, off ∈ offsets stride → c ∈ offset_cells r stride off →
            at_offset r stride off c) ∧
  (∀ off, off ∈ offsets stride → start_in_int r off) ∧
  (∀ off c, off ∈ offsets stride → c ∈ offset_cells r stride off →
            step_in_int stride c).
Proof.
  intros Hr Hs Hi Hf. split_and!.
  - by eapply mesh_for_run.
  - by apply forward_run.
  - by apply backward_run.
  - by apply offset_cells_cover.
  - rewrite <- (offset_cells_cover r stride Hs).
    apply bind_Permutation, reverse_Permutation.
  - apply range_cells_NoDup.
  - apply offsets_sorted.
  - apply offsets_sorted.
  - intros off c. by apply offset_cells_at_offset.
  - intros off Hoff%offsets_elem.
    destruct Hr as (R0 & R1 & R2).
    destruct Hi as ((A0 & A1 & A2) & (B0 & B1 & B2) & _ & (D0 & D1 & D2)).
    unfold start_in_int, in_int in *. lia.
  - intros off c Hoff Hc.
    assert (c ∈ range_cells r) as Hin.
    { rewrite <- (offset_cells_cover r stride Hs).
      apply list_elem_of_bind. eauto. }
    apply range_cells_elem in Hin.
    destruct Hs as (S0 & S1 & S2).
    destruct Hi as ((A0 & A1 & A2) & _ & _ & (D0 & D1 & D2)).
    unfold step_in_int, in_int in *. lia.
Qed.

(** The theorem at the range [(0,0,0) .. (3,2,2)] with stride [(2,2,1)],
    recording the visited cells. *)
Lemma mesh_stride_for_visits_range_once_witness :
  let r := mkMeshRange (mkArray3i 0 0 0) (mkArray3i 3 2 2) in
  let stride := mkArray3i 2 2 1 in
  mesh_for 4 r record_cell [] =
    Some (apply_in_order record_cell (range_cells r) []) ∧
  mesh_stride_forward_for 4 r stride record_cell [] =
    Some (apply_in_order record_cell
            (offsets stride ≫= offset_cells r stride) []) ∧
  mesh_stride_backward_for 4 r stride record_cell [] =
    Some (apply_in_order record_cell
            (reverse (offsets stride) ≫= offset_cells r stride) []) ∧
  offsets stride ≫= offset_cells r stride ≡ₚ range_cells r ∧
  reverse (offsets stride) ≫= offset_cells r stride ≡ₚ range_cells r ∧
  NoDup (range_cells r) ∧
  StronglySorted offset_lt (offsets stride) ∧
  StronglySorted (flip offset_lt) (reverse (offsets stride)) ∧
  (∀ off c, off ∈ offsets stride → c ∈ offset_cells r stride off →
            at_offset r stride off c) ∧
  (∀ off, off ∈ offsets stride → start_in_int r off) ∧
  (∀ off c, off ∈ offsets stride → c ∈ offset_cells r stride off →
            step_in_int stride c).
Proof.
  intros r stride.
  apply (mesh_stride_for_visits_range_once 4 r stride record_cell []).
  - unfold range_ordered; simpl; lia.
  - unfold stride_positive; simpl; lia.
  - unfold no_overflow, in_int, INT_MIN, INT_MAX; simpl; lia.
  - unfold enough_fuel; simpl; lia.
Defined.

(** C7 as stated holds neither for every mesh range nor for every positive
    stride.  Over the range [(0,0,0) .. (1,1,-1)], with all values far from
    the ends of [int], the [!=] loops of [mesh_for] call the local function
    on [(0,0,0)], [(0,0,1)], ... and have not met the bound after any
    number of passes that keeps the counter an [int], while both strided
    iterators finish without calling the function.  Over the ordered range
    [(2147483646,0,0) .. (2147483647,1,1)] with stride [(2,1,1)] the forward
    iterator visits the one cell of the range, and the [i += stride[0]]
    that follows takes the counter out of [int]. *)
Lemma mesh_for_inverted_range_differs :
  let r := mkMeshRange (mkArray3i 0 0 0) (mkArray3i 1 1 (-1)) in
  let stride := mkArray3i 1 1 1 in
  let r' := mkMeshRange (mkArray3i 2147483646 0 0) (mkArray3i 2147483647 1 1) in
  let stride' := mkArray3i 2 1 1 in
  (stride_positive stride ∧ no_overflow r stride ∧
   (∀ fuel, (0 < fuel)%nat → Z.of_nat fuel ≤ INT_MAX →
      mesh_for fuel r record_cell [] = None) ∧
   mesh_stride_forward_for 2 r stride record_cell [] = Some [] ∧
   mesh_stride_backward_for 2 r stride record_cell [] = Some []) ∧
  (range_ordered r' ∧ stride_positive stride' ∧
   mesh_stride_forward_for 3 r' stride' record_cell []
     = Some [mkArray3i 2147483646 0 0] ∧
   ¬ in_int (2147483646 + idx0 stride') ∧
   ¬ no_overflow r' stride').
Proof.
  intros r stride r' stride'. split; split_and!.
  - unfold stride_positive; simpl; lia.
  - unfold no_overflow, in_int, INT_MIN, INT_MAX; simpl; lia.
  - intros [|fuel] Hpos _; [lia|]. unfold mesh_for. simpl.
    by rewrite for_loop_ne_above by lia.
  - reflexivity.
  - reflexivity.
  - unfold range_ordered; simpl; lia.
  - unfold stride_positive; simpl; lia.
  - reflexivity.
  - unfold in_int, INT_MIN, INT_MAX; simpl; lia.
  - unfold no_overflow, in_int, INT_MIN, INT_MAX; simpl; lia.
Qed.

(** The three orders on the row [(0,0,0) .. (1,1,4)] with stride
    [(1,1,2)]. *)
Example mesh_for_row_order :
  let r := mkMeshRange (mkArray3i 0 0 0) (mkArray3i 1 1 4) in
  mesh_for 5 r record_cell [] =
    Some [mkArray3i 0 0 0; mkArray3i 0 0 1; mkArray3i 0 0 2; mkArray3i 0 0 3] ∧
  mesh_stride_forward_for 5 r (mkArray3i 1 1 2) record_cell [] =
    Some [mkArray3i 0 0 0; mkArray3i 0 0 2; mkArray3i 0 0 1; mkArray3i 0 0 3] ∧
  mesh_stride_backward_for 5 r (mkArray3i 1 1 2) record_cell [] =
    Some [mkArray3i 0 0 1; mkArray3i 0 0 3; mkArray3i 0 0 0; mkArray3i 0 0 2].
Proof. split_and!; reflexivity. Qed.

End mesh_iterators_facts.

(** ** Simulation entities *)

Section entity_facts.
Import Entity.

Lemma find_eq_None_iff {A} (P : A → bool) (l : list A) :
  List.find P l = None ↔ ∀ x, x ∈ l → P x = false.
Proof.
  induction l as [|y l IH]; simpl.
  - split; [intros _ x Hx; inversion Hx|done].
  - destruct (P y) eqn:Hy.
    + split; [done|]. intros H. rewrite (H y) in Hy; [done|left].
    + rewrite IH. split.
      * intros H x Hx. inversion Hx; subst; auto.
      * intros H x Hx. apply H. by right.
Qed.

(** C5 (as amended): a lookup by a name that no variable registered under
    the requested data type carries is not fatal in [findVariableByName]:
    the call returns normally, with [nullptr], and so yields no variable
    handle; [nullptr] is returned exactly for such names, and a handle the
    function does return is a registered variable of that name. *)
Theorem findVariableByName_unknown_name
    (assemble : DataContainerAddressAssemble) (type_index : nat) (name : string) :
  (name ∉ variable_name <$> assemble type_index →
     findVariableByName_call assemble type_index name = Ret None) ∧
  (findVariableByName assemble type_index name = None ↔
     name ∉ variable_name <$> assemble type_index) ∧
  (∀ v, findVariableByName assemble type_index name = Some v →
        v ∈ assemble type_index ∧ variable_name v = name).
Proof.
  assert (findVariableByName assemble type_index name = None ↔
          name ∉ variable_name <$> assemble type_index) as Hnone.
  { unfold findVariableByName.
    rewrite find_eq_None_iff, list_elem_of_fmap. split.
    - intros H (v & -> & Hv). specialize (H v Hv).
      by rewrite String.eqb_refl in H.
    - intros H v Hv. apply String.eqb_neq. intros Heq. apply H. eauto. }
  split_and!.
  - intros Hname. unfold findVariableByName_call. f_equal. by apply Hnone.
  - done.
  - unfold findVariableByName. intros v Hv.
    apply List.find_some in Hv as [Hin Heq].
    split; [by apply list_elem_of_In|by apply String.eqb_eq].
Qed.

(** C5 as stated fails: the lookup of a name that was never registered does
    not abort.  In a registry that holds only ["Density"], the call for
    ["Pressure"] returns [nullptr] to its caller; it does not end the
    process, whatever exit code and output an abort would have. *)
Lemma findVariableByName_unknown_name_returns :
  let assemble := addVariableToAssemble (λ _, []) 0 (mkVariable "Density" 7) in
  ("Pressure" ∉ variable_name <$> assemble 0%nat) ∧
  findVariableByName_call assemble 0 "Pressure" = Ret None ∧
  ∀ code cout, findVariableByName_call assemble 0 "Pressure" ≠ Exit code cout.
Proof.
  intros assemble. split_and!.
  - simpl. intros [[=]|[]%elem_of_nil]%elem_of_cons.
  - reflexivity.
  - intros code cout. discriminate.
Qed.

(** A name registered under another data type only is not found. *)
Example findVariableByName_other_type :
  let assemble := addVariableToAssemble (λ _, []) 1 (mkVariable "phi" 7) in
  findVariableByName assemble 0 "phi" = None ∧
  findVariableByName assemble 1 "phi" = Some (mkVariable "phi" 7).
Proof. split; reflexivity. Qed.

(** C6 (as amended): on a freshly constructed [ConstantEntity] both
    [DeviceDataAddress] and [DataAddress] under [ParallelDevicePolicy] end
    the process with [exit(1)] after a message that contains the entity's
    name; after [setDeviceData] with a non-null pointer both return that
    pointer; under any other policy [DataAddress] returns the host
    pointer. *)
Theorem DeviceDataAddress_needs_device_data (name : string) (allocated : N) :
  let e := ConstantEntity_new name allocated in
  DeviceDataAddress e = Exit 1 (not_allocated_message name) ∧
  DataAddress_policy e ParallelDevicePolicy = Exit 1 (not_allocated_message name) ∧
  Text name ∈ not_allocated_message name ∧
  (∀ e' d, DeviceDataAddress (setDeviceData e' (addr d)) = Ret (addr d) ∧
           DataAddress_policy (setDeviceData e' (addr d)) ParallelDevicePolicy
             = Ret (addr d)) ∧
  (∀ e' other, DataAddress_policy e' (OtherPolicy other) = Ret (value_ e')).
Proof.
  split_and!; try done.
  apply list_elem_of_further, list_elem_of_here.
Qed.

(** C6 as stated fails when the pointer handed to [setDeviceData] is null:
    [existDeviceData] is still false and the call ends the process. *)
Lemma DeviceDataAddress_after_null_setDeviceData :
  let e := setDeviceData (ConstantEntity_new "rho0" 16) nullptr in
  DeviceDataAddress e = Exit 1 (not_allocated_message "rho0") ∧
  DataAddress_policy e ParallelDevicePolicy ≠ Ret nullptr.
Proof. split; [reflexivity|discriminate]. Qed.

End entity_facts.

(** ** The level set *)

Section level_set_facts.
Import LevelSet.

(** C1: [cleanInterface] runs MarkNearInterface, ReinitializeLevelSet,
    UpdateLevelSetGradient, UpdateKernelIntegrals in this order, and
    [correctTopology] runs DiffuseLevelSetSign, UpdateLevelSetGradient,
    ReinitializeLevelSet, UpdateLevelSetGradient, MarkNearInterface,
    RedistanceInterface, UpdateKernelIntegrals in this order; every sweep
    receives the caller's [small_shift_factor]. *)
Theorem cleanInterface_correctTopology_schedules {MeshData : Type}
    (exec : Sweep → Q → MeshData → MeshData) (small_shift_factor : Q)
    (data : MeshData) :
  cleanInterface exec small_shift_factor data =
    Some (exec UpdateKernelIntegrals small_shift_factor
         (exec UpdateLevelSetGradient small_shift_factor
         (exec ReinitializeLevelSet small_shift_factor
         (exec MarkNearInterface small_shift_factor data)))) ∧
  correctTopology exec small_shift_factor data =
    Some (exec UpdateKernelIntegrals small_shift_factor
         (exec RedistanceInterface small_shift_factor
         (exec MarkNearInterface small_shift_factor
         (exec UpdateLevelSetGradient small_shift_factor
         (exec ReinitializeLevelSet small_shift_factor
         (exec UpdateLevelSetGradient small_shift_factor
         (exec DiffuseLevelSetSign small_shift_factor data))))))) ∧
  cleanInterface log_sweep small_shift_factor [] =
    Some [(MarkNearInterface, small_shift_factor);
          (ReinitializeLevelSet, small_shift_factor);
          (UpdateLevelSetGradient, small_shift_factor);
          (UpdateKernelIntegrals, small_shift_factor)] ∧
  correctTopology log_sweep small_shift_factor [] =
    Some [(DiffuseLevelSetSign, small_shift_factor);
          (UpdateLevelSetGradient, small_shift_factor);
          (ReinitializeLevelSet, small_shift_factor);
          (UpdateLevelSetGradient, small_shift_factor);
          (MarkNearInterface, small_shift_factor);
          (RedistanceInterface, small_shift_factor);
          (UpdateKernelIntegrals, small_shift_factor)].
Proof. split_and!; reflexivity. Qed.

Lemma Qltb_lt (x y : Q) : Qltb x y = true ↔ (x < y)%Q.
Proof.
  unfold Qltb. rewrite negb_true_iff. split.
  - intros H. apply Qnot_le_lt. intros Hle.
    apply Qle_bool_iff in Hle. congruence.
  - intros H. destruct (Qle_bool y x) eqn:E; [|done].
    apply Qle_bool_iff in E. by apply Qlt_not_le in H.
Qed.

Lemma Qltb_ge (x y : Q) : Qltb x y = false ↔ ¬ (x < y)%Q.
Proof. rewrite <- Qltb_lt. by destruct (Qltb x y). Qed.

(** C2: [upwindDifference] returns [df_n] when [sign * df_p < 0] and
    [sign * df_n < - sign * df_p], returns [df_p] when [sign * df_n > 0] and
    [sign * df_p > - sign * df_n], and returns [0] in every other case; the
    first two cases exclude each other, so their order does not matter. *)
Theorem upwindDifference_cases (sign df_p df_n : Q) :
  ((sign * df_p < 0 ∧ sign * df_n < - (sign * df_p))%Q →
     upwindDifference sign df_p df_n = df_n) ∧
  ((0 < sign * df_n ∧ - (sign * df_n) < sign * df_p)%Q →
     upwindDifference sign df_p df_n = df_p) ∧
  (¬ (sign * df_p < 0 ∧ sign * df_n < - (sign * df_p))%Q →
   ¬ (0 < sign * df_n ∧ - (sign * df_n) < sign * df_p)%Q →
     upwindDifference sign df_p df_n = 0%Q).
Proof.
  unfold upwindDifference.
  generalize (sign * df_p)%Q (sign * df_n)%Q. intros a b.
  destruct (Qltb a 0) eqn:E1, (Qltb b (- a)) eqn:E2,
           (Qltb 0 b) eqn:E3, (Qltb (- b) a) eqn:E4; simpl;
    rewrite ?Qltb_lt, ?Qltb_ge in *;
    (split_and!; [intros [??]|intros [??]|intros ??]);
    try done; try lra; try tauto.
Qed.

(** One input for each of the three cases; in the last, [df_p] and [df_n]
    have equal signed magnitudes. *)
Example upwindDifference_backward :
  (1 * -1 < 0 ∧ 1 * -2 < - (1 * -1))%Q ∧
  upwindDifference 1 (-1) (-2) = (-2)%Q.
Proof. split_and!; reflexivity. Qed.

Example upwindDifference_forward :
  (0 < 1 * 2 ∧ - (1 * 2) < 1 * 3)%Q ∧ upwindDifference 1 3 2 = 3%Q.
Proof. split_and!; reflexivity. Qed.

Example upwindDifference_tie :
  ¬ (1 * -1 < 0 ∧ 1 * 1 < - (1 * -1))%Q ∧
  ¬ (0 < 1 * 1 ∧ - (1 * 1) < 1 * -1)%Q ∧
  upwindDifference 1 (-1) 1 = 0%Q.
Proof. split_and!; [intros [_ H]; discriminate H|intros [_ H]; discriminate H|reflexivity]. Qed.

Lemma within_box_false_iff (b : BoundingBox) (p : Vecd) :
  within_box b p = false ↔ outside_box b p.
Proof.
  unfold within_box, outside_box.
  rewrite !andb_false_iff.
  assert (∀ x y, Qle_bool x y = false ↔ (y < x)%Q) as Hle.
  { intros x y. split.
    - intros H. apply Qnot_le_lt. intros Hxy.
      apply Qle_bool_iff in Hxy. congruence.
    - intros H. destruct (Qle_bool x y) eqn:E; [|done].
      apply Qle_bool_iff in E. by apply Qlt_not_le in H. }
  rewrite !Hle. tauto.
Qed.

(** C4: for every position [p] outside [tentative_bounds],
    [probeIsWithinMeshBound p] is false and [probeSignedDistance p] returns
    (it has no error result) the sentinel of infinite magnitude with the far
    sign, which is positive when [p] is outside the body, hence always when
    the body lies inside the bounds; [probeIsWithinMeshBound] is false for
    exactly the positions outside the bounds. *)
Theorem probeSignedDistance_out_of_bounds (ls : LevelSetField) (p : Vecd) :
  outside_box (tentative_bounds ls) p →
  probeIsWithinMeshBound ls p = false ∧
  probeSignedDistance ls p = Sentinel (far_sign (shape_ ls) p) ∧
  (isInside (shape_ ls) p = false →
     probeSignedDistance ls p = Sentinel Positive) ∧
  (shape_within_bounds ls → probeSignedDistance ls p = Sentinel Positive) ∧
  (∀ q, probeIsWithinMeshBound ls q = false ↔
        outside_box (tentative_bounds ls) q).
Proof.
  intros Hout. apply within_box_false_iff in Hout.
  unfold probeSignedDistance, probeIsWithinMeshBound, far_sign.
  rewrite Hout. split_and!; try done.
  - by intros ->.
  - intros Hsh. destruct (isInside (shape_ ls) p) eqn:Hin; [|done].
    apply Hsh in Hin. congruence.
  - intros q. apply within_box_false_iff.
Qed.

(** The theorem at the probe [(100, 0, 0)] of the unit sphere. *)
Lemma probeSignedDistance_out_of_bounds_witness :
  let ls := unit_sphere_level_set in
  let p := mkVecd 100 0 0 in
  probeIsWithinMeshBound ls p = false ∧
  probeSignedDistance ls p = Sentinel (far_sign (shape_ ls) p) ∧
  (isInside (shape_ ls) p = false →
     probeSignedDistance ls p = Sentinel Positive) ∧
  (shape_within_bounds ls → probeSignedDistance ls p = Sentinel Positive) ∧
  (∀ q, probeIsWithinMeshBound ls q = false ↔
        outside_box (tentative_bounds ls) q).
Proof.
  intros ls p. apply (probeSignedDistance_out_of_bounds ls p).
  unfold outside_box. simpl. right. left. reflexivity.
Defined.

Example probe_unit_sphere_far_away :
  probeIsWithinMeshBound unit_sphere_level_set (mkVecd 100 0 0) = false ∧
  probeSignedDistance unit_sphere_level_set (mkVecd 100 0 0) = Sentinel Positive ∧
  probeIsWithinMeshBound unit_sphere_level_set (mkVecd 0 0 0) = true ∧
  probeSignedDistance unit_sphere_level_set (mkVecd 0 0 0) = Finite (-1).
Proof. split_and!; reflexivity. Qed.

End level_set_facts.

(** ** Slender structure dynamics *)

Section slender_structure_facts.
Import SlenderStructure.

(** C10: after the constructor of [BarAcousticTimeStepSize], the member
    [width_] refers to the particles' thickness array and not to their
    width array, so at every particle index the operation reads the same
    value through [width_] and through [thickness_], whatever the width
    array holds. *)
Theorem BarAcousticTimeStepSize_width_is_thickness (CFL : Q)
    (particles : BarParticles) (index_i : nat) :
  let op := BarAcousticTimeStepSize_new CFL in
  width_ op = particles_thickness_ ∧
  width_ op ≠ particles_width_ ∧
  read particles (width_ op) index_i = read particles (thickness_ op) index_i ∧
  (∀ other_width,
     read (mkBarParticles (thickness_data particles) other_width)
          (width_ op) index_i =
     thickness_data particles !! index_i).
Proof. split_and!; done. Qed.

(** [BaseBarRelaxation] binds the two members to the two arrays. *)
Example BaseBarRelaxation_width_is_width :
  width_ BaseBarRelaxation_new = particles_width_ ∧
  read (mkBarParticles [2; 6] [1; 5])%Q (width_ BaseBarRelaxation_new) 1 = Some 5%Q ∧
  read (mkBarParticles [2; 6] [1; 5])%Q (width_ (BarAcousticTimeStepSize_new 1)) 1
    = Some 6%Q.
Proof. split_and!; reflexivity. Qed.

(** C9: in the pass for Gaussian point [i] of particle [index_i], the
    entries (1,1) and (2,2) of the damping scaling matrix are the smaller of
    the smoothing length and [width_[i]], respectively [thickness_[i]];
    apart from these two entries the pass depends on the two arrays only at
    [index_i]: arrays that agree with them at [index_i] and give the same
    two entries at [i] give the same result. *)
Theorem gaussian_point_damping_reads_loop_index {Matd Vecd : Type}
    `{BarAlgebra Matd Vecd} (d : BarRelaxationData)
    (thickness_ width_ thickness' width' : list Q)
    (current_transformation_matrix : Matd) (index_i i : nat)
    (s : GaussianLoopState) (w_i t_i w_index_i t_index_i : Q) :
  width_ !! i = Some w_i →
  thickness_ !! i = Some t_i →
  width_ !! index_i = Some w_index_i →
  thickness_ !! index_i = Some t_index_i →
  width' !! index_i = Some w_index_i →
  thickness' !! index_i = Some t_index_i →
  (λ w, smaller_of w (smoothing_length_ d)) <$> width' !! i =
    Some (smaller_of w_i (smoothing_length_ d)) →
  (λ t, smaller_of t (smoothing_length_ d)) <$> thickness' !! i =
    Some (smaller_of t_i (smoothing_length_ d)) →
  (∃ s', gaussian_point_body d thickness_ width_
           current_transformation_matrix index_i i s = Some s' ∧
         numerical_damping_scaling_matrix_ s' =
           Mat_set 2 2 (smaller_of t_i (smoothing_length_ d))
             (Mat_set 1 1 (smaller_of w_i (smoothing_length_ d))
                (numerical_damping_scaling_matrix_ s))) ∧
  gaussian_point_body d thickness' width'
    current_transformation_matrix index_i i s =
  gaussian_point_body d thickness_ width_
    current_transformation_matrix index_i i s.
Proof.
  intros Hw Ht HwI HtI HwI' HtI' Hw' Ht'.
  destruct (width' !! i) as [w'|] eqn:Ew; [|done].
  destruct (thickness' !! i) as [t'|] eqn:Et; [|done].
  simpl in Hw', Ht'. injection Hw' as Hw'. injection Ht' as Ht'.
  unfold gaussian_point_body.
  rewrite Hw, Ht, HwI, HtI, HwI', HtI', Ew, Et. simpl.
  rewrite Hw', Ht'. split; [|done]. eexists. split; [done|]. done.
Qed.

(** The theorem on a two-particle bar with smoothing length 1/2, for
    particle 1 and Gaussian point 0: both pairs of arrays saturate the two
    entries at the smoothing length and agree at particle 1. *)
Lemma gaussian_point_damping_reads_loop_index_witness :
  let d := sample_bar (1 # 2) 4 in
  let s := loop_entry (Mat_scale_r Mat_Identity (1 # 2)) Mat_Zero in
  (∃ s', gaussian_point_body d [2; 6]%Q [1; 5]%Q Mat_Identity 1 0 s = Some s' ∧
         numerical_damping_scaling_matrix_ s' =
           Mat_set 2 2 (smaller_of 2 (smoothing_length_ d))
             (Mat_set 1 1 (smaller_of 1 (smoothing_length_ d))
                (numerical_damping_scaling_matrix_ s))) ∧
  gaussian_point_body d [20; 6]%Q [10; 5]%Q Mat_Identity 1 0 s =
  gaussian_point_body d [2; 6]%Q [1; 5]%Q Mat_Identity 1 0 s.
Proof.
  intros d s.
  apply (gaussian_point_damping_reads_loop_index d [2; 6]%Q [1; 5]%Q
           [20; 6]%Q [10; 5]%Q Mat_Identity 1 0 s 1 2 5 6); reflexivity.
Defined.

(** With smoothing length 10, the pass for particle 1 and Gaussian point 0
    stores the width 1 and the thickness 2 of particle 0 in the scaling
    matrix, not the width 5 and the thickness 6 of particle 1. *)
Example gaussian_point_damping_of_other_particle :
  let d := sample_bar 10 4 in
  let s := loop_entry (Mat_scale_r Mat_Identity 10) Mat_Zero in
  (s' ← gaussian_point_body d [2; 6]%Q [1; 5]%Q Mat_Identity 1 0 s;
   Some (Mat_get (numerical_damping_scaling_matrix_ s') 1 1,
         Mat_get (numerical_damping_scaling_matrix_ s') 2 2)) =
  Some (1%Q, 2%Q).
Proof. vm_compute. reflexivity. Qed.

(** After the whole loop over two Gaussian points, the member holds the
    entries of particle 1 although the call was for particle 0. *)
Example gaussian_loop_leaves_last_point :
  let d := sample_bar 10 2 in
  let s := loop_entry (Mat_scale_r Mat_Identity 10) Mat_Zero in
  (s' ← gaussian_loop d [2; 6]%Q [1; 5]%Q Mat_Identity 0 s;
   Some (Mat_get (numerical_damping_scaling_matrix_ s') 1 1,
         Mat_get (numerical_damping_scaling_matrix_ s') 2 2)) =
  Some (5%Q, 6%Q).
Proof. vm_compute. reflexivity. Qed.

(** With three particles and four Gaussian points the pass for point 3
    reads [width_[3]], past the end of the arrays, for every particle. *)
Example gaussian_loop_reads_past_the_end :
  let d := sample_bar 10 4 in
  let s := loop_entry (Mat_scale_r Mat_Identity 10) Mat_Zero in
  gaussian_loop d [2; 6; 2]%Q [1; 5; 1]%Q Mat_Identity 0 s = None.
Proof. vm_compute. reflexivity. Qed.

End slender_structure_facts.

(* ===================================================================== *)
(** * Part III: further properties of the code                            *)
(* ===================================================================== *)

(** ** Mesh iterators: searches and degenerate strides *)

Section mesh_search_facts.
Import MeshIterators.
Local Open Scope Z_scope.

Lemma for_loop_return_unroll {R} (fuel : nat) cond step i (l : list Z)
    (body : Z → option (option R)) (g : Z → option R) :
  counter_values cond step i l →
  (length l < fuel)%nat →
  (∀ x, x ∈ l → body x = Some (g x)) →
  for_loop_return fuel cond step i body = Some (first_return g l).
Proof.
  revert fuel i. induction l as [|x l IH]; intros fuel i Hl Hfuel Hbody.
  - destruct fuel as [|fuel]; [simpl in Hfuel; lia|].
    simpl in *. by rewrite Hl.
  - destruct fuel as [|fuel]; [simpl in Hfuel; lia|].
    destruct Hl as (-> & Hc & Hl). simpl. rewrite Hc.
    rewrite (Hbody i) by left.
    destruct (g i) as [r|]; [done|].
    apply IH; [done|simpl in Hfuel; lia|].
    intros y Hy. apply Hbody. by right.
Qed.

Lemma find_bind {A} (P : A → bool) (f : Z → list A) (l : list Z) :
  List.find P (l ≫= f) = first_return (λ x, List.find P (f x)) l.
Proof.
  induction l as [|x l IH]; [done|].
  rewrite bind_cons. simpl. rewrite <- IH.
  induction (f x) as [|a fx IHfx]; [done|].
  simpl. by destruct (P a).
Qed.

Lemma find_split {A} (P : A → bool) (l : list A) (a : A) :
  List.find P l = Some a →
  ∃ before after, l = before ++ a :: after ∧ P a = true ∧
                  ∀ b, b ∈ before → P b = false.
Proof.
  induction l as [|x l IH]; [done|]. simpl.
  destruct (P x) eqn:Hx.
  - intros [= ->]. exists [], l. split_and!; [done|done|]. by intros b ?%elem_of_nil.
  - intros (before & after & -> & Ha & Hb)%IH.
    exists (x :: before), after. split_and!; [done|done|].
    intros b [->|Hin]%elem_of_cons; auto.
Qed.

Lemma for_loop_return_find {A} (fuel : nat) cond step i (l : list Z)
    (body : Z → option (option A)) (P : A → bool) (f : Z → list A) :
  counter_values cond step i l →
  (length l < fuel)%nat →
  (∀ x, x ∈ l → body x = Some (List.find P (f x))) →
  for_loop_return fuel cond step i body = Some (List.find P (l ≫= f)).
Proof.
  intros Hl Hfuel Hbody. rewrite find_bind. by apply for_loop_return_unroll.
Qed.

Lemma mesh_find_if_run fuel lower upper function :
  range_ordered (mkMeshRange lower upper) →
  range_fuel fuel lower upper →
  mesh_find_if fuel lower upper function =
    Some (default upper
            (List.find (on_cell function) (range_cells (mkMeshRange lower upper)))).
Proof.
  intros (H0 & H1 & H2) (F0 & F1 & F2). simpl in *.
  unfold mesh_find_if, range_cells. simpl.
  erewrite for_loop_return_find; [done| | |].
  - by apply counter_values_ne.
  - rewrite length_seqZ. lia.
  - intros l _. simpl.
    apply for_loop_return_find;
      [by apply counter_values_ne|rewrite length_seqZ; lia|intros m _].
    apply for_loop_return_find;
      [by apply counter_values_ne|rewrite length_seqZ; lia|intros n _].
    simpl. unfold on_cell. simpl. by destruct (function l m n).
Qed.

Lemma upper_not_in_range lower upper :
  upper ∉ range_cells (mkMeshRange lower upper).
Proof. rewrite range_cells_elem. simpl. lia. Qed.

(** X1: over an ordered range, [mesh_find_if] returns either the first cell
    in row-major order on which the check holds (no cell before it passes
    the check), or [upper] when the check fails on every cell of the
    range. *)
Theorem mesh_find_if_first_match (fuel : nat) (lower upper : Array3i)
    (function : Z → Z → Z → bool) :
  range_ordered (mkMeshRange lower upper) →
  range_fuel fuel lower upper →
  ∃ result, mesh_find_if fuel lower upper function = Some result ∧
    ((∃ before after,
        range_cells (mkMeshRange lower upper) = before ++ result :: after ∧
        on_cell function result = true ∧
        ∀ b, b ∈ before → on_cell function b = false) ∨
     (result = upper ∧
      ∀ c, c ∈ range_cells (mkMeshRange lower upper) →
           on_cell function c = false)).
Proof.
  intros Hr Hf. rewrite mesh_find_if_run by done.
  destruct (List.find _ _) as [c|] eqn:E; simpl.
  - exists c. split; [done|]. left. by apply find_split.
  - exists upper. split; [done|]. right. split; [done|].
    by apply find_eq_None_iff.
Qed.

Lemma mesh_find_if_first_match_witness :
  ∃ result,
    mesh_find_if 4 (mkArray3i 0 0 0) (mkArray3i 2 2 2)
      (λ l m n, 2 <=? l + m + n) = Some result ∧
    ((∃ before after,
        range_cells (mkMeshRange (mkArray3i 0 0 0) (mkArray3i 2 2 2))
          = before ++ result :: after ∧
        on_cell (λ l m n, 2 <=? l + m + n) result = true ∧
        ∀ b, b ∈ before → on_cell (λ l m n, 2 <=? l + m + n) b = false) ∨
     (result = mkArray3i 2 2 2 ∧
      ∀ c, c ∈ range_cells (mkMeshRange (mkArray3i 0 0 0) (mkArray3i 2 2 2)) →
           on_cell (λ l m n, 2 <=? l + m + n) c = false)).
Proof.
  apply (mesh_find_if_first_match 4 (mkArray3i 0 0 0) (mkArray3i 2 2 2)).
  - unfold range_ordered; simpl; lia.
  - unfold range_fuel; simpl; lia.
Defined.

(** X2: over an ordered range, [mesh_find_if] returns [upper] exactly when
    the check fails on every cell of the range: [upper] is not a cell of
    the range, so the result tells found from not found. *)
Theorem mesh_find_if_upper_iff_none (fuel : nat) (lower upper : Array3i)
    (function : Z → Z → Z → bool) :
  range_ordered (mkMeshRange lower upper) →
  range_fuel fuel lower upper →
  (mesh_find_if fuel lower upper function = Some upper ↔
   ∀ c, c ∈ range_cells (mkMeshRange lower upper) → on_cell function c = false).
Proof.
  intros Hr Hf. rewrite mesh_find_if_run by done.
  rewrite <- find_eq_None_iff.
  destruct (List.find _ _) as [c|] eqn:E; simpl; [|done].
  split; [|done]. intros [= ->]. apply List.find_some in E as [Hin _].
  apply list_elem_of_In in Hin. by apply upper_not_in_range in Hin.
Qed.

Lemma mesh_find_if_upper_iff_none_witness :
  mesh_find_if 4 (mkArray3i 0 0 0) (mkArray3i 2 2 2) (λ _ _ _, false)
    = Some (mkArray3i 2 2 2) ↔
  ∀ c, c ∈ range_cells (mkMeshRange (mkArray3i 0 0 0) (mkArray3i 2 2 2)) →
       on_cell (λ _ _ _, false) c = false.
Proof.
  apply (mesh_find_if_upper_iff_none 4 (mkArray3i 0 0 0) (mkArray3i 2 2 2)).
  - unfold range_ordered; simpl; lia.
  - unfold range_fuel; simpl; lia.
Defined.

Example mesh_find_if_examples :
  mesh_find_if 4 (mkArray3i 0 0 0) (mkArray3i 2 2 2) (λ l m n, 2 <=? l + m + n)
    = Some (mkArray3i 0 1 1) ∧
  mesh_find_if 4 (mkArray3i 0 0 0) (mkArray3i 2 2 2) (λ _ _ _, false)
    = Some (mkArray3i 2 2 2) ∧
  mesh_find_if3d 4 0 2 0 2 0 2 (λ l m n, 2 <=? l + m + n)
    = Some (mkArray3i 0 1 1).
Proof. split_and!; reflexivity. Qed.

Lemma for_loop_skip {St} (fuel : nat) cond step i (l : list Z)
    (body : Z → St → option St) (st : St) :
  counter_values cond step i l →
  (length l < fuel)%nat →
  (∀ x s, x ∈ l → body x s = Some s) →
  for_loop fuel cond step i body st = Some st.
Proof.
  intros Hl Hfuel Hbody.
  rewrite (for_loop_unroll fuel cond step i l body (λ _ s, s)) by done.
  f_equal. clear. revert st. induction l as [|x l IH]; intros st; [done|].
  simpl. apply IH.
Qed.

(** X3: when some component of the stride is zero or negative, both strided
    iterators finish without calling the local function, over every range:
    the offset loops are empty before a cell loop that would never advance
    is reached. *)
Theorem mesh_stride_for_nonpositive_stride {St} (fuel : nat) (r : MeshRange)
    (stride : Array3i) (local_function : Array3i → St → St) (st : St) :
  ¬ stride_positive stride →
  idx0 stride < Z.of_nat fuel → idx1 stride < Z.of_nat fuel →
  (0 < fuel)%nat →
  mesh_stride_forward_for fuel r stride local_function st = Some st ∧
  mesh_stride_backward_for fuel r stride local_function st = Some st.
Proof.
  intros Hs F0 F1 Hfuel.
  pose proof (counter_values_lt 0 (idx0 stride)) as C0.
  pose proof (counter_values_lt 0 (idx1 stride)) as C1.
  pose proof (counter_values_lt 0 (idx2 stride)) as C2.
  rewrite Z.sub_0_r in C0, C1, C2.
  pose proof (counter_values_down (idx0 stride)) as D0.
  pose proof (counter_values_down (idx1 stride)) as D1.
  pose proof (counter_values_down (idx2 stride)) as D2.
  assert (∀ s, s < Z.of_nat fuel → (length (seqZ 0 s) < fuel)%nat) as L0
    by (intros s ?; rewrite length_seqZ; lia).
  assert (∀ s, s < Z.of_nat fuel → (length (reverse (seqZ 1 s)) < fuel)%nat) as L1
    by (intros s ?; rewrite length_reverse, length_seqZ; lia).
  unfold mesh_stride_forward_for, mesh_stride_backward_for.
  destruct (Z.le_gt_cases (idx0 stride) 0) as [S0|S0].
  { split.
    - apply (for_loop_skip _ _ _ _ _ _ _ C0); [apply L0; lia|].
      intros m s Hm. apply elem_of_seqZ in Hm. lia.
    - apply (for_loop_skip _ _ _ _ _ _ _ D0); [apply L1; lia|].
      intros m s Hm. rewrite elem_of_reverse in Hm. apply elem_of_seqZ in Hm. lia. }
  destruct (Z.le_gt_cases (idx1 stride) 0) as [S1|S1].
  { split.
    - apply (for_loop_skip _ _ _ _ _ _ _ C0); [by apply L0|]. intros m s _.
      apply (for_loop_skip _ _ _ _ _ _ _ C1); [apply L0; lia|].
      intros n s' Hn. apply elem_of_seqZ in Hn. lia.
    - apply (for_loop_skip _ _ _ _ _ _ _ D0); [by apply L1|]. intros m s _.
      apply (for_loop_skip _ _ _ _ _ _ _ D1); [apply L1; lia|].
      intros n s' Hn. rewrite elem_of_reverse in Hn. apply elem_of_seqZ in Hn. lia. }
  destruct (Z.le_gt_cases (idx2 stride) 0) as [S2|S2].
  { split.
    - apply (for_loop_skip _ _ _ _ _ _ _ C0); [by apply L0|]. intros m s _.
      apply (for_loop_skip _ _ _ _ _ _ _ C1); [by apply L0|]. intros n s' _.
      apply (for_loop_skip _ _ _ _ _ _ _ C2); [apply L0; lia|].
      intros q s'' Hq. apply elem_of_seqZ in Hq. lia.
    - apply (for_loop_skip _ _ _ _ _ _ _ D0); [by apply L1|]. intros m s _.
      apply (for_loop_skip _ _ _ _ _ _ _ D1); [by apply L1|]. intros n s' _.
      apply (for_loop_skip _ _ _ _ _ _ _ D2); [apply L1; lia|].
      intros q s'' Hq. rewrite elem_of_reverse in Hq. apply elem_of_seqZ in Hq. lia. }
  exfalso. apply Hs. unfold stride_positive. lia.
Qed.

Lemma mesh_stride_for_nonpositive_stride_witness :
  mesh_stride_forward_for 3 (mkMeshRange (mkArray3i 0 0 0) (mkArray3i 5 5 5))
    (mkArray3i 2 0 1) record_cell [] = Some [] ∧
  mesh_stride_backward_for 3 (mkMeshRange (mkArray3i 0 0 0) (mkArray3i 5 5 5))
    (mkArray3i 2 0 1) record_cell [] = Some [].
Proof.
  apply (mesh_stride_for_nonpositive_stride 3
           (mkMeshRange (mkArray3i 0 0 0) (mkArray3i 5 5 5)) (mkArray3i 2 0 1)).
  - unfold stride_positive. simpl. lia.
  - simpl. lia.
  - simpl. lia.
  - lia.
Defined.

(** X4: the two ways [mesh_find_if] ends at once.  When the lower and
    upper corners coincide in the first component it returns [upper]
    without calling the check; when they differ in every component and the
    check holds at the lower corner it returns the lower corner, also over
    a range whose upper corner lies below the lower one, on which the plain
    iteration never ends. *)
Theorem mesh_find_if_immediate (fuel : nat) (lower upper : Array3i)
    (function : Z → Z → Z → bool) :
  (0 < fuel)%nat →
  (idx0 lower = idx0 upper →
   mesh_find_if fuel lower upper function = Some upper) ∧
  (idx0 lower ≠ idx0 upper → idx1 lower ≠ idx1 upper →
   idx2 lower ≠ idx2 upper → on_cell function lower = true →
   mesh_find_if fuel lower upper function = Some lower).
Proof.
  intros Hfuel. destruct fuel as [|fuel]; [lia|].
  unfold mesh_find_if, on_cell. split.
  - intros ->. simpl. by rewrite Z.eqb_refl.
  - intros H0 H1 H2 Hf. simpl.
    apply Z.eqb_neq in H0, H1, H2. rewrite H0, H1, H2. simpl.
    rewrite Hf. simpl. by destruct lower.
Qed.

Lemma mesh_find_if_immediate_witness :
  mesh_find_if 1 (mkArray3i 0 0 0) (mkArray3i 0 5 5) (λ _ _ _, true)
    = Some (mkArray3i 0 5 5) ∧
  mesh_find_if 1 (mkArray3i 0 0 0) (mkArray3i 1 1 (-1)) (λ _ _ _, true)
    = Some (mkArray3i 0 0 0).
Proof.
  split.
  - apply (mesh_find_if_immediate 1 (mkArray3i 0 0 0) (mkArray3i 0 5 5));
      [lia|reflexivity].
  - apply (mesh_find_if_immediate 1 (mkArray3i 0 0 0) (mkArray3i 1 1 (-1)));
      [lia|simpl; lia..|reflexivity].
Defined.

Lemma range_cells_sorted r : StronglySorted offset_lt (range_cells r).
Proof.
  unfold range_cells. apply sorted_bind; [apply seqZ_sorted| |].
  - intros i _. apply sorted_bind; [apply seqZ_sorted| |].
    + intros j _. apply sorted_bind; [apply seqZ_sorted| |].
      * intros k _. repeat constructor.
      * intros k k' a b _ _ Hlt ->%list_elem_of_singleton
          ->%list_elem_of_singleton.
        unfold offset_lt. simpl. lia.
    + intros j j' a b _ _ Hlt
        (k & ->%list_elem_of_singleton & _)%list_elem_of_bind
        (k' & ->%list_elem_of_singleton & _)%list_elem_of_bind.
      unfold offset_lt. simpl. lia.
  - intros i i' a b _ _ Hlt
      (j & (k & ->%list_elem_of_singleton & _)%list_elem_of_bind & _)%list_elem_of_bind
      (j' & (k' & ->%list_elem_of_singleton & _)%list_elem_of_bind & _)%list_elem_of_bind.
    unfold offset_lt. simpl. lia.
Qed.

Lemma mesh_for_each_run {St} fuel lower upper (function : Array3i → St → St) st :
  range_ordered (mkMeshRange lower upper) → range_fuel fuel lower upper →
  mesh_for_each fuel lower upper function st =
    Some (apply_in_order function (range_cells (mkMeshRange lower upper)) st).
Proof.
  intros (H0 & H1 & H2) (F0 & F1 & F2). simpl in *.
  unfold mesh_for_each, range_cells. simpl.
  apply for_loop_cells;
    [by apply counter_values_ne|rewrite length_seqZ; lia|intros l s0 _].
  apply for_loop_cells;
    [by apply counter_values_ne|rewrite length_seqZ; lia|intros m s1 _].
  apply for_loop_cells;
    [by apply counter_values_ne|rewrite length_seqZ; lia|intros n s2 _].
  done.
Qed.

(** X5: over an ordered range, [mesh_for_each] and [mesh_for_each3d] with
    the same bounds call the function on the same cells in the same order:
    every cell [lower <= c < upper] exactly once, in ascending row-major
    (lexicographic) order, so that recording the cells gives the whole
    range. *)
Theorem mesh_for_each_row_major {St} (fuel : nat) (lower upper : Array3i)
    (function : Array3i → St → St) (st : St) :
  range_ordered (mkMeshRange lower upper) →
  range_fuel fuel lower upper →
  ∃ cells,
    mesh_for_each fuel lower upper function st
      = Some (apply_in_order function cells st) ∧
    mesh_for_each3d fuel (idx0 lower) (idx0 upper) (idx1 lower) (idx1 upper)
      (idx2 lower) (idx2 upper) (λ l m n, function (mkArray3i l m n)) st
      = Some (apply_in_order function cells st) ∧
    mesh_for_each fuel lower upper record_cell [] = Some cells ∧
    NoDup cells ∧ StronglySorted offset_lt cells ∧
    ∀ c, c ∈ cells ↔
      idx0 lower ≤ idx0 c < idx0 upper ∧ idx1 lower ≤ idx1 c < idx1 upper ∧
      idx2 lower ≤ idx2 c < idx2 upper.
Proof.
  intros Hr Hf. exists (range_cells (mkMeshRange lower upper)). split_and!.
  - by apply mesh_for_each_run.
  - by apply (mesh_for_each_run fuel lower upper function st).
  - rewrite mesh_for_each_run by done. by rewrite apply_record_cell.
  - apply range_cells_NoDup.
  - apply range_cells_sorted.
  - intros c. by rewrite range_cells_elem.
Qed.

Lemma mesh_for_each_row_major_witness :
  ∃ cells,
    mesh_for_each 3 (mkArray3i 0 0 0) (mkArray3i 2 1 2) record_cell []
      = Some (apply_in_order record_cell cells []) ∧
    mesh_for_each3d 3 0 2 0 1 0 2 (λ l m n, record_cell (mkArray3i l m n)) []
      = Some (apply_in_order record_cell cells []) ∧
    mesh_for_each 3 (mkArray3i 0 0 0) (mkArray3i 2 1 2) record_cell []
      = Some cells ∧
    NoDup cells ∧ StronglySorted offset_lt cells ∧
    ∀ c, c ∈ cells ↔
      0 ≤ idx0 c < 2 ∧ 0 ≤ idx1 c < 1 ∧ 0 ≤ idx2 c < 2.
Proof.
  apply (mesh_for_each_row_major 3 (mkArray3i 0 0 0) (mkArray3i 2 1 2)
           record_cell []).
  - unfold range_ordered; simpl; lia.
  - unfold range_fuel; simpl; lia.
Defined.

(** X6: [mesh_find_if3d], whose bounds are template arguments, over
    ordered bounds: it returns the first cell in row-major order on which
    the check holds, or [Array3i(upper0, upper1, upper2)] when the check
    fails on every cell; this corner is not a cell of the range, so it is
    returned exactly when nothing is found. *)
Theorem mesh_find_if3d_first_match (fuel : nat)
    (lower0 upper0 lower1 upper1 lower2 upper2 : Z)
    (function : Z → Z → Z → bool) :
  let lower := mkArray3i lower0 lower1 lower2 in
  let upper := mkArray3i upper0 upper1 upper2 in
  range_ordered (mkMeshRange lower upper) →
  range_fuel fuel lower upper →
  ∃ result,
    mesh_find_if3d fuel lower0 upper0 lower1 upper1 lower2 upper2 function
      = Some result ∧
    ((∃ before after,
        range_cells (mkMeshRange lower upper) = before ++ result :: after ∧
        on_cell function result = true ∧
        ∀ b, b ∈ before → on_cell function b = false) ∨
     (result = upper ∧
      ∀ c, c ∈ range_cells (mkMeshRange lower upper) →
           on_cell function c = false)) ∧
    (result = upper ↔
     ∀ c, c ∈ range_cells (mkMeshRange lower upper) → on_cell function c = false).
Proof.
  intros lower upper Hr Hf.
  change (mesh_find_if3d fuel lower0 upper0 lower1 upper1 lower2 upper2 function)
    with (mesh_find_if fuel lower upper function).
  rewrite mesh_find_if_run by done.
  destruct (List.find _ _) as [c|] eqn:E; simpl.
  - exists c. split_and!; [done|left; by apply find_split|].
    split.
    + intros ->. apply List.find_some in E as [Hin _].
      apply list_elem_of_In in Hin. by apply upper_not_in_range in Hin.
    + intros Hnone%find_eq_None_iff. by rewrite Hnone in E.
  - exists upper. pose proof (proj1 (find_eq_None_iff _ _) E) as Hnone.
    split_and!; [done|by right|done].
Qed.

Lemma mesh_find_if3d_first_match_witness :
  let lower := mkArray3i 0 0 0 in
  let upper := mkArray3i 2 2 2 in
  ∃ result,
    mesh_find_if3d 4 0 2 0 2 0 2 (λ l m n, 2 <=? l + m + n) = Some result ∧
    ((∃ before after,
        range_cells (mkMeshRange lower upper) = before ++ result :: after ∧
        on_cell (λ l m n, 2 <=? l + m + n) result = true ∧
        ∀ b, b ∈ before → on_cell (λ l m n, 2 <=? l + m + n) b = false) ∨
     (result = upper ∧
      ∀ c, c ∈ range_cells (mkMeshRange lower upper) →
           on_cell (λ l m n, 2 <=? l + m + n) c = false)) ∧
    (result = upper ↔
     ∀ c, c ∈ range_cells (mkMeshRange lower upper) →
          on_cell (λ l m n, 2 <=? l + m + n) c = false).
Proof.
  intros lower upper.
  apply (mesh_find_if3d_first_match 4 0 2 0 2 0 2 (λ l m n, 2 <=? l + m + n)).
  - unfold range_ordered; simpl; lia.
  - unfold range_fuel; simpl; lia.
Defined.

End mesh_search_facts.

(** ** Simulation entities: registration, delegation and device mirrors *)

Section entity_further_facts.
Import Entity.

Lemma pointer_eqb_eq (p q : pointer) : pointer_eqb p q = true ↔ p = q.
Proof.
  destruct p as [|a], q as [|b]; simpl; rewrite ?N.eqb_eq;
    split; congruence.
Qed.

Lemma find_app_first {A} (P : A → bool) (l k : list A) :
  List.find P (l ++ k) =
  match List.find P l with Some a => Some a | None => List.find P k end.
Proof.
  induction l as [|x l IH]; simpl.
  - by destruct (List.find P k).
  - by destruct (P x).
Qed.

(** X7: after [addVariableToAssemble], a lookup that found a variable
    before finds the same one (an earlier registration of a name shadows a
    later one); a lookup that found none finds the new variable exactly when
    it asks for the new variable's data type and name; every other lookup
    still finds none. *)
Theorem findVariableByName_after_add (assemble : DataContainerAddressAssemble)
    (type_index : nat) (new_variable : VariableType)
    (type_index' : nat) (name : string) :
  findVariableByName (addVariableToAssemble assemble type_index new_variable)
    type_index' name =
  match findVariableByName assemble type_index' name with
  | Some v => Some v
  | None =>
      if Nat.eqb type_index' type_index
         && String.eqb (variable_name new_variable) name
      then Some new_variable else None
  end.
Proof.
  unfold findVariableByName, addVariableToAssemble.
  destruct (Nat.eqb type_index' type_index) eqn:E; simpl.
  - rewrite find_app_first. simpl.
    by destruct (String.eqb (variable_name new_variable) name).
  - by destruct (List.find _ _).
Qed.

(** X8: whatever sequence of [setDeviceData] calls a [ConstantEntity] went
    through, its name and host address are those of construction, and
    [DeviceDataAddress] returns the pointer of the last call when that
    pointer is not null and exits otherwise; it never returns the null
    pointer. *)
Theorem ConstantEntity_after_setDeviceData_calls (e : ConstantEntity)
    (calls : list pointer) :
  let e' := foldl setDeviceData e calls in
  name_ e' = name_ e ∧
  DataAddress e' = DataAddress e ∧
  DeviceDataAddress e' =
    match default (device_value_ e) (last calls) with
    | nullptr => Exit 1 (not_allocated_message (name_ e))
    | addr a => Ret (addr a)
    end ∧
  DeviceDataAddress e' ≠ Ret nullptr.
Proof.
  revert e. induction calls as [|p calls IH] using rev_ind; intros e; simpl.
  - unfold DeviceDataAddress, existDeviceData.
    destruct (device_value_ e); simpl; split_and!; done.
  - rewrite foldl_snoc, last_snoc. simpl.
    unfold DeviceDataAddress, existDeviceData, DataAddress. simpl.
    destruct (IH e) as (Hn & Ha & _). simpl in Hn, Ha.
    unfold DataAddress in Ha. rewrite Hn, Ha.
    destruct p; simpl; split_and!; done.
Qed.

(** X9: [isValueDelegated] holds exactly when [ValueAddress] is the
    variable's own value: it holds after construction, and after
    [setDelegateValueAddress p] it holds exactly when [p] is the own value
    address, while [ValueAddress] returns [p]. *)
Theorem isValueDelegated_iff_own_value (v : Singular.SingularVariable)
    (p : pointer) (name : string) (allocated : N) :
  (Singular.isValueDelegated v = true ↔
     Singular.ValueAddress v = Singular.value_ v) ∧
  Singular.isValueDelegated (Singular.SingularVariable_new name allocated) = true ∧
  Singular.ValueAddress (Singular.setDelegateValueAddress v p) = p ∧
  (Singular.isValueDelegated (Singular.setDelegateValueAddress v p) = true ↔
     p = Singular.value_ v).
Proof.
  unfold Singular.isValueDelegated, Singular.ValueAddress. simpl. split_and!.
  - rewrite pointer_eqb_eq. split; congruence.
  - by apply N.eqb_refl.
  - done.
  - rewrite pointer_eqb_eq. split; congruence.
Qed.

(** X10: whatever sequence of [setDeviceDataField] calls a
    [DiscreteVariable] went through, its host field and size are those of
    construction, [DeviceDataField] returns the pointer of the last call
    (the null pointer when there was none: it never exits), and
    [existDeviceDataField] tells whether that pointer is not null. *)
Theorem DiscreteVariable_after_setDeviceDataField_calls (name : string)
    (data_size allocated : N) (calls : list pointer) :
  let v := foldl Discrete.setDeviceDataField
             (Discrete.DiscreteVariable_new name data_size allocated) calls in
  Discrete.DataField v = addr allocated ∧
  Discrete.getDataSize v = data_size ∧
  Discrete.DeviceDataField v = default nullptr (last calls) ∧
  (Discrete.existDeviceDataField v = true ↔ Discrete.DeviceDataField v ≠ nullptr).
Proof.
  induction calls as [|p calls IH] using rev_ind; simpl.
  - split_and!; done.
  - rewrite foldl_snoc, last_snoc. destruct IH as (Hd & Hs & _).
    unfold Discrete.DataField, Discrete.getDataSize, Discrete.DeviceDataField,
      Discrete.existDeviceDataField in *. simpl.
    split_and!; try done.
    rewrite negb_true_iff. destruct p; simpl; split; done.
Qed.

Lemma delete_fresh_block (h : FreeStore.heap) (size : N) :
  FreeStore.heap_wf h →
  FreeStore.live
    (FreeStore.delete_array (addr (FreeStore.new_array size h).1)
       (FreeStore.new_array size h).2) = FreeStore.live h.
Proof.
  intros Hwf. simpl. rewrite filter_cons_False by (simpl; tauto).
  unfold FreeStore.heap_wf in Hwf.
  induction (FreeStore.live h) as [|block l IH]; [done|].
  rewrite filter_cons_True.
  - f_equal. apply IH. intros b Hb. apply Hwf. by right.
  - specialize (Hwf block (list_elem_of_here _ _)). lia.
Qed.

(** X11: a [MeshVariable] holds no storage until
    [allocateAllMeshVariableData] is called, whatever [data_size] its
    constructor was given, and destroying it then frees nothing; after one
    allocation the destructor frees the array; after a second allocation
    the destructor frees only the second array and the first stays live. *)
Theorem MeshVariable_second_allocation_leaks (h : FreeStore.heap)
    (name : string) (data_size size1 size2 : N) :
  FreeStore.heap_wf h →
  let v0 := Mesh.MeshVariable_new name data_size in
  let once := Mesh.allocateAllMeshVariableData v0 size1 h in
  let twice := Mesh.allocateAllMeshVariableData once.1 size2 once.2 in
  Mesh.DataField v0 = nullptr ∧
  Mesh.MeshVariable_delete v0 h = h ∧
  FreeStore.live (Mesh.MeshVariable_delete once.1 once.2) = FreeStore.live h ∧
  FreeStore.live (Mesh.MeshVariable_delete twice.1 twice.2) =
    (FreeStore.next_address h, size1) :: FreeStore.live h.
Proof.
  intros Hwf v0 once twice. split_and!; [done|done| |].
  - by apply delete_fresh_block.
  - unfold twice, Mesh.MeshVariable_delete. simpl.
    rewrite filter_cons_False by (simpl; tauto).
    rewrite filter_cons_True by (simpl; lia). f_equal.
    unfold FreeStore.heap_wf in Hwf.
    induction (FreeStore.live h) as [|block l IH]; [done|].
    rewrite filter_cons_True.
    + f_equal. apply IH. intros b Hb. apply Hwf. by right.
    + specialize (Hwf block (list_elem_of_here _ _)). lia.
Qed.

Lemma MeshVariable_second_allocation_leaks_witness :
  let h := FreeStore.mkHeap [(3%N, 8%N)] 5 in
  let v0 := Mesh.MeshVariable_new "phi" 100 in
  let once := Mesh.allocateAllMeshVariableData v0 64 h in
  let twice := Mesh.allocateAllMeshVariableData once.1 128 once.2 in
  Mesh.DataField v0 = nullptr ∧
  Mesh.MeshVariable_delete v0 h = h ∧
  FreeStore.live (Mesh.MeshVariable_delete once.1 once.2) = FreeStore.live h ∧
  FreeStore.live (Mesh.MeshVariable_delete twice.1 twice.2) =
    (FreeStore.next_address h, 64%N) :: FreeStore.live h.
Proof.
  intros h.
  apply (MeshVariable_second_allocation_leaks h "phi" 100 64 128).
  intros block ->%list_elem_of_singleton. simpl. lia.
Defined.

End entity_further_facts.

(** ** Slender structure dynamics: the Gaussian-point loop as a whole *)

Section gaussian_loop_facts.
Import SlenderStructure.
Context {Matd Vecd : Type} `{BarAlgebra Matd Vecd}.

Lemma gaussian_point_body_is_Some (d : BarRelaxationData)
    (thickness_ width_ : list Q) (ctm : Matd) (index_i i : nat)
    (s : GaussianLoopState) :
  is_Some (gaussian_point_body d thickness_ width_ ctm index_i i s) ↔
  (index_i < length thickness_ ∧ index_i < length width_ ∧
   i < length width_ ∧ i < length thickness_)%nat.
Proof.
  rewrite <- !lookup_lt_is_Some. unfold gaussian_point_body.
  destruct (thickness_ !! index_i), (width_ !! index_i),
    (width_ !! i), (thickness_ !! i); simpl;
    (split;
     [intros Hs; try (by destruct Hs as [? [=]]); split_and!; eauto
     |intros (H1 & H2 & H3 & H4);
      try (by destruct H1 as [? [=]]); try (by destruct H2 as [? [=]]);
      try (by destruct H3 as [? [=]]); try (by destruct H4 as [? [=]]);
      eauto]).
Qed.

(** The loop over the first [n] Gaussian points. *)
Lemma gaussian_loop_unfold (d : BarRelaxationData) (thickness_ width_ : list Q)
    (ctm : Matd) (index_i : nat) (s : GaussianLoopState) :
  gaussian_loop d thickness_ width_ ctm index_i s =
  foldl (λ acc i, s' ← acc; gaussian_point_body d thickness_ width_ ctm index_i i s')
        (Some s) (seq 0 (number_of_gaussian_points_ d)).
Proof. done. Qed.

Lemma gaussian_prefix_is_Some (d : BarRelaxationData) (thickness_ width_ : list Q)
    (ctm : Matd) (index_i n : nat) (s : GaussianLoopState) :
  is_Some (foldl (λ acc i, s' ← acc;
                    gaussian_point_body d thickness_ width_ ctm index_i i s')
                 (Some s) (seq 0 n)) ↔
  n = 0%nat ∨
  (index_i < length thickness_ ∧ index_i < length width_ ∧
   n ≤ length thickness_ ∧ n ≤ length width_)%nat.
Proof.
  induction n as [|n IH].
  - simpl. split; [by left|by eauto].
  - rewrite seq_S, foldl_app. simpl.
    destruct (foldl _ _ (seq 0 n)) as [s1|] eqn:E; simpl.
    + rewrite gaussian_point_body_is_Some.
      destruct IH as [IH _]. specialize (IH (ltac:(eauto))). lia.
    + rewrite <- not_eq_None_Some in IH.
      split; [intros []; done|]. intros [?|Hb]; [done|].
      exfalso. apply IH; [|done]. right. lia.
Qed.

(** X12: with at least one Gaussian point, the loop of [initialization]
    reads [thickness_] and [width_] at [index_i] and at every Gaussian-point
    index below [number_of_gaussian_points_]: when one of these indices is
    outside one of the two arrays the loop reads past its end, whatever the
    state at entry.  With fewer particles than Gaussian points this happens
    for every particle. *)
Theorem gaussian_loop_out_of_bounds_fails (d : BarRelaxationData)
    (thickness_ width_ : list Q) (ctm : Matd) (index_i : nat)
    (s : GaussianLoopState) :
  number_of_gaussian_points_ d ≠ 0%nat →
  ¬ loop_in_bounds d thickness_ width_ index_i →
  gaussian_loop d thickness_ width_ ctm index_i s = None.
Proof.
  intros Hn Hb. apply eq_None_not_Some. rewrite gaussian_loop_unfold.
  intros [?|?]%gaussian_prefix_is_Some; done.
Qed.

Lemma gaussian_point_body_damping (d : BarRelaxationData)
    (thickness_ width_ : list Q) (ctm : Matd) (index_i i : nat)
    (s s' : GaussianLoopState) (w_i t_i : Q) :
  gaussian_point_body d thickness_ width_ ctm index_i i s = Some s' →
  width_ !! i = Some w_i → thickness_ !! i = Some t_i →
  numerical_damping_scaling_matrix_ s' =
    Mat_set 2 2 (smaller_of t_i (smoothing_length_ d))
      (Mat_set 1 1 (smaller_of w_i (smoothing_length_ d))
         (numerical_damping_scaling_matrix_ s)).
Proof.
  unfold gaussian_point_body. intros Hs Hw Ht. rewrite Hw, Ht in Hs.
  destruct (thickness_ !! index_i), (width_ !! index_i); simpl in Hs; try done.
  by injection Hs as <-.
Qed.

Lemma gaussian_point_body_mid_surface (d : BarRelaxationData)
    (thickness_ width_ : list Q) (ctm : Matd) (index_i i : nat)
    (s s' : GaussianLoopState) :
  gaussian_point_body d thickness_ width_ ctm index_i (S i) s = Some s' →
  mid_surface_cauchy_stress_i s' = mid_surface_cauchy_stress_i s.
Proof.
  unfold gaussian_point_body. intros Hs.
  destruct (thickness_ !! index_i), (width_ !! index_i),
    (width_ !! S i), (thickness_ !! S i); simpl in Hs; try done.
  by injection Hs as <-.
Qed.

(** X13: when the loop runs to its end over at least one Gaussian point,
    the entries (1,1) and (2,2) of [numerical_damping_scaling_matrix_] it
    leaves are the smaller of the smoothing length and the width,
    respectively thickness, of the particle whose index is the last
    Gaussian-point index, whatever [index_i] the call was for.  The three
    hypotheses on [Mat_get] and [Mat_set] are the reading and writing of
    matrix entries. *)
Theorem gaussian_loop_damping_of_last_point (d : BarRelaxationData)
    (thickness_ width_ : list Q) (ctm : Matd) (index_i n : nat)
    (s : GaussianLoopState) (w_n t_n : Q) :
  number_of_gaussian_points_ d = S n →
  loop_in_bounds d thickness_ width_ index_i →
  width_ !! n = Some w_n → thickness_ !! n = Some t_n →
  (∀ v A, Mat_get (Mat_set 1 1 v A) 1 1 = v) →
  (∀ v A, Mat_get (Mat_set 2 2 v A) 2 2 = v) →
  (∀ v A, Mat_get (Mat_set 2 2 v A) 1 1 = Mat_get A 1 1) →
  ∃ s', gaussian_loop d thickness_ width_ ctm index_i s = Some s' ∧
        Mat_get (numerical_damping_scaling_matrix_ s') 1 1 =
          smaller_of w_n (smoothing_length_ d) ∧
        Mat_get (numerical_damping_scaling_matrix_ s') 2 2 =
          smaller_of t_n (smoothing_length_ d).
Proof.
  intros Hn Hb Hw Ht G11 G22 G21.
  assert (is_Some (gaussian_loop d thickness_ width_ ctm index_i s)) as [s' Hs']
    by (rewrite gaussian_loop_unfold; apply gaussian_prefix_is_Some; by right).
  exists s'. split; [done|].
  rewrite gaussian_loop_unfold, Hn, seq_S, foldl_app in Hs'. simpl in Hs'.
  destruct (foldl _ _ (seq 0 n)) as [s1|]; [|done]. simpl in Hs'.
  rewrite (gaussian_point_body_damping _ _ _ _ _ _ _ _ _ _ Hs' Hw Ht).
  by rewrite G21, G11, G22.
Qed.

Lemma gaussian_prefix_mid_surface (d : BarRelaxationData)
    (thickness_ width_ : list Q) (ctm : Matd) (index_i n : nat)
    (s s' : GaussianLoopState) :
  foldl (λ acc i, s0 ← acc;
           gaussian_point_body d thickness_ width_ ctm index_i i s0)
        (Some s) (seq 0 (S n)) = Some s' →
  ∃ s1, gaussian_point_body d thickness_ width_ ctm index_i 0 s = Some s1 ∧
        mid_surface_cauchy_stress_i s' = mid_surface_cauchy_stress_i s1.
Proof.
  revert s'. induction n as [|n IH]; intros s' Hs'.
  - simpl in Hs'. by exists s'.
  - rewrite seq_S, foldl_app in Hs'.
    destruct (foldl _ _ (seq 0 (S n))) as [s2|]; [|done].
    simpl in Hs'. destruct (IH s2 eq_refl) as (s1 & Hs1 & Hmid).
    exists s1. split; [done|]. rewrite <- Hmid.
    by eapply gaussian_point_body_mid_surface.
Qed.

(** X14: when the loop runs to its end over at least one Gaussian point,
    the [mid_surface_cauchy_stress_[index_i]] it leaves is the
    [cauchy_stress] computed in the pass for Gaussian point 0, with the
    damping matrix as that pass set it (from [width_[0]] and
    [thickness_[0]]): the value at entry is overwritten and the later
    passes do not touch it. *)
Theorem gaussian_loop_mid_surface_of_first_point (d : BarRelaxationData)
    (thickness_ width_ : list Q) (ctm : Matd) (index_i n : nat)
    (s : GaussianLoopState)
    (thickness_index_i width_index_i width_0 thickness_0 : Q) :
  number_of_gaussian_points_ d = S n →
  loop_in_bounds d thickness_ width_ index_i →
  thickness_ !! index_i = Some thickness_index_i →
  width_ !! index_i = Some width_index_i →
  width_ !! 0%nat = Some width_0 → thickness_ !! 0%nat = Some thickness_0 →
  ∃ s', gaussian_loop d thickness_ width_ ctm index_i s = Some s' ∧
        mid_surface_cauchy_stress_i s' =
          gaussian_point_cauchy_stress d thickness_index_i width_index_i ctm
            index_i 0
            (Mat_set 2 2 (smaller_of thickness_0 (smoothing_length_ d))
               (Mat_set 1 1 (smaller_of width_0 (smoothing_length_ d))
                  (numerical_damping_scaling_matrix_ s))).
Proof.
  intros Hn Hb Hti Hwi Hw0 Ht0.
  assert (is_Some (gaussian_loop d thickness_ width_ ctm index_i s)) as [s' Hs']
    by (rewrite gaussian_loop_unfold; apply gaussian_prefix_is_Some; by right).
  exists s'. split; [done|].
  rewrite gaussian_loop_unfold, Hn in Hs'.
  destruct (gaussian_prefix_mid_surface d thickness_ width_ ctm index_i n s s' Hs')
    as (s1 & Hs1 & ->).
  unfold gaussian_point_body in Hs1. rewrite Hti, Hwi, Hw0, Ht0 in Hs1.
  cbn [mbind option_bind] in Hs1. by injection Hs1 as <-.
Qed.

End gaussian_loop_facts.

Section gaussian_loop_examples.
Import SlenderStructure.

Lemma gaussian_loop_damping_of_last_point_witness :
  let d := sample_bar 10 2 in
  let s := loop_entry (Mat_scale_r Mat_Identity 10) Mat_Zero in
  ∃ s', gaussian_loop d [2; 6]%Q [1; 5]%Q Mat_Identity 0 s = Some s' ∧
        Mat_get (numerical_damping_scaling_matrix_ s') 1 1 =
          smaller_of 5 (smoothing_length_ d) ∧
        Mat_get (numerical_damping_scaling_matrix_ s') 2 2 =
          smaller_of 6 (smoothing_length_ d).
Proof.
  intros d s.
  apply (gaussian_loop_damping_of_last_point d [2; 6]%Q [1; 5]%Q
           Mat_Identity 0 1 s 5 6); try reflexivity.
  unfold loop_in_bounds. simpl. lia.
Defined.

Lemma gaussian_loop_mid_surface_of_first_point_witness :
  let d := sample_bar 10 2 in
  let s := loop_entry (Mat_scale_r Mat_Identity 10) (Mat_scale_r Mat_Identity 7) in
  ∃ s', gaussian_loop d [2; 6; 4]%Q [1; 5; 3]%Q Mat_Identity 2 s = Some s' ∧
        mid_surface_cauchy_stress_i s' =
          gaussian_point_cauchy_stress d 4 3 Mat_Identity 2 0
            (Mat_set 2 2 (smaller_of 2 (smoothing_length_ d))
               (Mat_set 1 1 (smaller_of 1 (smoothing_length_ d))
                  (numerical_damping_scaling_matrix_ s))).
Proof.
  intros d s.
  apply (gaussian_loop_mid_surface_of_first_point d [2; 6; 4]%Q [1; 5; 3]%Q
           Mat_Identity 2 1 s 4 3 1 2); try reflexivity.
  unfold loop_in_bounds. simpl. lia.
Defined.

Lemma gaussian_loop_out_of_bounds_fails_witness :
  let d := sample_bar 10 4 in
  let s := loop_entry (Mat_scale_r Mat_Identity 10) Mat_Zero in
  gaussian_loop d [2; 6; 2]%Q [1; 5; 1]%Q Mat_Identity 0 s = None.
Proof.
  intros d s.
  apply (gaussian_loop_out_of_bounds_fails d [2; 6; 2]%Q [1; 5; 1]%Q
           Mat_Identity 0 s).
  - discriminate.
  - unfold loop_in_bounds. simpl. lia.
Defined.

End gaussian_loop_examples.

(** ** Slender structure dynamics: constraints, point forces, constructors *)

Section bar_constraint_facts.
Import SlenderStructure.

Lemma write_Some {A} (array : list A) (index : nat) (value : A) :
  (index < length array)%nat →
  write array index value = Some (<[index:=value]> array).
Proof. intros Hi. unfold write. by rewrite decide_True. Qed.

(** X15: for a particle inside the velocity array,
    [ConstrainBarBodyRegionAlongAxis::update] gives the same result whatever
    axis the object was constructed with and whatever [dt]: all three
    components of the particle's velocity become zero, the other
    velocities and every angular velocity are unchanged. *)
Theorem ConstrainBarBodyRegionAlongAxis_update_ignores_axis (axis axis' : Z)
    (index_i : nat) (dt dt' : Q) (particles : BarVelocities) :
  (index_i < length (vel_ particles))%nat →
  ∃ particles',
    ConstrainBarBodyRegionAlongAxis_update axis index_i dt particles
      = Some particles' ∧
    ConstrainBarBodyRegionAlongAxis_update axis' index_i dt' particles
      = Some particles' ∧
    vel_ particles' !! index_i = Some (LevelSet.mkVecd 0 0 0) ∧
    (∀ j, j ≠ index_i → vel_ particles' !! j = vel_ particles !! j) ∧
    angular_vel_ particles' = angular_vel_ particles ∧
    angular_b_vel_ particles' = angular_b_vel_ particles.
Proof.
  intros Hi. unfold ConstrainBarBodyRegionAlongAxis_update.
  rewrite write_Some by done. simpl. eexists. split_and!; try done; simpl.
  - by apply list_lookup_insert_eq.
  - intros j Hj. by apply list_lookup_insert_ne.
Qed.

Lemma ConstrainBarBodyRegionAlongAxis_update_ignores_axis_witness :
  let particles := mkBarVelocities [LevelSet.mkVecd 1 2 3; LevelSet.mkVecd 4 5 6]
                     [LevelSet.mkVecd 7 8 9; LevelSet.mkVecd 1 1 1] [] in
  ∃ particles',
    ConstrainBarBodyRegionAlongAxis_update 0 1 (1 # 10) particles
      = Some particles' ∧
    ConstrainBarBodyRegionAlongAxis_update 2 1 0 particles
      = Some particles' ∧
    vel_ particles' !! 1%nat = Some (LevelSet.mkVecd 0 0 0) ∧
    (∀ j, j ≠ 1%nat → vel_ particles' !! j = vel_ particles !! j) ∧
    angular_vel_ particles' = angular_vel_ particles ∧
    angular_b_vel_ particles' = angular_b_vel_ particles.
Proof.
  intros particles.
  apply (ConstrainBarBodyRegionAlongAxis_update_ignores_axis 0 2 1 (1 # 10) 0
           particles).
  simpl. lia.
Defined.

Lemma ConstrainBarBodyRegion_update_Some (index_i : nat) (dt : Q)
    (particles : BarVelocities) :
  velocities_in_bounds index_i particles →
  ConstrainBarBodyRegion_update index_i dt particles =
    Some (mkBarVelocities
            (<[index_i:=Vecd_Zero]> (vel_ particles))
            (<[index_i:=Vecd_Zero]> (angular_vel_ particles))
            (<[index_i:=Vecd_Zero]> (angular_b_vel_ particles))).
Proof.
  intros (H1 & H2 & H3). unfold ConstrainBarBodyRegion_update.
  by rewrite !write_Some.
Qed.

(** X16: [ConstrainBarBodyRegion::update] fails exactly on a particle
    outside one of the three arrays; on particles inside them it is
    idempotent, and the updates of two particles commute, so the order in
    which the particles of a body part are visited does not matter. *)
Theorem ConstrainBarBodyRegion_update_idempotent_commutes (index_i index_j : nat)
    (dt : Q) (particles : BarVelocities) :
  (is_Some (ConstrainBarBodyRegion_update index_i dt particles) ↔
     velocities_in_bounds index_i particles) ∧
  (velocities_in_bounds index_i particles →
   velocities_in_bounds index_j particles →
   ∃ after_i after_j after_both,
     ConstrainBarBodyRegion_update index_i dt particles = Some after_i ∧
     ConstrainBarBodyRegion_update index_i dt after_i = Some after_i ∧
     ConstrainBarBodyRegion_update index_j dt particles = Some after_j ∧
     ConstrainBarBodyRegion_update index_j dt after_i = Some after_both ∧
     ConstrainBarBodyRegion_update index_i dt after_j = Some after_both).
Proof.
  split.
  - split; [|intros Hb; rewrite ConstrainBarBodyRegion_update_Some; eauto].
    unfold ConstrainBarBodyRegion_update, write, velocities_in_bounds.
    repeat case_decide; simpl; intros [? ?]; done.
  - intros Hi Hj.
    assert (∀ k q, velocities_in_bounds k q → ∀ m,
              velocities_in_bounds k
                (mkBarVelocities (<[m:=Vecd_Zero]> (vel_ q))
                   (<[m:=Vecd_Zero]> (angular_vel_ q))
                   (<[m:=Vecd_Zero]> (angular_b_vel_ q)))) as Hkeep.
    { intros k q (? & ? & ?) m. unfold velocities_in_bounds. simpl.
      by rewrite !length_insert. }
    exists (mkBarVelocities (<[index_i:=Vecd_Zero]> (vel_ particles))
              (<[index_i:=Vecd_Zero]> (angular_vel_ particles))
              (<[index_i:=Vecd_Zero]> (angular_b_vel_ particles))),
           (mkBarVelocities (<[index_j:=Vecd_Zero]> (vel_ particles))
              (<[index_j:=Vecd_Zero]> (angular_vel_ particles))
              (<[index_j:=Vecd_Zero]> (angular_b_vel_ particles))),
           (mkBarVelocities
              (<[index_j:=Vecd_Zero]> (<[index_i:=Vecd_Zero]> (vel_ particles)))
              (<[index_j:=Vecd_Zero]> (<[index_i:=Vecd_Zero]> (angular_vel_ particles)))
              (<[index_j:=Vecd_Zero]> (<[index_i:=Vecd_Zero]> (angular_b_vel_ particles)))).
    split_and!.
    + by apply ConstrainBarBodyRegion_update_Some.
    + rewrite ConstrainBarBodyRegion_update_Some by by apply Hkeep.
      simpl. by rewrite !list_insert_insert_eq.
    + by apply ConstrainBarBodyRegion_update_Some.
    + rewrite ConstrainBarBodyRegion_update_Some by by apply Hkeep. done.
    + rewrite ConstrainBarBodyRegion_update_Some by by apply Hkeep.
      simpl. destruct (decide (index_i = index_j)) as [->|Hne]; [done|].
      do 2 f_equal; by apply list_insert_insert_ne.
Qed.

Lemma ConstrainBarBodyRegion_update_idempotent_commutes_witness :
  let particles :=
    mkBarVelocities [LevelSet.mkVecd 1 2 3; LevelSet.mkVecd 4 5 6]
      [LevelSet.mkVecd 7 8 9; LevelSet.mkVecd 1 1 1]
      [LevelSet.mkVecd 2 2 2; LevelSet.mkVecd 3 3 3] in
  ∃ after_i after_j after_both,
    ConstrainBarBodyRegion_update 0 (1 # 10) particles = Some after_i ∧
    ConstrainBarBodyRegion_update 0 (1 # 10) after_i = Some after_i ∧
    ConstrainBarBodyRegion_update 1 (1 # 10) particles = Some after_j ∧
    ConstrainBarBodyRegion_update 1 (1 # 10) after_i = Some after_both ∧
    ConstrainBarBodyRegion_update 0 (1 # 10) after_j = Some after_both.
Proof.
  intros particles.
  apply (ConstrainBarBodyRegion_update_idempotent_commutes 0 1 (1 # 10) particles);
    unfold velocities_in_bounds; simpl; lia.
Defined.

End bar_constraint_facts.

Section point_force_facts.
Import SlenderStructure.





Lemma Qsum_snoc (row : list Q) (x : Q) : (Qsum (row ++ [x]) == Qsum row + x)%Q.
Proof.
  induction row as [|y row IH]; unfold Qsum in *; simpl; [lra|].
  rewrite IH. lra.
Qed.

Lemma Qsum_nonneg (row : list Q) : Forall (λ x, 0 <= x)%Q row → (0 <= Qsum row)%Q.
Proof.
  induction 1 as [|x row Hx _ IH]; unfold Qsum in *; simpl; lra.
Qed.

Lemma stored_prefix_step {A} (f : A → Q) (pos0_ : list A) (row : list Q)
    (k : nat) (position : A) :
  pos0_ !! k = Some position → (k < length row)%nat →
  <[k:=f position]> ((f <$> take k pos0_) ++ drop k row) =
    (f <$> take (S k) pos0_) ++ drop (S k) row.
Proof.
  intros Hp Hk.
  assert (length (f <$> take k pos0_) = k) as Hpre.
  { rewrite length_fmap, length_take. apply lookup_lt_Some in Hp. lia. }
  destruct (lookup_lt_is_Some_2 row k Hk) as [x Hx].
  rewrite insert_app_r_alt by lia. rewrite Hpre, Nat.sub_diag.
  rewrite (drop_S _ _ _ Hx). simpl.
  rewrite (take_S_r _ _ _ Hp), fmap_app. simpl.
  by rewrite <- (assoc_L (++)).
Qed.

Lemma weight_of_particle_far (kernel_W : Q → LevelSet.Vecd → Q)
    (h_ratio cutoff_radius_sqr : Q) (reference_position position : LevelSet.Vecd) :
  (cutoff_radius_sqr < squaredNorm (Vecd_sub reference_position position))%Q →
  weight_of_particle kernel_W h_ratio cutoff_radius_sqr reference_position position
    = 0%Q.
Proof.
  intros Hfar. unfold weight_of_particle. cbn zeta.
  destruct (Qle_bool _ cutoff_radius_sqr) eqn:E; [|done].
  apply Qle_bool_iff in E. lra.
Qed.

Lemma getWeight_particle_run (kernel_W : Q → LevelSet.Vecd → Q) (h_ratio c : Q)
    (reference_positions_ pos0_ : list LevelSet.Vecd) (i index : nat)
    (weight_ : list (list Q)) (sum_of_weight_ : list Q)
    (reference_position position : LevelSet.Vecd) (weight_i : list Q) (sum : Q) :
  weight_ !! i = Some weight_i → (index < length weight_i)%nat →
  reference_positions_ !! i = Some reference_position →
  pos0_ !! index = Some position →
  sum_of_weight_ !! i = Some sum →
  getWeight_particle kernel_W h_ratio c reference_positions_ pos0_ i
    (weight_, sum_of_weight_) index =
  Some (<[i:=<[index:=weight_of_particle kernel_W h_ratio c reference_position
                        position]> weight_i]> weight_,
        if Qle_bool (squaredNorm (Vecd_sub reference_position position)) c
        then <[i:=(sum + kernel_W h_ratio (Vecd_sub reference_position position))%Q]>
               sum_of_weight_
        else sum_of_weight_).
Proof.
  intros Hrow Hindex Href Hpos Hsum.
  unfold getWeight_particle, weight_of_particle. cbn [fst snd].
  rewrite Hrow. cbn [mbind option_bind]. rewrite write_Some by done.
  cbn [mbind option_bind]. rewrite Href. cbn [mbind option_bind].
  rewrite Hpos. cbn [mbind option_bind]. cbn zeta.
  destruct (Qle_bool _ c).
  - rewrite write_Some by (rewrite length_insert; lia).
    cbn [mbind option_bind]. rewrite Hsum. cbn [mbind option_bind].
    rewrite write_Some by (by eapply lookup_lt_Some).
    cbn [mbind option_bind]. by rewrite list_insert_insert_eq.
  - done.
Qed.

(** The inner loop of [getWeight] over the first [k] particles. *)
Lemma getWeight_particles_prefix (kernel_W : Q → LevelSet.Vecd → Q) (h_ratio c : Q)
    (reference_positions_ pos0_ : list LevelSet.Vecd) (i : nat)
    (weight_ : list (list Q)) (sum_of_weight_ : list Q)
    (reference_position : LevelSet.Vecd) (weight_i : list Q) (k : nat) :
  reference_positions_ !! i = Some reference_position →
  weight_ !! i = Some weight_i → (i < length sum_of_weight_)%nat →
  (k ≤ length weight_i)%nat → (k ≤ length pos0_)%nat →
  ∃ sum,
    foldl (λ acc index,
             members ← acc;
             getWeight_particle kernel_W h_ratio c reference_positions_ pos0_
               i members index)
          (Some (weight_, <[i:=0%Q]> sum_of_weight_)) (seq 0 k) =
      Some (<[i:=(weight_of_particle kernel_W h_ratio c reference_position
                    <$> take k pos0_) ++ drop k weight_i]> weight_,
            <[i:=sum]> sum_of_weight_) ∧
    (sum == Qsum (weight_of_particle kernel_W h_ratio c reference_position
                    <$> take k pos0_))%Q.
Proof.
  intros Href Hrow Hi. pose proof (lookup_lt_Some _ _ _ Hrow) as Hiw.
  induction k as [|k IH]; intros Hk Hp.
  - exists 0%Q. split; [|reflexivity]. simpl.
    by rewrite drop_0, (list_insert_id _ _ _ Hrow).
  - destruct IH as (sum & Hrun & Hsum); [lia|lia|].
    destruct (lookup_lt_is_Some_2 pos0_ k) as [position Hpos]; [lia|].
    rewrite seq_S, foldl_app, Hrun. clear Hrun.
    change (0 + k)%nat with k.
    set (wp := weight_of_particle kernel_W h_ratio c reference_position) in *.
    pose proof (stored_prefix_step wp pos0_ weight_i k position Hpos ltac:(lia))
      as Hstep.
    assert (Qsum (wp <$> take (S k) pos0_) ==
            Qsum (wp <$> take k pos0_) + wp position)%Q as Hnext.
    { rewrite (take_S_r _ _ _ Hpos), fmap_app. apply Qsum_snoc. }
    assert (length ((wp <$> take k pos0_) ++ drop k weight_i) = length weight_i)
      as Hlen.
    { rewrite length_app, length_fmap, length_take, length_drop. lia. }
    rewrite <- Hstep. clear Hstep.
    cbn [foldl mbind option_bind].
    rewrite (getWeight_particle_run kernel_W h_ratio c reference_positions_ pos0_
               i k _ _ reference_position position
               ((wp <$> take k pos0_) ++ drop k weight_i) sum);
      [|by apply list_lookup_insert_eq|lia|done|done
       |by apply list_lookup_insert_eq].
    rewrite list_insert_insert_eq. fold wp.
    assert (wp position =
            if Qle_bool (squaredNorm (Vecd_sub reference_position position)) c
            then kernel_W h_ratio (Vecd_sub reference_position position)
            else 0%Q) as Hwp by done.
    destruct (Qle_bool _ c); rewrite Hwp in Hnext.
    + eexists. split; [by rewrite list_insert_insert_eq|].
      rewrite Hnext, Hsum. reflexivity.
    + exists sum. split; [done|]. rewrite Hnext, Hsum. lra.
Qed.

(** One pass of the outer loop of [getWeight]. *)
Lemma getWeight_row_run (kernel_W : Q → LevelSet.Vecd → Q) (h_ratio c : Q)
    (reference_positions_ pos0_ : list LevelSet.Vecd) (total_real_particles_ i : nat)
    (weight_ : list (list Q)) (sum_of_weight_ : list Q)
    (reference_position : LevelSet.Vecd) (weight_i : list Q) :
  reference_positions_ !! i = Some reference_position →
  weight_ !! i = Some weight_i → (i < length sum_of_weight_)%nat →
  (total_real_particles_ ≤ length weight_i)%nat →
  (total_real_particles_ ≤ length pos0_)%nat →
  ∃ sum,
    getWeight_row kernel_W h_ratio c reference_positions_ pos0_
      total_real_particles_ (weight_, sum_of_weight_) i =
      Some (<[i:=(weight_of_particle kernel_W h_ratio c reference_position
                    <$> take total_real_particles_ pos0_)
                 ++ drop total_real_particles_ weight_i]> weight_,
            <[i:=sum]> sum_of_weight_) ∧
    (sum == Qsum (weight_of_particle kernel_W h_ratio c reference_position
                    <$> take total_real_particles_ pos0_))%Q.
Proof.
  intros Href Hrow Hi Hk Hp. unfold getWeight_row. cbn [fst snd].
  rewrite write_Some by done. cbn [mbind option_bind].
  by apply getWeight_particles_prefix.
Qed.

(** The outer loop of [getWeight] over the first [k] point forces. *)
Lemma getWeight_prefix (kernel_W : Q → LevelSet.Vecd → Q) (h_ratio c : Q)
    (reference_positions_ pos0_ : list LevelSet.Vecd)
    (number_of_point_forces total_real_particles_ : nat)
    (members : list (list Q) * list Q) (k : nat) :
  weights_allocated number_of_point_forces total_real_particles_
    reference_positions_ pos0_ members →
  (k ≤ number_of_point_forces)%nat →
  ∃ members',
    foldl (λ acc i,
             members ← acc;
             getWeight_row kernel_W h_ratio c reference_positions_ pos0_
               total_real_particles_ members i)
          (Some members) (seq 0 k) = Some members' ∧
    length members'.1 = length members.1 ∧
    length members'.2 = length members.2 ∧
    (∀ i, (k ≤ i)%nat →
       members'.1 !! i = members.1 !! i ∧ members'.2 !! i = members.2 !! i) ∧
    (∀ i reference_position weight_i, (i < k)%nat →
       reference_positions_ !! i = Some reference_position →
       members.1 !! i = Some weight_i →
       ∃ sum,
         members'.1 !! i =
           Some ((weight_of_particle kernel_W h_ratio c reference_position
                    <$> take total_real_particles_ pos0_)
                 ++ drop total_real_particles_ weight_i) ∧
         members'.2 !! i = Some sum ∧
         (sum == Qsum (weight_of_particle kernel_W h_ratio c reference_position
                         <$> take total_real_particles_ pos0_))%Q).
Proof.
  intros (Hw & Hs & Hr & Hp & Hrows). induction k as [|k IH]; intros Hk.
  - exists members. split_and!; try done. intros i ? ? ?. lia.
  - destruct IH as ([weight_k sum_k] & Hrun & Hlw & Hls & Hrest & Hdone); [lia|].
    cbn [fst snd] in *.
    rewrite seq_S, foldl_app, Hrun. clear Hrun. change (0 + k)%nat with k.
    cbn [foldl mbind option_bind].
    destruct (lookup_lt_is_Some_2 reference_positions_ k) as [ref Href]; [lia|].
    destruct (lookup_lt_is_Some_2 members.1 k) as [row Hrow]; [lia|].
    destruct (Hrest k) as [Hrow_k _]; [lia|]. rewrite Hrow in Hrow_k.
    destruct (getWeight_row_run kernel_W h_ratio c reference_positions_ pos0_
                total_real_particles_ k weight_k sum_k ref row)
      as (sum & Hrow_run & Hsum); [done|done|lia|by eapply Hrows|done|].
    rewrite Hrow_run. eexists. split; [done|]. cbn [fst snd].
    split_and!.
    + by rewrite length_insert.
    + by rewrite length_insert.
    + intros i Hi. rewrite !list_lookup_insert_ne by lia. apply Hrest. lia.
    + intros i ref' row' Hi Href' Hrow'.
      destruct (decide (i = k)) as [->|Hne].
      * rewrite Href in Href'. rewrite Hrow in Hrow'.
        injection Href' as <-. injection Hrow' as <-.
        exists sum. rewrite !list_lookup_insert_eq by lia. done.
      * rewrite !list_lookup_insert_ne by lia.
        apply Hdone; [lia|done|done].
Qed.

(** X18: for a smoothing length that is not zero and arrays that have room,
    [getWeight] runs to its end and leaves,
    for every point force, the kernel value as the weight of each real
    particle whose squared distance from the reference position is at most
    the squared cut-off radius, exactly zero as the weight of every other
    real particle, and the sum of these weights in [sum_of_weight_]; what
    the row held beyond the real particles, and the rows and sums beyond
    the point forces, are as before. *)
Theorem getWeight_weights_and_sums (kernel_W : Q → LevelSet.Vecd → Q)
    (reference_smoothing_length h_spacing_ratio_ particle_spacing_ref_ : Q)
    (point_forces_ reference_positions_ pos0_ : list LevelSet.Vecd)
    (total_real_particles_ : nat) (members : list (list Q) * list Q) :
  ¬ (h_spacing_ratio_ * particle_spacing_ref_ == 0)%Q →
  weights_allocated (length point_forces_) total_real_particles_
    reference_positions_ pos0_ members →
  ∃ members',
    getWeight kernel_W reference_smoothing_length h_spacing_ratio_
      particle_spacing_ref_ point_forces_ reference_positions_ pos0_
      total_real_particles_ members = Some members' ∧
    (∀ i, (length point_forces_ ≤ i)%nat →
       members'.1 !! i = members.1 !! i ∧ members'.2 !! i = members.2 !! i) ∧
    ∀ i reference_position weight_before,
      (i < length point_forces_)%nat →
      reference_positions_ !! i = Some reference_position →
      members.1 !! i = Some weight_before →
      ∃ weight_i sum,
        members'.1 !! i = Some weight_i ∧ members'.2 !! i = Some sum ∧
        (sum == Qsum (take total_real_particles_ weight_i))%Q ∧
        drop total_real_particles_ weight_i =
          drop total_real_particles_ weight_before ∧
        ∀ index position, (index < total_real_particles_)%nat →
          pos0_ !! index = Some position →
          let displacement := Vecd_sub reference_position position in
          weight_i !! index =
            Some (if Qle_bool (squaredNorm displacement)
                       ((2 * (h_spacing_ratio_ * particle_spacing_ref_)) ^ 2)%Q
                  then kernel_W (reference_smoothing_length /
                                 (h_spacing_ratio_ * particle_spacing_ref_))%Q
                         displacement
                  else 0%Q).
Proof.
  intros _ Halloc. unfold getWeight. cbn zeta.
  pose proof Halloc as (_ & _ & _ & Hp & Hrows).
  destruct (getWeight_prefix kernel_W
              (reference_smoothing_length / (h_spacing_ratio_ * particle_spacing_ref_))
              ((2 * (h_spacing_ratio_ * particle_spacing_ref_)) ^ 2)
              reference_positions_ pos0_ (length point_forces_)
              total_real_particles_ members (length point_forces_) Halloc
              ltac:(lia))
    as (members' & Hrun & _ & _ & Hrest & Hdone).
  exists members'. split_and!; [done|done|].
  intros i ref row Hi Href Hrow.
  destruct (Hdone i ref row Hi Href Hrow) as (sum & Hw & Hs & Hsum).
  pose proof (Hrows i row Hi Hrow) as Hlen.
  set (wp := weight_of_particle kernel_W
               (reference_smoothing_length / (h_spacing_ratio_ * particle_spacing_ref_))
               ((2 * (h_spacing_ratio_ * particle_spacing_ref_)) ^ 2) ref) in *.
  assert (length (wp <$> take total_real_particles_ pos0_) = total_real_particles_)
    as Hpre by (rewrite length_fmap, length_take; lia).
  eexists _, sum. split_and!; [done|done| | |].
  - rewrite take_app_length' by done. done.
  - by rewrite drop_app_length' by done.
  - intros index position Hindex Hpos.
    rewrite lookup_app_l by lia.
    rewrite list_lookup_fmap, lookup_take_lt by lia. by rewrite Hpos.
Qed.

Lemma getWeight_weights_and_sums_witness :
  let members := ([[7; 7; 7]; [7; 7; 7]]%Q, [7; 7]%Q) in
  let pos0_ := [LevelSet.mkVecd 1 0 0; LevelSet.mkVecd 10 0 0] in
  ∃ members',
    getWeight (λ _ _, 1%Q) 1 1 1 [LevelSet.mkVecd 0 0 9] [LevelSet.mkVecd 0 0 0]
      pos0_ 2 members = Some members' ∧
    (∀ i, (length [LevelSet.mkVecd 0 0 9] ≤ i)%nat →
       members'.1 !! i = members.1 !! i ∧ members'.2 !! i = members.2 !! i) ∧
    ∀ i reference_position weight_before,
      (i < length [LevelSet.mkVecd 0 0 9])%nat →
      [LevelSet.mkVecd 0 0 0] !! i = Some reference_position →
      members.1 !! i = Some weight_before →
      ∃ weight_i sum,
        members'.1 !! i = Some weight_i ∧ members'.2 !! i = Some sum ∧
        (sum == Qsum (take 2 weight_i))%Q ∧
        drop 2 weight_i = drop 2 weight_before ∧
        ∀ index position, (index < 2)%nat →
          pos0_ !! index = Some position →
          let displacement := Vecd_sub reference_position position in
          weight_i !! index =
            Some (if Qle_bool (squaredNorm displacement) ((2 * (1 * 1)) ^ 2)%Q
                  then (λ _ _, 1%Q) (1 / (1 * 1))%Q displacement
                  else 0%Q).
Proof.
  intros members pos0_.
  apply (getWeight_weights_and_sums (λ _ _, 1%Q) 1 1 1 [LevelSet.mkVecd 0 0 9]
           [LevelSet.mkVecd 0 0 0] pos0_ 2 members).
  - unfold Qeq. simpl. lia.
  - unfold weights_allocated. simpl. split_and!; try lia.
    intros [|[|i]] weight_i Hi; [|lia|lia]. intros [= <-]. simpl. lia.
Defined.

Lemma Vecd_add_zero_weight (f F : LevelSet.Vecd) (x : Q) :
  Vecd_equiv f Vecd_Zero →
  Vecd_equiv (Vecd_add f (Vecd_scale (0 / x) F)) Vecd_Zero.
Proof.
  intros (H1 & H2 & H3). unfold Vecd_equiv, Vecd_add, Vecd_scale. simpl in *.
  assert (0 / x == 0)%Q as Hz by (unfold Qdiv; apply Qmult_0_l).
  rewrite H1, H2, H3, Hz. split_and!; ring.
Qed.

Lemma Vecd_equiv_refl (u : LevelSet.Vecd) : Vecd_equiv u u.
Proof. unfold Vecd_equiv. split_and!; reflexivity. Qed.

(** The weights and sums [getWeight] leaves: for every point force a row
    with room for the real particles and the sum of their weights. *)
Lemma getWeight_leaves_rows (kernel_W : Q → LevelSet.Vecd → Q) (h_ratio c : Q)
    (reference_positions_ pos0_ : list LevelSet.Vecd)
    (number_of_point_forces total_real_particles_ : nat)
    (members : list (list Q) * list Q) :
  weights_allocated number_of_point_forces total_real_particles_
    reference_positions_ pos0_ members →
  ∃ members',
    foldl (λ acc i,
             members ← acc;
             getWeight_row kernel_W h_ratio c reference_positions_ pos0_
               total_real_particles_ members i)
          (Some members) (seq 0 number_of_point_forces) = Some members' ∧
    ∀ i, (i < number_of_point_forces)%nat →
      ∃ reference_position weight_i sum,
        reference_positions_ !! i = Some reference_position ∧
        members'.1 !! i = Some weight_i ∧ members'.2 !! i = Some sum ∧
        (total_real_particles_ ≤ length weight_i)%nat ∧
        take total_real_particles_ weight_i =
          (weight_of_particle kernel_W h_ratio c reference_position
             <$> take total_real_particles_ pos0_) ∧
        (sum == Qsum (take total_real_particles_ weight_i))%Q ∧
        ((∀ h displacement, 0 <= kernel_W h displacement)%Q → (0 <= sum)%Q).
Proof.
  intros Halloc. pose proof Halloc as (Hw & _ & Hr & Hp & Hrows).
  destruct (getWeight_prefix kernel_W h_ratio c reference_positions_ pos0_
              number_of_point_forces total_real_particles_ members
              number_of_point_forces Halloc ltac:(lia))
    as (members' & Hrun & _ & _ & _ & Hdone).
  exists members'. split; [done|]. intros i Hi.
  destruct (lookup_lt_is_Some_2 reference_positions_ i) as [ref Href]; [lia|].
  destruct (lookup_lt_is_Some_2 members.1 i) as [row Hrow]; [lia|].
  destruct (Hdone i ref row Hi Href Hrow) as (sum & Hw' & Hs' & Hsum).
  pose proof (Hrows i row Hi Hrow) as Hlen.
  assert (length (weight_of_particle kernel_W h_ratio c ref
                    <$> take total_real_particles_ pos0_) = total_real_particles_)
    as Hpre by (rewrite length_fmap, length_take; lia).
  eexists ref, _, sum. split_and!; [done|done|done| | | |].
  - rewrite length_app, Hpre, length_drop. lia.
  - by rewrite take_app_length' by done.
  - by rewrite take_app_length' by done.
  - intros Hkernel. rewrite Hsum. apply Qsum_nonneg.
    apply Forall_fmap, Forall_forall. intros position _. simpl.
    unfold weight_of_particle. cbn zeta.
    destruct (Qle_bool _ c); [apply Hkernel|lra].
Qed.

(** The loop of [update] over the first [k] point forces, for every real
    particle at once. *)
Lemma update_prefix (TinyReal : Q) (members : list (list Q) * list Q)
    (time_dependent_point_forces_ : list LevelSet.Vecd)
    (number_of_point_forces total_real_particles_ k : nat) :
  (∀ i, (i < number_of_point_forces)%nat →
     ∃ weight_i sum,
       members.1 !! i = Some weight_i ∧ members.2 !! i = Some sum ∧
       (total_real_particles_ ≤ length weight_i)%nat) →
  (number_of_point_forces ≤ length time_dependent_point_forces_)%nat →
  (k ≤ number_of_point_forces)%nat →
  ∃ forces,
    length forces = total_real_particles_ ∧
    (∀ index_i force force_prior_,
       forces !! index_i = Some force → (index_i < length force_prior_)%nat →
       foldl (λ acc i,
                force_prior_ ← acc;
                update_point_force TinyReal members time_dependent_point_forces_
                  index_i force_prior_ i)
             (Some (<[index_i:=Vecd_Zero]> force_prior_)) (seq 0 k) =
         Some (<[index_i:=force]> force_prior_)) ∧
    (∀ index_i force,
       forces !! index_i = Some force →
       (∀ i weight_i, (i < k)%nat → members.1 !! i = Some weight_i →
          weight_i !! index_i = Some 0%Q) →
       Vecd_equiv force Vecd_Zero).
Proof.
  intros Hrows Hf. induction k as [|k IH]; intros Hk.
  - exists (replicate total_real_particles_ Vecd_Zero). split_and!.
    + apply length_replicate.
    + intros index_i force fp [-> _]%lookup_replicate _. done.
    + intros index_i force [-> _]%lookup_replicate _. apply Vecd_equiv_refl.
  - destruct IH as (forces & Hlen & Hrun & Hzero); [lia|].
    destruct (Hrows k) as (row & sum & Hrow & Hs & Hrowlen); [lia|].
    destruct (lookup_lt_is_Some_2 time_dependent_point_forces_ k) as [F HF]; [lia|].
    exists (zip_with (λ f w, Vecd_add f (Vecd_scale (w / (sum + TinyReal)) F))
              forces (take total_real_particles_ row)).
    split_and!.
    + rewrite length_zip_with, length_take. lia.
    + intros index_i force fp Hforce Hi.
      apply lookup_zip_with_Some in Hforce as (f & w & -> & Hfi & Hwi).
      apply lookup_take_Some in Hwi as [Hwi _].
      rewrite seq_S, foldl_app, (Hrun index_i f fp Hfi Hi).
      change (0 + k)%nat with k. cbn [foldl mbind option_bind].
      unfold update_point_force. rewrite Hrow. cbn [mbind option_bind].
      rewrite Hwi. cbn [mbind option_bind]. rewrite Hs.
      cbn [mbind option_bind]. rewrite HF. cbn [mbind option_bind]. cbn zeta.
      rewrite list_lookup_insert_eq by done. cbn [mbind option_bind].
      rewrite write_Some by (by rewrite length_insert).
      by rewrite list_insert_insert_eq.
    + intros index_i force Hforce Hfar.
      apply lookup_zip_with_Some in Hforce as (f & w & -> & Hfi & Hwi).
      apply lookup_take_Some in Hwi as [Hwi _].
      rewrite (Hfar k row ltac:(lia) Hrow) in Hwi. injection Hwi as <-.
      apply Vecd_add_zero_weight. apply (Hzero index_i f Hfi).
      intros i weight_i Hi. apply Hfar. lia.
Qed.

(** X19: [getWeight] followed by [update], for a kernel that is nowhere
    negative and a positive [TinyReal]: no divisor of [update] is zero, and
    a real particle whose squared distance from every reference position
    exceeds the squared cut-off radius [(2 * smoothing_length)^2] is left
    with a zero prior force, whatever the point forces, the kernel and the
    other particles are; the prior forces of the other particles are not
    touched. *)
Theorem distributed_force_zero_beyond_cutoff (kernel_W : Q → LevelSet.Vecd → Q)
    (reference_smoothing_length h_spacing_ratio_ particle_spacing_ref_ TinyReal : Q)
    (point_forces_ reference_positions_ pos0_ time_dependent_point_forces_
       force_prior_ : list LevelSet.Vecd)
    (total_real_particles_ : nat) (members : list (list Q) * list Q)
    (index_i : nat) (position : LevelSet.Vecd) :
  (0 < TinyReal)%Q →
  (∀ h displacement, 0 <= kernel_W h displacement)%Q →
  weights_allocated (length point_forces_) total_real_particles_
    reference_positions_ pos0_ members →
  (length point_forces_ ≤ length time_dependent_point_forces_)%nat →
  (index_i < total_real_particles_)%nat → (index_i < length force_prior_)%nat →
  pos0_ !! index_i = Some position →
  (∀ i reference_position, (i < length point_forces_)%nat →
     reference_positions_ !! i = Some reference_position →
     ((2 * (h_spacing_ratio_ * particle_spacing_ref_)) ^ 2 <
      squaredNorm (Vecd_sub reference_position position))%Q) →
  ∃ members' force_prior' force,
    getWeight kernel_W reference_smoothing_length h_spacing_ratio_
      particle_spacing_ref_ point_forces_ reference_positions_ pos0_
      total_real_particles_ members = Some members' ∧
    (∀ i, (i < length point_forces_)%nat →
       ∃ sum, members'.2 !! i = Some sum ∧ (0 < sum + TinyReal)%Q) ∧
    DistributingPointForcesToBar_update TinyReal members'
      time_dependent_point_forces_ (length point_forces_) index_i force_prior_
      = Some force_prior' ∧
    force_prior' !! index_i = Some force ∧
    Vecd_equiv force Vecd_Zero ∧
    ∀ index_j, index_j ≠ index_i →
      force_prior' !! index_j = force_prior_ !! index_j.
Proof.
  intros Htiny Hkernel Halloc Hf Hreal Hi Hpos Hfar. unfold getWeight. cbn zeta.
  destruct (getWeight_leaves_rows kernel_W
              (reference_smoothing_length / (h_spacing_ratio_ * particle_spacing_ref_))
              ((2 * (h_spacing_ratio_ * particle_spacing_ref_)) ^ 2)
              reference_positions_ pos0_ (length point_forces_)
              total_real_particles_ members Halloc) as (members' & Hrun & Hrows).
  destruct (update_prefix TinyReal members' time_dependent_point_forces_
              (length point_forces_) total_real_particles_ (length point_forces_))
    as (forces & Hlen & Hupdate & Hzero); [|done|done|].
  { intros i Hlt.
    destruct (Hrows i Hlt) as (ref & row & sum & _ & Hw & Hs & Hl & _ & Hsum & _).
    by exists row, sum. }
  destruct (lookup_lt_is_Some_2 forces index_i) as [force Hforce]; [lia|].
  exists members', (<[index_i:=force]> force_prior_), force.
  split_and!; [done| | | | |].
  - intros i Hlt.
    destruct (Hrows i Hlt) as (ref & row & sum & _ & _ & Hs & _ & _ & _ & Hpos0).
    exists sum. split; [done|]. specialize (Hpos0 Hkernel). lra.
  - unfold DistributingPointForcesToBar_update. rewrite write_Some by done.
    cbn [mbind option_bind]. by apply Hupdate.
  - by apply list_lookup_insert_eq.
  - apply (Hzero index_i force Hforce). intros i row Hlt Hrow.
    destruct (Hrows i Hlt) as (ref & row' & sum & Href & Hw & _ & Hl & Htake & _).
    rewrite Hrow in Hw. injection Hw as <-.
    rewrite <- (lookup_take_lt row total_real_particles_ index_i) by done.
    rewrite Htake, list_lookup_fmap, lookup_take_lt, Hpos by done.
    cbn [fmap option_fmap option_map]. f_equal.
    apply weight_of_particle_far. by eapply Hfar.
  - intros index_j Hne. by apply list_lookup_insert_ne.
Qed.

Lemma distributed_force_zero_beyond_cutoff_witness :
  ∃ members' force_prior' force,
    getWeight (λ _ _, 1%Q) 1 1 1 [LevelSet.mkVecd 0 0 9] [LevelSet.mkVecd 0 0 0]
      [LevelSet.mkVecd 1 0 0; LevelSet.mkVecd 10 0 0] 2
      ([[7; 7; 7]]%Q, [7]%Q) = Some members' ∧
    (∀ i, (i < length [LevelSet.mkVecd 0 0 9])%nat →
       ∃ sum, members'.2 !! i = Some sum ∧ (0 < sum + (1 # 1000000))%Q) ∧
    DistributingPointForcesToBar_update (1 # 1000000) members'
      [LevelSet.mkVecd 0 0 9] (length [LevelSet.mkVecd 0 0 9]) 1
      [LevelSet.mkVecd 5 5 5; LevelSet.mkVecd 5 5 5] = Some force_prior' ∧
    force_prior' !! 1%nat = Some force ∧
    Vecd_equiv force Vecd_Zero ∧
    ∀ index_j, index_j ≠ 1%nat →
      force_prior' !! index_j =
        [LevelSet.mkVecd 5 5 5; LevelSet.mkVecd 5 5 5] !! index_j.
Proof.
  apply (distributed_force_zero_beyond_cutoff (λ _ _, 1%Q) 1 1 1 (1 # 1000000)
           [LevelSet.mkVecd 0 0 9] [LevelSet.mkVecd 0 0 0]
           [LevelSet.mkVecd 1 0 0; LevelSet.mkVecd 10 0 0]
           [LevelSet.mkVecd 0 0 9]
           [LevelSet.mkVecd 5 5 5; LevelSet.mkVecd 5 5 5] 2
           ([[7; 7; 7]]%Q, [7]%Q) 1 (LevelSet.mkVecd 10 0 0)).
  - reflexivity.
  - intros _ _. unfold Qle. simpl. lia.
  - unfold weights_allocated. simpl. split_and!; try lia.
    intros [|i] weight_i Hlt; [|lia]. intros [= <-]. simpl. lia.
  - simpl. lia.
  - lia.
  - simpl. lia.
  - reflexivity.
  - intros [|i] reference_position Hlt; [|simpl in Hlt; lia].
    intros [= <-]. reflexivity.
Defined.

Lemma Qsum_entry_le (row : list Q) (index : nat) (weight : Q) :
  Forall (λ x, 0 <= x)%Q row → row !! index = Some weight →
  (0 <= weight ∧ weight <= Qsum row)%Q.
Proof.
  intros Hrow. revert index.
  induction Hrow as [|x row Hx Hrow IH]; intros [|index] Hw; try done.
  - injection Hw as <-. pose proof (Qsum_nonneg row Hrow).
    unfold Qsum in *. simpl. lra.
  - destruct (IH index Hw). unfold Qsum in *. simpl. lra.
Qed.

Lemma weighted_sum_snoc (terms : list (Q * LevelSet.Vecd)) (c : Q)
    (F : LevelSet.Vecd) :
  weighted_sum (terms ++ [(c, F)]) = Vecd_add (weighted_sum terms) (Vecd_scale c F).
Proof. unfold weighted_sum. by rewrite foldl_app. Qed.

(** The loop of [update] over the first [k] point forces, for one
    particle. *)
Lemma update_shares_prefix (TinyReal : Q) (members : list (list Q) * list Q)
    (time_dependent_point_forces_ : list LevelSet.Vecd)
    (number_of_point_forces index_i k : nat) :
  (0 < TinyReal)%Q →
  (∀ i, (i < number_of_point_forces)%nat →
     ∃ weight_i weight sum,
       members.1 !! i = Some weight_i ∧ weight_i !! index_i = Some weight ∧
       members.2 !! i = Some sum ∧ (0 <= weight)%Q ∧ (weight <= sum)%Q) →
  (number_of_point_forces ≤ length time_dependent_point_forces_)%nat →
  (k ≤ number_of_point_forces)%nat →
  ∃ shares,
    length shares = k ∧
    (∀ i weight_i weight sum, (i < k)%nat →
       members.1 !! i = Some weight_i → weight_i !! index_i = Some weight →
       members.2 !! i = Some sum →
       shares !! i = Some (weight / (sum + TinyReal))%Q) ∧
    (∀ share, share ∈ shares → (0 <= share)%Q ∧ (share <= 1)%Q) ∧
    ∀ force_prior_, (index_i < length force_prior_)%nat →
      foldl (λ acc i,
               force_prior_ ← acc;
               update_point_force TinyReal members time_dependent_point_forces_
                 index_i force_prior_ i)
            (Some (<[index_i:=Vecd_Zero]> force_prior_)) (seq 0 k) =
        Some (<[index_i:=weighted_sum
                           (zip shares (take k time_dependent_point_forces_))]>
                force_prior_).
Proof.
  intros Htiny Hrows Hf. induction k as [|k IH]; intros Hk.
  - exists []. split_and!; [done| |by intros share ?%elem_of_nil|done].
    intros i ? ? ? ?. lia.
  - destruct IH as (shares & Hlen & Hexact & Hshares & Hrun); [lia|].
    destruct (Hrows k) as (row & w & sum & Hrow & Hw & Hs & Hw0 & Hws); [lia|].
    destruct (lookup_lt_is_Some_2 time_dependent_point_forces_ k) as [F HF]; [lia|].
    exists (shares ++ [(w / (sum + TinyReal))%Q]). split_and!.
    + rewrite length_app. simpl. lia.
    + intros i row' w' sum' Hi Hrow' Hw' Hs'.
      destruct (decide (i = k)) as [->|Hne].
      * rewrite Hrow in Hrow'. injection Hrow' as <-.
        rewrite Hw in Hw'. injection Hw' as <-.
        rewrite Hs in Hs'. injection Hs' as <-.
        rewrite lookup_app_r by lia. by rewrite Hlen, Nat.sub_diag.
      * rewrite lookup_app_l by lia. eapply Hexact; [lia|done..].
    + intros share [Hin| ->%list_elem_of_singleton]%elem_of_app; [by apply Hshares|].
      assert (0 < sum + TinyReal)%Q as Hden by lra. split.
      * apply Qle_shift_div_l; [done|]. lra.
      * apply Qle_shift_div_r; [done|]. lra.
    + intros fp Hi.
      rewrite seq_S, foldl_app, (Hrun fp Hi).
      change (0 + k)%nat with k. cbn [foldl mbind option_bind].
      unfold update_point_force. rewrite Hrow. cbn [mbind option_bind].
      rewrite Hw. cbn [mbind option_bind]. rewrite Hs.
      cbn [mbind option_bind]. rewrite HF. cbn [mbind option_bind]. cbn zeta.
      rewrite list_lookup_insert_eq by done. cbn [mbind option_bind].
      rewrite write_Some by (by rewrite length_insert).
      rewrite list_insert_insert_eq. do 2 f_equal.
      rewrite (take_S_r _ _ _ HF).
      rewrite zip_with_app by (rewrite length_take; lia).
      cbn [zip_with]. by rewrite weighted_sum_snoc.
Qed.

(** X20: [getWeight] followed by [update], for a kernel that is nowhere
    negative and a positive [TinyReal]: for every point force the stored
    weight of a real particle lies between zero and the stored sum of the
    weights, so that [update] leaves the particle with
    [c_0 * F_0 + c_1 * F_1 + ...], accumulated from zero in this order,
    where [F_i] is the time-dependent point force [i] and every factor
    [c_i = weight_[i][index_i] / (sum_of_weight_[i] + TinyReal)] lies
    between zero and one: no particle receives more than the whole of a
    point force. *)
Theorem distributed_force_shares_bounded (kernel_W : Q → LevelSet.Vecd → Q)
    (reference_smoothing_length h_spacing_ratio_ particle_spacing_ref_ TinyReal : Q)
    (point_forces_ reference_positions_ pos0_ time_dependent_point_forces_
       : list LevelSet.Vecd)
    (total_real_particles_ : nat) (members : list (list Q) * list Q)
    (index_i : nat) :
  (0 < TinyReal)%Q →
  (∀ h displacement, 0 <= kernel_W h displacement)%Q →
  weights_allocated (length point_forces_) total_real_particles_
    reference_positions_ pos0_ members →
  (length point_forces_ ≤ length time_dependent_point_forces_)%nat →
  (index_i < total_real_particles_)%nat →
  ∃ members' shares,
    getWeight kernel_W reference_smoothing_length h_spacing_ratio_
      particle_spacing_ref_ point_forces_ reference_positions_ pos0_
      total_real_particles_ members = Some members' ∧
    (∀ i, (i < length point_forces_)%nat →
       ∃ weight_i weight sum,
         members'.1 !! i = Some weight_i ∧ weight_i !! index_i = Some weight ∧
         members'.2 !! i = Some sum ∧ (0 <= weight)%Q ∧ (weight <= sum)%Q ∧
         shares !! i = Some (weight / (sum + TinyReal))%Q) ∧
    length shares = length point_forces_ ∧
    (∀ share, share ∈ shares → (0 <= share)%Q ∧ (share <= 1)%Q) ∧
    ∀ force_prior_, (index_i < length force_prior_)%nat →
      DistributingPointForcesToBar_update TinyReal members'
        time_dependent_point_forces_ (length point_forces_) index_i force_prior_
        = Some (<[index_i:=weighted_sum
                             (zip shares (take (length point_forces_)
                                            time_dependent_point_forces_))]>
                  force_prior_).
Proof.
  intros Htiny Hkernel Halloc Hf Hreal. unfold getWeight. cbn zeta.
  destruct (getWeight_leaves_rows kernel_W
              (reference_smoothing_length / (h_spacing_ratio_ * particle_spacing_ref_))
              ((2 * (h_spacing_ratio_ * particle_spacing_ref_)) ^ 2)
              reference_positions_ pos0_ (length point_forces_)
              total_real_particles_ members Halloc) as (members' & Hrun & Hrows).
  assert (∀ i, (i < length point_forces_)%nat →
            ∃ weight_i weight sum,
              members'.1 !! i = Some weight_i ∧ weight_i !! index_i = Some weight ∧
              members'.2 !! i = Some sum ∧ (0 <= weight)%Q ∧ (weight <= sum)%Q)
    as Hbounded.
  { intros i Hlt.
    destruct (Hrows i Hlt) as (ref & row & sum & _ & Hw & Hs & Hl & Htake & Hsum & _).
    destruct (lookup_lt_is_Some_2 row index_i) as [w Hwi]; [lia|].
    exists row, w, sum. split_and!; [done|done|done| |].
    - eapply (Qsum_entry_le (take total_real_particles_ row) index_i).
      + rewrite Htake. apply Forall_fmap, Forall_forall. intros position _. simpl.
        unfold weight_of_particle. cbn zeta.
        destruct (Qle_bool _ _); [apply Hkernel|lra].
      + by rewrite lookup_take_lt.
    - rewrite Hsum.
      eapply (Qsum_entry_le (take total_real_particles_ row) index_i).
      + rewrite Htake. apply Forall_fmap, Forall_forall. intros position _. simpl.
        unfold weight_of_particle. cbn zeta.
        destruct (Qle_bool _ _); [apply Hkernel|lra].
      + by rewrite lookup_take_lt. }
  destruct (update_shares_prefix TinyReal members' time_dependent_point_forces_
              (length point_forces_) index_i (length point_forces_)
              Htiny Hbounded Hf ltac:(lia))
    as (shares & Hlen & Hexact & Hshares & Hupdate).
  exists members', shares. split_and!; [done| |done|done|].
  - intros i Hlt.
    destruct (Hbounded i Hlt) as (row & w & sum & Hrow & Hw & Hs & Hw0 & Hws).
    exists row, w, sum. split_and!; try done. by eapply Hexact.
  - intros fp Hi.
    unfold DistributingPointForcesToBar_update. rewrite write_Some by done.
    cbn [mbind option_bind]. by apply Hupdate.
Qed.

Lemma distributed_force_shares_bounded_witness :
  ∃ members' shares,
    getWeight (λ _ _, 1%Q) 1 1 1 [LevelSet.mkVecd 0 0 9] [LevelSet.mkVecd 0 0 0]
      [LevelSet.mkVecd 1 0 0; LevelSet.mkVecd 10 0 0; LevelSet.mkVecd 0 1 0] 3
      ([[7; 7; 7; 7]]%Q, [7]%Q) = Some members' ∧
    (∀ i, (i < length [LevelSet.mkVecd 0 0 9])%nat →
       ∃ weight_i weight sum,
         members'.1 !! i = Some weight_i ∧ weight_i !! 0%nat = Some weight ∧
         members'.2 !! i = Some sum ∧ (0 <= weight)%Q ∧ (weight <= sum)%Q ∧
         shares !! i = Some (weight / (sum + (1 # 1000000)))%Q) ∧
    length shares = length [LevelSet.mkVecd 0 0 9] ∧
    (∀ share, share ∈ shares → (0 <= share)%Q ∧ (share <= 1)%Q) ∧
    ∀ force_prior_, (0 < length force_prior_)%nat →
      DistributingPointForcesToBar_update (1 # 1000000) members'
        [LevelSet.mkVecd 0 0 9] (length [LevelSet.mkVecd 0 0 9]) 0 force_prior_
        = Some (<[0%nat:=weighted_sum
                           (zip shares (take (length [LevelSet.mkVecd 0 0 9])
                                          [LevelSet.mkVecd 0 0 9]))]>
                  force_prior_).
Proof.
  apply (distributed_force_shares_bounded (λ _ _, 1%Q) 1 1 1 (1 # 1000000)
           [LevelSet.mkVecd 0 0 9] [LevelSet.mkVecd 0 0 0]
           [LevelSet.mkVecd 1 0 0; LevelSet.mkVecd 10 0 0; LevelSet.mkVecd 0 1 0]
           [LevelSet.mkVecd 0 0 9] 3 ([[7; 7; 7; 7]]%Q, [7]%Q) 0).
  - reflexivity.
  - intros _ _. unfold Qle. simpl. lia.
  - unfold weights_allocated. simpl. split_and!; try lia.
    intros [|i] weight_i Hlt; [|lia]. intros [= <-]. simpl. lia.
  - simpl. lia.
  - lia.
Defined.

End point_force_facts.

Section bar_constructor_facts.
Import SlenderStructure.

(** X21: after the constructor of [BarDeformationGradientTensor], the
    members [b_n0_] and [pseudo_b_n_] refer to the particles' normal arrays
    [n0_] and [pseudo_n_]: at every particle index the operation reads the
    normal where it asks for the binormal, and what the particles' binormal
    arrays hold never reaches it; [BaseBarRelaxation] binds the same
    members to the binormal arrays. *)
Theorem BarDeformationGradientTensor_binormal_is_normal
    (particles : BarDirections) (index_i : nat) :
  let op := BarDeformationGradientTensor_new in
  b_n0_ op = particles_n0_ ∧
  pseudo_b_n_ op = particles_pseudo_n_ ∧
  directions_of particles (b_n0_ op) !! index_i = n0_data particles !! index_i ∧
  directions_of particles (pseudo_b_n_ op) !! index_i =
    pseudo_n_data particles !! index_i ∧
  (∀ other_b_n0 other_pseudo_b_n member,
     member ∈ [n0_ op; pseudo_n_ op; b_n0_ op; pseudo_b_n_ op] →
     directions_of (mkBarDirections (n0_data particles) other_b_n0
                      (pseudo_n_data particles) other_pseudo_b_n) member =
     directions_of particles member) ∧
  b_n0_ BaseBarRelaxation_directions = particles_b_n0_ ∧
  pseudo_b_n_ BaseBarRelaxation_directions = particles_pseudo_b_n_.
Proof.
  split_and!; try done.
  intros other_b_n0 other_pseudo_b_n member Hm. simpl in Hm.
  rewrite !elem_of_cons, elem_of_nil in Hm.
  by destruct Hm as [->|[->|[->|[->|[]]]]].
Qed.

(** X22: with a four-point and a nine-point rule and a non-negative number
    of Gaussian points, the tables the constructor of
    [BarStressRelaxationFirstHalf] selects cover the indices of the
    Gaussian-point loop exactly when that number is at most four or is
    nine: for five to eight points and for more than nine the loop reads
    past the end of the selected tables. *)
Theorem BarStressRelaxationFirstHalf_tables_cover_loop (number_of_gaussian_points : Z)
    (four_points nine_points : QuadratureRule) :
  (0 ≤ number_of_gaussian_points)%Z →
  rule_of_size 4 four_points → rule_of_size 9 nine_points →
  (quadrature_reads_in_bounds
     (BarStressRelaxationFirstHalf_quadrature number_of_gaussian_points
        four_points nine_points) ↔
   (number_of_gaussian_points ≤ 4 ∨ number_of_gaussian_points = 9)%Z).
Proof.
  intros Hn (F1 & F2 & F3) (N1 & N2 & N3).
  unfold quadrature_reads_in_bounds, BarStressRelaxationFirstHalf_quadrature.
  simpl. destruct (Z.eqb_spec number_of_gaussian_points 9) as [->|Hne].
  - split; [by right|]. intros _ i Hi.
    rewrite !lookup_lt_is_Some, N1, N2, N3. lia.
  - split.
    + intros Hb. left.
      destruct (Z.le_gt_cases number_of_gaussian_points 4) as [|Hgt]; [done|].
      destruct (Hb 4%Z) as [Hx _]; [lia|].
      apply lookup_lt_is_Some in Hx. rewrite F1 in Hx. simpl in Hx. lia.
    + intros [Hle|?]; [|done]. intros i Hi.
      rewrite !lookup_lt_is_Some, F1, F2, F3. lia.
Qed.

Lemma BarStressRelaxationFirstHalf_tables_cover_loop_witness :
  quadrature_reads_in_bounds
    (BarStressRelaxationFirstHalf_quadrature 5
       (mkQuadratureRule (replicate 4 1%Q) (replicate 4 1%Q) (replicate 4 1%Q))
       (mkQuadratureRule (replicate 9 1%Q) (replicate 9 1%Q) (replicate 9 1%Q))) ↔
  (5 ≤ 4 ∨ 5 = 9)%Z.
Proof.
  apply (BarStressRelaxationFirstHalf_tables_cover_loop 5
           (mkQuadratureRule (replicate 4 1%Q) (replicate 4 1%Q) (replicate 4 1%Q))
           (mkQuadratureRule (replicate 9 1%Q) (replicate 9 1%Q) (replicate 9 1%Q)));
    [lia|unfold rule_of_size; simpl; done..].
Defined.

End bar_constructor_facts.

(** ** Slender structure dynamics: the second half of the time step *)

Section second_half_facts.
Import SlenderStructure BarTimeIntegration.




End second_half_facts.
